(** * A small imperative front end: lexer, recursive-descent parser and
      semantic analyzer

    Shallow embedding of
    - [phase3-w25/src/lexer/lexer.c]               (the lexer),
    - [phase2-w25/src/parser/parser.c]             (the parser),
    - [phase3-w25/src/semantic_analyzer/semantic.c] (the analyzer),
    - [phase3-w25/include/parser.h], [semantic.h]   (the data model).

    Conventions.  C strings are [string]s read through [char_at], which gives
    the terminating NUL at and beyond the end.  Cursor positions are [nat]
    indexes; line numbers and scope levels are C [int]s and are kept in [Z]
    (their wrap-around would need inputs of 2^31 characters and is not
    modelled).  [malloc] is taken to succeed.  [exit(1)] is the [Fatal]
    outcome of the parser.  [printf] output of the analyzer is a list of
    diagnostics, in the order printed. *)

From Stdlib Require Import String Ascii List ZArith Bool Arith Lia.
Import ListNotations.

#[local] Set Warnings "-register-all".

Local Open Scope string_scope.
Local Open Scope Z_scope.

(* ================================================================= *)
(** ** Tokens (tokens.h) *)

(** Modelled from the spec: [tokens.h] is not among the sources.  The
    enumerators are the ones [lexer.c] and [parser.c] name; the spec lists the
    same kinds (number, identifier/keyword, operator, delimiters, end-of-file,
    error).  Their numeric values are never used except that [is_keyword]
    returns [0] for "not a keyword", so the six keyword kinds are taken to be
    non-zero. *)
Inductive TokenType : Type :=
| TOKEN_EOF | TOKEN_NUMBER | TOKEN_OPERATOR | TOKEN_IDENTIFIER
| TOKEN_EQUALS | TOKEN_SEMICOLON | TOKEN_LPAREN | TOKEN_RPAREN
| TOKEN_LBRACE | TOKEN_RBRACE
| TOKEN_IF | TOKEN_INT | TOKEN_PRINT | TOKEN_WHILE | TOKEN_REPEAT
| TOKEN_UNTIL | TOKEN_ERROR.

(** Modelled from the spec: the lexical error categories of [tokens.h], as
    named by [print_error] in [lexer.c]. *)
Inductive ErrorType : Type :=
| ERROR_NONE | ERROR_INVALID_CHAR | ERROR_INVALID_NUMBER
| ERROR_CONSECUTIVE_OPERATORS | ERROR_INVALID_IDENTIFIER
| ERROR_UNEXPECTED_TOKEN.

Definition TokenType_eqb (a b : TokenType) : bool :=
  match a, b with
  | TOKEN_EOF, TOKEN_EOF | TOKEN_NUMBER, TOKEN_NUMBER
  | TOKEN_OPERATOR, TOKEN_OPERATOR | TOKEN_IDENTIFIER, TOKEN_IDENTIFIER
  | TOKEN_EQUALS, TOKEN_EQUALS | TOKEN_SEMICOLON, TOKEN_SEMICOLON
  | TOKEN_LPAREN, TOKEN_LPAREN | TOKEN_RPAREN, TOKEN_RPAREN
  | TOKEN_LBRACE, TOKEN_LBRACE | TOKEN_RBRACE, TOKEN_RBRACE
  | TOKEN_IF, TOKEN_IF | TOKEN_INT, TOKEN_INT | TOKEN_PRINT, TOKEN_PRINT
  | TOKEN_WHILE, TOKEN_WHILE | TOKEN_REPEAT, TOKEN_REPEAT
  | TOKEN_UNTIL, TOKEN_UNTIL | TOKEN_ERROR, TOKEN_ERROR => true
  | _, _ => false
  end.

(** [Token token = {type, lexeme, line, error}]. *)
Record Token : Type := mkToken {
  tok_type : TokenType;
  lexeme : string;
  line : Z;
  error : ErrorType
}.

(* ================================================================= *)
(** ** The lexer (lexer.c) *)

Module Lexer.

Definition NUL : ascii := "000"%char.
Definition LF : ascii := "010"%char.
Definition TAB : ascii := "009"%char.

(** [input[pos]]: the string's character, or the terminating NUL. *)
Definition char_at (input : string) (pos : nat) : ascii :=
  match String.get pos input with
  | Some c => c
  | None => NUL
  end.

Definition is_nul (c : ascii) : bool := Ascii.eqb c NUL.

(** <ctype.h> in the "C" locale. *)
Definition isdigit (c : ascii) : bool :=
  let n := nat_of_ascii c in (48 <=? n)%nat && (n <=? 57)%nat.

Definition isalpha (c : ascii) : bool :=
  let n := nat_of_ascii c in
  ((65 <=? n)%nat && (n <=? 90)%nat) || ((97 <=? n)%nat && (n <=? 122)%nat).

Definition isalnum (c : ascii) : bool := isalpha c || isdigit c.

Definition is_ident_start (c : ascii) : bool :=
  isalpha c || Ascii.eqb c "_"%char.

Definition is_ident_char (c : ascii) : bool :=
  isalnum c || Ascii.eqb c "_"%char.

(** The keywords table. *)
Definition keywords : list (string * TokenType) :=
  [ ("if", TOKEN_IF); ("while", TOKEN_WHILE); ("repeat", TOKEN_REPEAT);
    ("until", TOKEN_UNTIL); ("int", TOKEN_INT); ("print", TOKEN_PRINT) ].

(** [is_keyword]: the kind of the first table entry equal to [word]; the C
    function's [0] is [None]. *)
Definition is_keyword (word : string) : option TokenType :=
  match find (fun kw => String.eqb word (fst kw)) keywords with
  | Some kw => Some (snd kw)
  | None => None
  end.

(** [current_line++] when [c] is a newline. *)
Definition bump_line (c : ascii) (current_line : Z) : Z :=
  if Ascii.eqb c LF then current_line + 1 else current_line.

(** The inner whitespace loop
    [while ((c = input[*pos]) != '\0' && (c == ' ' || c == '\n' || c == '\t'))].
    [n] bounds the iterations by the characters left; at [n = 0] the
    cursor is at the end and the C loop stops on the NUL as well. *)
Fixpoint skip_whitespace (n : nat) (input : string) (pos : nat)
    (current_line : Z) : nat * Z :=
  match n with
  | O => (pos, current_line)
  | S n' =>
      let c := char_at input pos in
      if negb (is_nul c)
         && (Ascii.eqb c " "%char || Ascii.eqb c LF || Ascii.eqb c TAB)
      then skip_whitespace n' input (S pos) (bump_line c current_line)
      else (pos, current_line)
  end.

(** The comment body loop
    [while (input[*pos] != '\0' &&
            !(input[*pos] == '*' && input[*pos + 1] == '/'))]. *)
Fixpoint skip_comment_body (n : nat) (input : string) (pos : nat)
    (current_line : Z) : nat * Z :=
  match n with
  | O => (pos, current_line)
  | S n' =>
      let c := char_at input pos in
      if negb (is_nul c)
         && negb (Ascii.eqb c "*"%char
                  && Ascii.eqb (char_at input (pos + 1)) "/"%char)
      then skip_comment_body n' input (S pos) (bump_line c current_line)
      else (pos, current_line)
  end.

(** The outer [while (1)] loop: whitespace, then a block comment if one
    starts here ([continue]), else [break]. *)
Fixpoint skip_blanks (n : nat) (input : string) (pos : nat)
    (current_line : Z) : nat * Z :=
  let '(pos1, line1) :=
    skip_whitespace (String.length input - pos) input pos current_line in
  if Ascii.eqb (char_at input pos1) "/"%char
     && Ascii.eqb (char_at input (pos1 + 1)) "*"%char
  then
    match n with
    | O => (pos1, line1)
    | S n' =>
        let pos2 := (pos1 + 2)%nat in
        let '(pos3, line3) :=
          skip_comment_body (String.length input - pos2) input pos2 line1 in
        let pos4 :=
          if negb (is_nul (char_at input pos3)) then (pos3 + 2)%nat
          else pos3 in
        skip_blanks n' input pos4 line3
    end
  else (pos1, line1).

(** The scanning [do { token.lexeme[i++] = c; ++*pos; c = input[*pos]; }
    while (p(c) && i < sizeof(token.lexeme) - 1)], shared by numbers
    ([p = isdigit]) and identifiers ([p = isalnum(c) || c == '_']).  The
    lexeme built so far is [lex], so [i] is its length.  [lexeme_size] is
    [sizeof(token.lexeme)]. *)
Fixpoint scan_lexeme (p : ascii -> bool) (lexeme_size : nat) (n : nat)
    (input : string) (pos : nat) (lex : string) : string * nat :=
  let lex' := lex ++ String (char_at input pos) EmptyString in
  let pos' := S pos in
  let c := char_at input pos' in
  if p c && (String.length lex' <? lexeme_size - 1)%nat
  then
    match n with
    | O => (lex', pos')
    | S n' => scan_lexeme p lexeme_size n' input pos' lex'
    end
  else (lex', pos').

(** The [switch (c)] on operators and delimiters, after [++*pos]; [pos]
    is the cursor after the first character. *)
Definition operator_token (c : ascii) (input : string) (pos : nat)
    (current_line : Z) : Token * nat :=
  let one := String c EmptyString in
  let next_is_eq := Ascii.eqb (char_at input pos) "="%char in
  if Ascii.eqb c "+"%char || Ascii.eqb c "-"%char
     || Ascii.eqb c "*"%char || Ascii.eqb c "/"%char
  then (mkToken TOKEN_OPERATOR one current_line ERROR_NONE, pos)
  else if Ascii.eqb c ">"%char then
    if next_is_eq
    then (mkToken TOKEN_OPERATOR ">=" current_line ERROR_NONE, S pos)
    else (mkToken TOKEN_OPERATOR one current_line ERROR_NONE, pos)
  else if Ascii.eqb c "<"%char then
    if next_is_eq
    then (mkToken TOKEN_OPERATOR "<=" current_line ERROR_NONE, S pos)
    else (mkToken TOKEN_OPERATOR one current_line ERROR_NONE, pos)
  else if Ascii.eqb c "="%char then
    if next_is_eq
    then (mkToken TOKEN_OPERATOR "==" current_line ERROR_NONE, S pos)
    else (mkToken TOKEN_EQUALS one current_line ERROR_NONE, pos)
  else if Ascii.eqb c ";"%char
  then (mkToken TOKEN_SEMICOLON one current_line ERROR_NONE, pos)
  else if Ascii.eqb c "("%char
  then (mkToken TOKEN_LPAREN one current_line ERROR_NONE, pos)
  else if Ascii.eqb c ")"%char
  then (mkToken TOKEN_RPAREN one current_line ERROR_NONE, pos)
  else if Ascii.eqb c "{"%char
  then (mkToken TOKEN_LBRACE one current_line ERROR_NONE, pos)
  else if Ascii.eqb c "}"%char
  then (mkToken TOKEN_RBRACE one current_line ERROR_NONE, pos)
  else (mkToken TOKEN_ERROR one current_line ERROR_INVALID_CHAR, pos).

(** [Token get_next_token(const char* input, int* pos)].  The static
    [current_line] is threaded: the result is the token, the new [*pos] and
    the new [current_line].  The token's [line] is [current_line] as it was
    on entry (the initializer of [token] reads [current_line] first). *)
Definition get_next_token (lexeme_size : nat) (input : string) (pos : nat)
    (current_line : Z) : Token * nat * Z :=
  let '(pos1, line1) :=
    skip_blanks (String.length input - pos) input pos current_line in
  let c := char_at input pos1 in
  if is_nul c then
    (mkToken TOKEN_EOF "EOF" current_line ERROR_NONE, pos1, 0)
  else if isdigit c then
    let '(lex, pos2) :=
      scan_lexeme isdigit lexeme_size (String.length input - pos1)
                  input pos1 EmptyString in
    (mkToken TOKEN_NUMBER lex current_line ERROR_NONE, pos2, line1)
  else if is_ident_start c then
    let '(lex, pos2) :=
      scan_lexeme is_ident_char lexeme_size (String.length input - pos1)
                  input pos1 EmptyString in
    let ty := match is_keyword lex with
              | Some keyword_type => keyword_type
              | None => TOKEN_IDENTIFIER
              end in
    (mkToken ty lex current_line ERROR_NONE, pos2, line1)
  else
    let '(tok, pos2) := operator_token c input (S pos1) current_line in
    (tok, pos2, line1).

End Lexer.

(* ================================================================= *)
(** ** The abstract syntax tree (parser.h) *)

Inductive ASTNodeType : Type :=
| AST_PROGRAM | AST_VARDECL | AST_ASSIGN | AST_PRINT | AST_NUMBER
| AST_IDENTIFIER | AST_BINOP | AST_IF | AST_WHILE | AST_REPEAT
| AST_BLOCK | AST_FUNCALL.

Inductive ParseError : Type :=
| PARSE_ERROR_NONE | PARSE_ERROR_UNEXPECTED_TOKEN
| PARSE_ERROR_MISSING_SEMICOLON | PARSE_ERROR_MISSING_IDENTIFIER
| PARSE_ERROR_MISSING_EQUALS | PARSE_ERROR_INVALID_EXPRESSION
| PARSE_ERROR_MISSING_LPAREN | PARSE_ERROR_MISSING_RPAREN
| PARSE_ERROR_MISSING_CONDITION | PARSE_ERROR_MISSING_BLOCK
| PARSE_ERROR_INVALID_OPERATOR | PARSE_ERROR_FUNCTION_CALL.

(** Modelled from the spec: the third child slot [else_branch] of
    [struct ASTNode].  [parser.h] as it is among the sources declares [type],
    [token], [left] and [right] only, while [check_statement] in [semantic.c]
    reads [node->else_branch]; the spec gives every node "an optional third
    child used only by If to hold an else-branch".  The other fields are those
    of [parser.h]; a null child pointer is [None].  [create_node] and the
    parsing functions never write the third slot: the nodes they build are
    taken to have it null. *)
Inductive ASTNode : Type :=
| Node (type : ASTNodeType) (token : Token)
       (left right else_branch : option ASTNode).

Definition node_type (n : ASTNode) : ASTNodeType :=
  match n with Node ty _ _ _ _ => ty end.
Definition node_token (n : ASTNode) : Token :=
  match n with Node _ tok _ _ _ => tok end.
Definition node_left (n : ASTNode) : option ASTNode :=
  match n with Node _ _ l _ _ => l end.
Definition node_right (n : ASTNode) : option ASTNode :=
  match n with Node _ _ _ r _ => r end.
Definition node_else_branch (n : ASTNode) : option ASTNode :=
  match n with Node _ _ _ _ e => e end.

(** [n->right = r]. *)
Definition set_right (n : ASTNode) (r : ASTNode) : ASTNode :=
  match n with Node ty tok l _ e => Node ty tok l (Some r) e end.

(** Induction over the tree, children included. *)
Section ASTNode_induction.
Variable P : ASTNode -> Prop.

Definition on_child (o : option ASTNode) : Prop :=
  match o with Some n => P n | None => True end.

Hypothesis step : forall ty tok l r e,
    on_child l -> on_child r -> on_child e -> P (Node ty tok l r e).

Fixpoint ASTNode_children_ind (n : ASTNode) : P n :=
  match n with
  | Node ty tok l r e =>
      step ty tok l r e
        (match l return on_child l with
         | Some x => ASTNode_children_ind x | None => I end)
        (match r return on_child r with
         | Some x => ASTNode_children_ind x | None => I end)
        (match e return on_child e with
         | Some x => ASTNode_children_ind x | None => I end)
  end.
End ASTNode_induction.

(* ================================================================= *)
(** ** The parser (parser.c) *)

(** What the run printed before [exit(1)]. *)
Inductive FatalError : Type :=
| ParseErrorExit (e : ParseError) (t : Token)
    (* parse_error(e, t); exit(1) *)
| ExpectedPrimary (at_line : Z)
    (* Syntax Error: Expected primary expression at line ... *)
| UnexpectedStatement (lex : string).
    (* Syntax Error: Unexpected token ... *)

(** A parsing function returns, exits the process, or (in the model only)
    runs out of the fuel that bounds its recursion. *)
Inductive Outcome (A : Type) : Type :=
| Ok (a : A)
| Fatal (f : FatalError)
| OutOfFuel.
Arguments Ok {A} a.
Arguments Fatal {A} f.
Arguments OutOfFuel {A}.

Definition bind {A B : Type} (m : Outcome A) (k : A -> Outcome B)
  : Outcome B :=
  match m with
  | Ok a => k a
  | Fatal f => Fatal f
  | OutOfFuel => OutOfFuel
  end.

Notation "'let*' x ':=' m 'in' k" := (bind m (fun x => k))
  (at level 10, x pattern, m at level 200, k at level 200).

Module Parser.

(** The parser's globals [source], [position], [current_token], together
    with the lexer's [current_line], which every [get_next_token] updates. *)
Record PState : Type := mkPState {
  source : string;
  position : nat;
  current_token : Token;
  current_line : Z
}.

Definition Parsed : Type := Outcome (ASTNode * PState).

Section WithLexemeSize.

(** [sizeof(token.lexeme)], declared in [tokens.h], which is not among the
    sources: a parameter of the parser. *)
Variable lexeme_size : nat.

Definition advance (st : PState) : PState :=
  let '(tok, pos, ln) :=
    Lexer.get_next_token lexeme_size (source st) (position st)
                         (current_line st) in
  mkPState (source st) pos tok ln.

(** [create_node]: the node takes the current token and no children.  The
    C function writes [type], [token], [left] and [right] only; the third
    slot, which [parser.h] does not declare and the parser never writes, is
    modelled as null. *)
Definition create_node (ty : ASTNodeType) (st : PState) : ASTNode :=
  Node ty (current_token st) None None None.

Definition match_ (ty : TokenType) (st : PState) : bool :=
  TokenType_eqb (tok_type (current_token st)) ty.

Definition expect (ty : TokenType) (st : PState) : Outcome PState :=
  if match_ ty st then Ok (advance st)
  else Fatal (ParseErrorExit PARSE_ERROR_UNEXPECTED_TOKEN (current_token st)).

(** [current_token.lexeme[0]]. *)
Definition lexeme0 (t : Token) : ascii :=
  match lexeme t with
  | String c _ => c
  | EmptyString => Lexer.NUL
  end.

Definition is_factor_op (t : Token) : bool :=
  Ascii.eqb (lexeme0 t) "*"%char || Ascii.eqb (lexeme0 t) "/"%char.
Definition is_term_op (t : Token) : bool :=
  Ascii.eqb (lexeme0 t) "+"%char || Ascii.eqb (lexeme0 t) "-"%char.
Definition is_comparison_op (t : Token) : bool :=
  String.eqb (lexeme t) "<" || String.eqb (lexeme t) ">".
Definition is_equality_op (t : Token) : bool :=
  String.eqb (lexeme t) "==" || String.eqb (lexeme t) "!=".

(** *** Expressions *)

Section Expressions.

(** The forward declaration [static ASTNode *parse_expression(void)]. *)
Variable parse_expression : PState -> Parsed.

Definition parse_factorial (st : PState) : Parsed :=
  let tok := current_token st in
  let st1 := advance st in
  let* st2 := expect TOKEN_LPAREN st1 in
  let* (arg, st3) := parse_expression st2 in
  let* st4 := expect TOKEN_RPAREN st3 in
  Ok (Node AST_FUNCALL tok (Some arg) None None, st4).

(** The lookahead of [parse_primary] calls [get_next_token] and restores
    [position]; the lexer's [current_line] keeps what that call made of it. *)
Definition peek (st : PState) : Token * PState :=
  let '(next_token, _, ln) :=
    Lexer.get_next_token lexeme_size (source st) (position st)
                         (current_line st) in
  (next_token, mkPState (source st) (position st) (current_token st) ln).

Definition parse_primary (st : PState) : Parsed :=
  if match_ TOKEN_NUMBER st then
    Ok (create_node AST_NUMBER st, advance st)
  else if match_ TOKEN_IDENTIFIER st then
    let '(next_token, st1) := peek st in
    if TokenType_eqb (tok_type next_token) TOKEN_LPAREN
       && String.eqb (lexeme (current_token st1)) "factorial"
    then parse_factorial st1
    else Ok (create_node AST_IDENTIFIER st1, advance st1)
  else if match_ TOKEN_LPAREN st then
    let st1 := advance st in
    let* (node, st2) := parse_expression st1 in
    let* st3 := expect TOKEN_RPAREN st2 in
    Ok (node, st3)
  else Fatal (ExpectedPrimary (line (current_token st))).

(** The loop that [parse_factor], [parse_term], [parse_comparison] and
    [parse_equality] each contain, for the level's operator test [is_op] and
    its operand parser:
    [while (match(TOKEN_OPERATOR) && is_op) { op = current_token; advance();
       right = operand(); new_node = BinOp(op, node, right); node = new_node; }]
    [n] bounds the iterations. *)
Fixpoint binop_loop (is_op : Token -> bool) (operand : PState -> Parsed)
    (n : nat) (node : ASTNode) (st : PState) : Parsed :=
  if match_ TOKEN_OPERATOR st && is_op (current_token st) then
    match n with
    | O => OutOfFuel
    | S n' =>
        let op := current_token st in
        let st1 := advance st in
        let* (rhs, st2) := operand st1 in
        let new_node := Node AST_BINOP op (Some node) (Some rhs) None in
        binop_loop is_op operand n' new_node st2
    end
  else Ok (node, st).

Definition parse_factor (n : nat) (st : PState) : Parsed :=
  let* (node, st1) := parse_primary st in
  binop_loop is_factor_op parse_primary n node st1.

Definition parse_term (n : nat) (st : PState) : Parsed :=
  let* (node, st1) := parse_factor n st in
  binop_loop is_term_op (parse_factor n) n node st1.

Definition parse_comparison (n : nat) (st : PState) : Parsed :=
  let* (node, st1) := parse_term n st in
  binop_loop is_comparison_op (parse_term n) n node st1.

Definition parse_equality (n : nat) (st : PState) : Parsed :=
  let* (node, st1) := parse_comparison n st in
  binop_loop is_equality_op (parse_comparison n) n node st1.

End Expressions.

(** [parse_expression] is [parse_equality]; [fuel] bounds the nesting of
    parentheses and calls, and the iterations of each operator loop. *)
Fixpoint parse_expression (fuel : nat) (st : PState) : Parsed :=
  match fuel with
  | O => OutOfFuel
  | S f => parse_equality (parse_expression f) f st
  end.

(** *** Statements *)

(** [parse_block] keeps a pointer [current] to the statement it appended
    last and stores the next one through [current->right].  Seen from
    [block_node->left], [current] is the node reached by following [right]
    [depth] times, and the store is [set_right_at depth]. *)
Fixpoint set_right_at (depth : nat) (n : ASTNode) (stmt : ASTNode)
  : ASTNode :=
  match depth with
  | O => set_right n stmt
  | S d =>
      match n with
      | Node ty tok l (Some r) e =>
          Node ty tok l (Some (set_right_at d r stmt)) e
      | Node _ _ _ None _ => n
      end
  end.

Section Statements.

(** The fuel handed to [parse_expression] and to the block loop. *)
Variable fuel : nat.

(** The forward declaration [static ASTNode *parse_statement(void)]. *)
Variable parse_statement : PState -> Parsed.

Definition parse_declaration (st : PState) : Parsed :=
  let st1 := advance st in
  if negb (match_ TOKEN_IDENTIFIER st1) then
    Fatal (ParseErrorExit PARSE_ERROR_MISSING_IDENTIFIER (current_token st1))
  else
    let tok := current_token st1 in
    let st2 := advance st1 in
    if negb (match_ TOKEN_SEMICOLON st2) then
      Fatal (ParseErrorExit PARSE_ERROR_MISSING_SEMICOLON (current_token st2))
    else Ok (Node AST_VARDECL tok None None None, advance st2).

Definition parse_assignment (st : PState) : Parsed :=
  let tok := current_token st in
  let lhs := create_node AST_IDENTIFIER st in
  let st1 := advance st in
  if negb (match_ TOKEN_EQUALS st1) then
    Fatal (ParseErrorExit PARSE_ERROR_MISSING_EQUALS (current_token st1))
  else
    let st2 := advance st1 in
    let* (rhs, st3) := parse_expression fuel st2 in
    if negb (match_ TOKEN_SEMICOLON st3) then
      Fatal (ParseErrorExit PARSE_ERROR_MISSING_SEMICOLON (current_token st3))
    else Ok (Node AST_ASSIGN tok (Some lhs) (Some rhs) None, advance st3).

Definition parse_if_statement (st : PState) : Parsed :=
  let tok := current_token st in
  let st1 := advance st in
  let* st2 := expect TOKEN_LPAREN st1 in
  let* (cond, st3) := parse_expression fuel st2 in
  let* st4 := expect TOKEN_RPAREN st3 in
  let* (body, st5) := parse_statement st4 in
  Ok (Node AST_IF tok (Some cond) (Some body) None, st5).

Definition parse_while_statement (st : PState) : Parsed :=
  let tok := current_token st in
  let st1 := advance st in
  let* st2 := expect TOKEN_LPAREN st1 in
  let* (cond, st3) := parse_expression fuel st2 in
  let* st4 := expect TOKEN_RPAREN st3 in
  let* (body, st5) := parse_statement st4 in
  Ok (Node AST_WHILE tok (Some cond) (Some body) None, st5).

Definition parse_repeat_statement (st : PState) : Parsed :=
  let tok := current_token st in
  let st1 := advance st in
  let* (body, st2) := parse_statement st1 in
  if negb (match_ TOKEN_UNTIL st2) then
    Fatal (ParseErrorExit PARSE_ERROR_UNEXPECTED_TOKEN (current_token st2))
  else
    let st3 := advance st2 in
    let* st4 := expect TOKEN_LPAREN st3 in
    let* (cond, st5) := parse_expression fuel st4 in
    let* st6 := expect TOKEN_RPAREN st5 in
    let* st7 := expect TOKEN_SEMICOLON st6 in
    Ok (Node AST_REPEAT tok (Some body) (Some cond) None, st7).

Definition parse_print_statement (st : PState) : Parsed :=
  let tok := current_token st in
  let st1 := advance st in
  let* (e, st2) := parse_expression fuel st1 in
  if negb (match_ TOKEN_SEMICOLON st2) then
    Fatal (ParseErrorExit PARSE_ERROR_MISSING_SEMICOLON (current_token st2))
  else Ok (Node AST_PRINT tok (Some e) None None, advance st2).

(** The loop of [parse_block].  [block_left] is [block_node->left];
    [current] is the depth of the pointer [current] below it (unused while
    [block_left] is null).
    [if (block_node->left == NULL) { block_node->left = stmt;
                                     current = block_node->left; }
     else { current->right = stmt; current = current->right; }] *)
Fixpoint parse_block_loop (n : nat) (block_left : option ASTNode)
    (current : nat) (st : PState) : Outcome (option ASTNode * PState) :=
  if negb (match_ TOKEN_RBRACE st) && negb (match_ TOKEN_EOF st) then
    match n with
    | O => OutOfFuel
    | S n' =>
        let* (stmt, st1) := parse_statement st in
        match block_left with
        | None => parse_block_loop n' (Some stmt) 0 st1
        | Some first =>
            parse_block_loop n' (Some (set_right_at current first stmt))
                             (S current) st1
        end
    end
  else Ok (block_left, st).

Definition parse_block (st : PState) : Parsed :=
  let* st1 := expect TOKEN_LBRACE st in
  let tok := current_token st1 in
  let* (block_left, st2) := parse_block_loop fuel None 0 st1 in
  if negb (match_ TOKEN_RBRACE st2) then
    Fatal (ParseErrorExit PARSE_ERROR_MISSING_BLOCK (current_token st2))
  else
    let* st3 := expect TOKEN_RBRACE st2 in
    Ok (Node AST_BLOCK tok block_left None None, st3).

Definition parse_statement_body (st : PState) : Parsed :=
  if match_ TOKEN_INT st then parse_declaration st
  else if match_ TOKEN_IDENTIFIER st then parse_assignment st
  else if match_ TOKEN_IF st then parse_if_statement st
  else if match_ TOKEN_WHILE st then parse_while_statement st
  else if match_ TOKEN_REPEAT st then parse_repeat_statement st
  else if match_ TOKEN_PRINT st then parse_print_statement st
  else if match_ TOKEN_LBRACE st then parse_block st
  else Fatal (UnexpectedStatement (lexeme (current_token st))).

End Statements.

(** [parse_statement]; [fuel] bounds the nesting of statements, and is
    handed down to expressions and block loops. *)
Fixpoint parse_statement (fuel : nat) (st : PState) : Parsed :=
  match fuel with
  | O => OutOfFuel
  | S f => parse_statement_body f (parse_statement f) st
  end.

(** The loop of [parse_program], filling the Program node whose token is
    [tok] (taken by [create_node] when the node was made):
    [while (!match(TOKEN_EOF)) { current->left = parse_statement();
        if (!match(TOKEN_EOF)) { current->right = create_node(AST_PROGRAM);
                                 current = current->right; } }] *)
Fixpoint parse_program_loop (fuel : nat) (n : nat) (tok : Token)
    (st : PState) : Parsed :=
  if negb (match_ TOKEN_EOF st) then
    match n with
    | O => OutOfFuel
    | S n' =>
        let* (stmt, st1) := parse_statement fuel st in
        if negb (match_ TOKEN_EOF st1) then
          let* (rest, st2) :=
            parse_program_loop fuel n' (current_token st1) st1 in
          Ok (Node AST_PROGRAM tok (Some stmt) (Some rest) None, st2)
        else Ok (Node AST_PROGRAM tok (Some stmt) None None, st1)
    end
  else Ok (Node AST_PROGRAM tok None None None, st).

Definition parse_program (fuel : nat) (st : PState) : Parsed :=
  parse_program_loop fuel fuel (current_token st) st.

(** [parser_init]: [source = input; position = 0; advance()].  The lexer's
    [current_line] is not touched: it is [1] when the process starts and
    whatever the previous run left otherwise, so it is an argument here. *)
Definition parser_init (current_line0 : Z) (input : string) : PState :=
  advance (mkPState input 0 (mkToken TOKEN_EOF EmptyString 0 ERROR_NONE)
                    current_line0).

Definition parse (fuel : nat) (st : PState) : Parsed :=
  parse_program fuel st.

(** A parse of [input] in a fresh process, tree only. *)
Definition parse_string (fuel : nat) (input : string) : Outcome ASTNode :=
  let* (ast, _) := parse fuel (parser_init 1 input) in Ok ast.

Definition parse_expression_string (fuel : nat) (input : string)
  : Outcome ASTNode :=
  let* (ast, _) := parse_expression fuel (parser_init 1 input) in Ok ast.

End WithLexemeSize.
End Parser.

(* ================================================================= *)
(** ** The semantic analyzer (semantic.h, semantic.c) *)

Module Semantic.

(** [struct Symbol]; the list link [next] is the list itself. *)
Record Symbol : Type := mkSymbol {
  name : string;
  type : TokenType;
  scope_level : Z;
  line_declared : Z;
  is_initialized : bool
}.

(** [struct SymbolTable]: [head] is the linked list from its head. *)
Record SymbolTable : Type := mkSymbolTable {
  head : list Symbol;
  current_scope : Z
}.

Inductive SemanticErrorType : Type :=
| SEM_ERROR_NONE | SEM_ERROR_UNDECLARED_VARIABLE
| SEM_ERROR_REDECLARED_VARIABLE | SEM_ERROR_TYPE_MISMATCH
| SEM_ERROR_UNINITIALIZED_VARIABLE | SEM_ERROR_INVALID_OPERATION
| SEM_ERROR_SEMANTIC_ERROR.

(** One call of [semantic_error(error, name, line)], i.e. one printed
    line "Semantic Error at line <line>: ...". *)
Record Diagnostic : Type := mkDiagnostic {
  diag_error : SemanticErrorType;
  diag_name : string;
  diag_line : Z
}.

Definition init_symbol_table : SymbolTable := mkSymbolTable [] 0.

(** [strncpy(symbol->name, name, sizeof(symbol->name));
     symbol->name[sizeof(symbol->name) - 1] = 0]
    with [char name[100]]: the first 99 characters. *)
Definition copy_name (nm : string) : string := String.substring 0 99 nm.

Definition add_symbol (table : SymbolTable) (nm : string) (ty : TokenType)
    (ln : Z) : SymbolTable :=
  mkSymbolTable
    (mkSymbol (copy_name nm) ty (current_scope table) ln false :: head table)
    (current_scope table).

(** The scan of a lookup.  The C functions return a pointer into the list;
    here that is the symbol's index from the head, with the symbol read
    there. *)
Fixpoint lookup_from (keep : Symbol -> bool) (l : list Symbol) (i : nat)
  : option (nat * Symbol) :=
  match l with
  | [] => None
  | s :: rest => if keep s then Some (i, s) else lookup_from keep rest (S i)
  end.

Definition lookup_symbol (table : SymbolTable) (nm : string)
  : option (nat * Symbol) :=
  lookup_from (fun s => String.eqb (name s) nm) (head table) 0.

Definition lookup_symbol_current_scope (table : SymbolTable) (nm : string)
  : option (nat * Symbol) :=
  lookup_from (fun s => String.eqb (name s) nm
                        && (scope_level s =? current_scope table))
              (head table) 0.

Definition enter_scope (table : SymbolTable) : SymbolTable :=
  mkSymbolTable (head table) (current_scope table + 1).

Definition remove_symbols_in_current_scope (table : SymbolTable)
  : SymbolTable :=
  mkSymbolTable
    (filter (fun s => negb (scope_level s =? current_scope table))
            (head table))
    (current_scope table).

Definition exit_scope (table : SymbolTable) : SymbolTable :=
  let table' := remove_symbols_in_current_scope table in
  mkSymbolTable (head table') (current_scope table' - 1).

(** [symbol->is_initialized = 1] through the pointer [i]. *)
Fixpoint set_initialized (i : nat) (l : list Symbol) : list Symbol :=
  match l, i with
  | [], _ => []
  | s :: rest, O =>
      mkSymbol (name s) (type s) (scope_level s) (line_declared s) true
      :: rest
  | s :: rest, S i' => s :: set_initialized i' rest
  end.

(** What the checks work on: the table they update in place and the
    diagnostics printed so far. *)
Record AState : Type := mkAState {
  table : SymbolTable;
  out : list Diagnostic
}.

Definition semantic_error (e : SemanticErrorType) (nm : string) (ln : Z)
    (st : AState) : AState :=
  mkAState (table st) (out st ++ [mkDiagnostic e nm ln]).

Definition Checker : Type := AState -> bool * AState.

(** Calling a check on a child pointer: every check that may be handed a
    null pointer starts with [if (!node) return 1]. *)
Definition on_node (f : ASTNode -> Checker) (o : option ASTNode) : Checker :=
  fun st =>
    match o with
    | Some n => f n st
    | None => (true, st)
    end.

(** [if (p) valid &= f(p, table)] at a call site: the same outcome. *)
Definition if_present (f : ASTNode -> Checker) (o : option ASTNode) : Checker :=
  on_node f o.

Definition check_declaration (node : ASTNode) : Checker :=
  fun st =>
    match node_type node with
    | AST_VARDECL =>
        let nm := lexeme (node_token node) in
        match lookup_symbol_current_scope (table st) nm with
        | Some _ =>
            (false,
             semantic_error SEM_ERROR_REDECLARED_VARIABLE nm
                            (line (node_token node)) st)
        | None =>
            (true,
             mkAState (add_symbol (table st) nm TOKEN_INT
                                  (line (node_token node)))
                      (out st))
        end
    | _ => (true, st)
    end.

Fixpoint check_expression (node : ASTNode) (st : AState) {struct node}
  : bool * AState :=
  match node with
  | Node ty tok l r _ =>
      match ty with
      | AST_NUMBER => (true, st)
      | AST_IDENTIFIER =>
          match lookup_symbol (table st) (lexeme tok) with
          | None =>
              (false,
               semantic_error SEM_ERROR_UNDECLARED_VARIABLE (lexeme tok)
                              (line tok) st)
          | Some (_, symbol) =>
              if negb (is_initialized symbol)
              then (true,
                    semantic_error SEM_ERROR_UNINITIALIZED_VARIABLE
                                   (lexeme tok) (line tok) st)
              else (true, st)
          end
      | _ =>
          let '(v1, st1) :=
            match l with
            | Some n => check_expression n st
            | None => (true, st)
            end in
          let '(v2, st2) :=
            match r with
            | Some n => check_expression n st1
            | None => (true, st1)
            end in
          (true && v1 && v2, st2)
      end
  end.

Definition check_condition (node : ASTNode) : Checker :=
  check_expression node.

Definition check_assignment (node : ASTNode) : Checker :=
  fun st =>
    match node with
    | Node AST_ASSIGN tok (Some lhs) (Some rhs) _ =>
        let nm := lexeme (node_token lhs) in
        match lookup_symbol (table st) nm with
        | None =>
            (false,
             semantic_error SEM_ERROR_UNDECLARED_VARIABLE nm (line tok) st)
        | Some (symbol, _) =>
            let '(expr_valid, st1) := check_expression rhs st in
            if expr_valid
            then (expr_valid,
                  mkAState
                    (mkSymbolTable (set_initialized symbol (head (table st1)))
                                   (current_scope (table st1)))
                    (out st1))
            else (expr_valid, st1)
        end
    | _ => (false, st)
    end.

Definition with_table (f : SymbolTable -> SymbolTable) (st : AState)
  : AState :=
  mkAState (f (table st)) (out st).

(** [check_statement] and [check_block].  [check_statement] hands a Block
    node itself to [check_block]; that call is written out as the body of
    [check_block] (see [check_statement_block]). *)
Fixpoint check_statement (node : ASTNode) (st : AState) {struct node}
  : bool * AState :=
  match node with
  | Node ty tok l r e =>
      match ty with
      | AST_VARDECL => check_declaration node st
      | AST_ASSIGN => check_assignment node st
      | AST_BLOCK =>
          let st0 := with_table enter_scope st in
          let '(v1, st1) :=
            match l with
            | Some n => check_statement n st0
            | None => (true, st0)
            end in
          let '(v2, st2) :=
            match r with
            | Some n => check_block n st1
            | None => (true, st1)
            end in
          (true && v1 && v2, with_table exit_scope st2)
      | AST_IF =>
          let '(v1, st1) := if_present check_condition l st in
          let '(v2, st2) :=
            match r with
            | Some n => check_statement n st1
            | None => (true, st1)
            end in
          let '(v3, st3) :=
            match e with
            | Some n => check_statement n st2
            | None => (true, st2)
            end in
          (true && v1 && v2 && v3, st3)
      | AST_WHILE =>
          let '(v1, st1) := if_present check_condition l st in
          let '(v2, st2) :=
            match r with
            | Some n => check_statement n st1
            | None => (true, st1)
            end in
          (true && v1 && v2, st2)
      | AST_PRINT =>
          let '(v1, st1) := if_present check_expression l st in
          (true && v1, st1)
      | _ =>
          let '(v1, st1) := check_expression node st in
          (true && v1, st1)
      end
  end
with check_block (node : ASTNode) (st : AState) {struct node}
  : bool * AState :=
  match node with
  | Node _ _ l r _ =>
      let st0 := with_table enter_scope st in
      let '(v1, st1) :=
        match l with
        | Some n => check_statement n st0
        | None => (true, st0)
        end in
      let '(v2, st2) :=
        match r with
        | Some n => check_block n st1
        | None => (true, st1)
        end in
      (true && v1 && v2, with_table exit_scope st2)
  end.

Fixpoint check_program (node : ASTNode) (st : AState) {struct node}
  : bool * AState :=
  match node with
  | Node AST_PROGRAM _ l r _ =>
      let '(v1, st1) := if_present check_statement l st in
      let '(v2, st2) :=
        match r with
        | Some n => check_program n st1
        | None => (true, st1)
        end in
      (true && v1 && v2, st2)
  | _ =>
      let '(v1, st1) := check_statement node st in
      (true && v1, st1)
  end.

(** [analyze_semantics]: the verdict, with what was printed (the
    diagnostics) and the table as [dump_symbol_table] shows it. *)
Definition analyze_semantics (ast : option ASTNode) : bool * AState :=
  on_node check_program ast (mkAState init_symbol_table []).

End Semantic.

(** Parse in a fresh process, then analyze: verdict and diagnostics. *)
Definition parse_and_analyze (lexeme_size fuel : nat) (input : string)
  : Outcome (bool * list Semantic.Diagnostic) :=
  let* ast := Parser.parse_string lexeme_size fuel input in
  let '(valid, st) := Semantic.analyze_semantics (Some ast) in
  Ok (valid, Semantic.out st).

(** Parse in a fresh process, then analyze: verdict, diagnostics and the
    table that [dump_symbol_table] prints. *)
Definition parse_and_dump (lexeme_size fuel : nat) (input : string)
  : Outcome (bool * Semantic.AState) :=
  let* ast := Parser.parse_string lexeme_size fuel input in
  Ok (Semantic.analyze_semantics (Some ast)).

(** The state in which [analyze_semantics] starts. *)
Definition initial_state : Semantic.AState :=
  Semantic.mkAState Semantic.init_symbol_table [].

(* ================================================================= *)
(** ** The shape of the checks *)

Module Shape.
Import Semantic.

(** [valid &= f(..); valid &= g(..)]: both checks run, one after the other
    on the same table, and the verdicts are and-ed. *)
Definition seq_and (f g : Checker) : Checker :=
  fun st =>
    let '(v1, st1) := f st in
    let '(v2, st2) := g st1 in
    (v1 && v2, st2).

(** [enter_scope(table); ...; exit_scope(table)] around a check. *)
Definition scoped (f : Checker) : Checker :=
  fun st =>
    let '(v, st') := f (with_table enter_scope st) in
    (v, with_table exit_scope st').

(** A diagnostic that is only a warning. *)
Definition is_warning (d : Diagnostic) : Prop :=
  diag_error d = SEM_ERROR_UNINITIALIZED_VARIABLE.

(** The check only adds to what was printed, and when its verdict is
    "valid" what it added are warnings. *)
Definition verdict_sound (f : Checker) : Prop :=
  forall st,
    exists ds,
      out (snd (f st)) = (out st ++ ds)%list
      /\ (fst (f st) = true -> Forall is_warning ds).

(** A symbol with its [is_initialized] flag forgotten. *)
Definition forget_flag (s : Symbol) : Symbol :=
  mkSymbol (name s) (type s) (scope_level s) (line_declared s) false.

(** Two states whose tables differ at most in [is_initialized] flags. *)
Definition same_up_to_flags (st1 st2 : AState) : Prop :=
  map forget_flag (head (table st1)) = map forget_flag (head (table st2))
  /\ current_scope (table st1) = current_scope (table st2).

(** The verdict of the check does not depend on [is_initialized] flags,
    and neither does the table it leaves, flags apart. *)
Definition flag_blind (f : Checker) : Prop :=
  forall st1 st2,
    same_up_to_flags st1 st2 ->
    fst (f st1) = fst (f st2)
    /\ same_up_to_flags (snd (f st1)) (snd (f st2)).

(** The check leaves the scope counter as it found it. *)
Definition keeps_scope (f : Checker) : Prop :=
  forall st,
    current_scope (table (snd (f st)))
    = current_scope (table st).

End Shape.

(* ================================================================= *)
(** ** What is left of the input *)

(** The characters after the cursor, plus one while the current token is
    not the end-of-file token: the quantity every consumed token lowers. *)
Definition remaining (st : Parser.PState) : nat :=
  (String.length (Parser.source st) - Parser.position st)
  + (if Parser.match_ TOKEN_EOF st then 0 else 1).

(** A parsing function that, when it returns, has consumed input. *)
Definition consumes (p : Parser.PState -> Parser.Parsed) : Prop :=
  forall st node st',
    p st = Ok (node, st') -> (remaining st' < remaining st)%nat.

(** A parsing function that returns or exits on every state with at most
    [m] left. *)
Definition total_upto (m : nat) (p : Parser.PState -> Parser.Parsed) : Prop :=
  forall st, (remaining st <= m)%nat -> p st <> OutOfFuel.

(* ================================================================= *)
(** ** Shapes of the trees the parser builds *)

(** A tree folded to the left from [base]: [base] itself, or a BinOp whose
    left operand is such a tree. *)
Inductive left_leaning (base : ASTNode) : ASTNode -> Prop :=
| ll_base : left_leaning base base
| ll_fold op l r :
    left_leaning base l ->
    left_leaning base (Node AST_BINOP op (Some l) (Some r) None).

(** A statement sequence as a list of Program nodes linked through their
    second slot: each holds a statement in its first slot. *)
Inductive program_list : ASTNode -> Prop :=
| program_nil tok : program_list (Node AST_PROGRAM tok None None None)
| program_last tok s :
    node_type s <> AST_PROGRAM ->
    program_list (Node AST_PROGRAM tok (Some s) None None)
| program_cons tok s rest :
    node_type s <> AST_PROGRAM ->
    program_list rest ->
    program_list (Node AST_PROGRAM tok (Some s) (Some rest) None).

(* ================================================================= *)
(** ** Fuel *)

(** [q] agrees with [p] wherever [p] did not run out of fuel. *)
Definition refines {A : Type} (p q : Parser.PState -> Outcome A) : Prop :=
  forall st, p st <> OutOfFuel -> q st = p st.

(* ================================================================= *)
(** ** Trees of the examples *)

(** A literal, an identifier and a binary operation,
    with the tokens the lexer makes on line 1. *)
Definition tok1 (ty : TokenType) (lex : string) : Token :=
  mkToken ty lex 1 ERROR_NONE.
Definition Num (lex : string) : ASTNode :=
  Node AST_NUMBER (tok1 TOKEN_NUMBER lex) None None None.
Definition Ident (lex : string) : ASTNode :=
  Node AST_IDENTIFIER (tok1 TOKEN_IDENTIFIER lex) None None None.
Definition BinOp (op : string) (l r : ASTNode) : ASTNode :=
  Node AST_BINOP (tok1 TOKEN_OPERATOR op) (Some l) (Some r) None.

(** The tree of the statement "x = y;" on line 1. *)
Definition assign_x_y : ASTNode :=
  Node AST_ASSIGN (tok1 TOKEN_IDENTIFIER "x")
       (Some (Ident "x")) (Some (Ident "y")) None.

(* ================================================================= *)
(** ** Statements of the specification, for comparison with the code *)

(** The reading of "calling it twice from the same saved cursor yields the
    identical token": the second call starts from the same [(input, pos)],
    with the line counter as the first call left it. *)
Definition reproduces_token (sz : nat) (input : string) (pos : nat)
    (current_line : Z) : Prop :=
  let '(t1, _, line1) := Lexer.get_next_token sz input pos current_line in
  let '(t2, _, _) := Lexer.get_next_token sz input pos line1 in
  t1 = t2.

(** The reading of "no remaining check is skipped after a failure" at an
    assignment: whatever the check of the right-hand side prints is printed
    by the check of the assignment. *)
Definition assignment_checks_rhs (node : ASTNode) (st : Semantic.AState)
  : Prop :=
  match node with
  | Node AST_ASSIGN _ (Some _) (Some rhs) _ =>
      forall d,
        In d (Semantic.out (snd (Semantic.check_expression rhs st))) ->
        In d (Semantic.out (snd (Semantic.check_assignment node st)))
  | _ => True
  end.

(* ================================================================= *)
(** ** The scope discipline of the symbol table *)

Module Scopes.
Import Semantic.

(** No symbol of the table is deeper than the current scope. *)
Definition well_scoped (t : SymbolTable) : Prop :=
  Forall (fun s => scope_level s <= current_scope t) (head t).

(** The list from its head never gets deeper: each symbol is at most as
    deep as [bound], and the ones behind it at most as deep as it is. *)
Fixpoint ordered (bound : Z) (l : list Symbol) : Prop :=
  match l with
  | [] => True
  | s :: rest => scope_level s <= bound /\ ordered (scope_level s) rest
  end.

Definition scope_ordered (t : SymbolTable) : Prop :=
  ordered (current_scope t) (head t).

(** [new] is [old] with, at most, more symbols marked initialized. *)
Definition flags_grow (old new : list Symbol) : Prop :=
  Forall2 (fun a b =>
             Shape.forget_flag a = Shape.forget_flag b
             /\ (is_initialized a = true -> is_initialized b = true))
          old new.

(** What a check may do to a table that is well scoped: put symbols of the
    current level on top of it, mark symbols initialized, and nothing
    else; the scope counter is left as it was. *)
Definition pushes_at_level (f : Checker) : Prop :=
  forall st,
    well_scoped (table st) ->
    exists fresh kept,
      head (table (snd (f st))) = (fresh ++ kept)%list
      /\ Forall (fun s => scope_level s = current_scope (table st)) fresh
      /\ flags_grow (head (table st)) kept
      /\ current_scope (table (snd (f st))) = current_scope (table st).

(** A pointer into the tail of a list, seen from one symbol further up. *)
Definition shift (r : option (nat * Symbol)) : option (nat * Symbol) :=
  match r with
  | Some (i, s) => Some (S i, s)
  | None => None
  end.

End Scopes.

(* ================================================================= *)
(** ** Trees whose assignments have both sides *)

(** Every Assign node of the tree has its two children.  [check_assignment]
    returns 0 without a word on an Assign node that lacks one. *)
Fixpoint assigns_complete (n : ASTNode) : Prop :=
  match n with
  | Node ty _ l r e =>
      (ty = AST_ASSIGN -> l <> None /\ r <> None)
      /\ match l with Some x => assigns_complete x | None => True end
      /\ match r with Some x => assigns_complete x | None => True end
      /\ match e with Some x => assigns_complete x | None => True end
  end.

Definition builds_complete (p : Parser.PState -> Parser.Parsed) : Prop :=
  forall st node st', p st = Ok (node, st') -> assigns_complete node.

(** A diagnostic that is an error: the two kinds that [semantic.c] prints
    on a path that returns 0. *)
Definition is_error (d : Semantic.Diagnostic) : Prop :=
  Semantic.diag_error d = Semantic.SEM_ERROR_UNDECLARED_VARIABLE
  \/ Semantic.diag_error d = Semantic.SEM_ERROR_REDECLARED_VARIABLE.

(** The check only adds to what was printed, and when its verdict is
    "invalid" it added an error. *)
Definition verdict_explained (f : Semantic.Checker) : Prop :=
  forall st,
    exists ds,
      Semantic.out (snd (f st)) = (Semantic.out st ++ ds)%list
      /\ (fst (f st) = false -> Exists is_error ds).

(* ================================================================= *)
(** ** Expression trees *)

(** The trees of expressions: Number and Identifier leaves carrying a
    token of their kind, BinOp nodes carrying an operator token over two
    expression trees, and calls of [factorial] over one. *)
Inductive expr_tree : ASTNode -> Prop :=
| et_number tok :
    tok_type tok = TOKEN_NUMBER ->
    expr_tree (Node AST_NUMBER tok None None None)
| et_identifier tok :
    tok_type tok = TOKEN_IDENTIFIER ->
    expr_tree (Node AST_IDENTIFIER tok None None None)
| et_binop tok l r :
    tok_type tok = TOKEN_OPERATOR ->
    expr_tree l -> expr_tree r ->
    expr_tree (Node AST_BINOP tok (Some l) (Some r) None)
| et_funcall tok arg :
    tok_type tok = TOKEN_IDENTIFIER ->
    lexeme tok = "factorial" ->
    expr_tree arg ->
    expr_tree (Node AST_FUNCALL tok (Some arg) None None).

Definition builds_expr (p : Parser.PState -> Parser.Parsed) : Prop :=
  forall st node st', p st = Ok (node, st') -> expr_tree node.

(** The state in which a parsing function returns has the end-of-file
    token as its current token. *)
Definition at_eof (st : Parser.PState) : Prop :=
  tok_type (Parser.current_token st) = TOKEN_EOF.

(* ================================================================= *)
(** ** Lexemes *)

(** Every character of the string passes the test. *)
Fixpoint all_chars (p : ascii -> bool) (s : string) : Prop :=
  match s with
  | EmptyString => True
  | String c rest => p c = true /\ all_chars p rest
  end.

(** The lexemes [get_next_token] gives the kind [TOKEN_OPERATOR]. *)
Definition operator_lexemes : list string :=
  ["+"; "-"; "*"; "/"; ">"; ">="; "<"; "<="; "=="].

(** What the lexeme of a token of each kind looks like. *)
Definition lexeme_fits_kind (tok : Token) : Prop :=
  match tok_type tok with
  | TOKEN_EOF => lexeme tok = "EOF"
  | TOKEN_NUMBER =>
      lexeme tok <> EmptyString /\ all_chars Lexer.isdigit (lexeme tok)
  | TOKEN_IDENTIFIER =>
      Lexer.is_ident_start (Parser.lexeme0 tok) = true
      /\ all_chars Lexer.is_ident_char (lexeme tok)
      /\ Lexer.is_keyword (lexeme tok) = None
  | TOKEN_OPERATOR => In (lexeme tok) operator_lexemes
  | TOKEN_EQUALS => lexeme tok = "="
  | TOKEN_SEMICOLON => lexeme tok = ";"
  | TOKEN_LPAREN => lexeme tok = "("
  | TOKEN_RPAREN => lexeme tok = ")"
  | TOKEN_LBRACE => lexeme tok = "{"
  | TOKEN_RBRACE => lexeme tok = "}"
  | TOKEN_IF => lexeme tok = "if"
  | TOKEN_INT => lexeme tok = "int"
  | TOKEN_PRINT => lexeme tok = "print"
  | TOKEN_WHILE => lexeme tok = "while"
  | TOKEN_REPEAT => lexeme tok = "repeat"
  | TOKEN_UNTIL => lexeme tok = "until"
  | TOKEN_ERROR => String.length (lexeme tok) = 1%nat
  end.

(** The number of newline characters among the [n] characters of [input]
    that start at [pos]. *)
Fixpoint newlines (input : string) (pos n : nat) : Z :=
  match n with
  | O => 0
  | S n' =>
      (if Ascii.eqb (Lexer.char_at input pos) Lexer.LF then 1 else 0)
      + newlines input (S pos) n'
  end.

(** Where the lexeme of a token returned with the cursor at [pos'] starts. *)
Definition token_start (tok : Token) (pos' : nat) : nat :=
  pos' - String.length (lexeme tok).

(** The character class of the scanning loop that produces a token of
    kind [ty]: digits for numbers, identifier characters for identifiers
    and keywords; the other kinds are not produced by a loop. *)
Definition scan_class (ty : TokenType) : option (ascii -> bool) :=
  match ty with
  | TOKEN_NUMBER => Some Lexer.isdigit
  | TOKEN_IDENTIFIER | TOKEN_IF | TOKEN_INT | TOKEN_PRINT | TOKEN_WHILE
  | TOKEN_REPEAT | TOKEN_UNTIL => Some Lexer.is_ident_char
  | _ => None
  end.

(* ================================================================= *)
(** ** What every parsing function keeps *)

(** A parsing function that keeps a property of the parser's state. *)
Definition keeps {A : Type} (Q : Parser.PState -> Prop)
    (p : Parser.PState -> Outcome (A * Parser.PState)) : Prop :=
  forall st a st', Q st -> p st = Ok (a, st') -> Q st'.

(** The current token is one that the lexer returned for the source, and
    the cursor is where that call left it. *)
Definition lexed (sz : nat) (st : Parser.PState) : Prop :=
  exists pos ln ln',
    Lexer.get_next_token sz (Parser.source st) pos ln
    = (Parser.current_token st, Parser.position st, ln').

(** The parser is reading [input]. *)
Definition reading (sz : nat) (input : string) (st : Parser.PState) : Prop :=
  Parser.source st = input /\ lexed sz st.

(** The kind of statement node that [parse_statement] makes for a first
    token of kind [ty]; [None] where it has no case. *)
Definition statement_kind (ty : TokenType) : option ASTNodeType :=
  match ty with
  | TOKEN_INT => Some AST_VARDECL
  | TOKEN_IDENTIFIER => Some AST_ASSIGN
  | TOKEN_IF => Some AST_IF
  | TOKEN_WHILE => Some AST_WHILE
  | TOKEN_REPEAT => Some AST_REPEAT
  | TOKEN_PRINT => Some AST_PRINT
  | TOKEN_LBRACE => Some AST_BLOCK
  | _ => None
  end.

(** The operator tokens that one of the four loops of the expression
    parser takes: the tests of [parse_factor], [parse_term],
    [parse_comparison] and [parse_equality]. *)
Definition accepted_operator (t : Token) : bool :=
  Parser.is_factor_op t || Parser.is_term_op t
  || Parser.is_comparison_op t || Parser.is_equality_op t.

(** A parsing function that returns in front of a token for which [stop]
    holds. *)
Definition stops_at (stop : Parser.PState -> Prop)
    (p : Parser.PState -> Parser.Parsed) : Prop :=
  forall st node st', p st = Ok (node, st') -> stop st'.

(** The current token is not an operator that passes the test [is_op]. *)
Definition not_taken (is_op : Token -> bool) (st : Parser.PState) : Prop :=
  Parser.match_ TOKEN_OPERATOR st && is_op (Parser.current_token st) = false.

(* ================================================================= *)
(** ** The tokens kept in a tree *)

(** Every node of the tree carries a token for which [Q] holds. *)
Fixpoint tokens_all (Q : Token -> Prop) (n : ASTNode) : Prop :=
  match n with
  | Node _ tok l r e =>
      Q tok
      /\ match l with Some x => tokens_all Q x | None => True end
      /\ match r with Some x => tokens_all Q x | None => True end
      /\ match e with Some x => tokens_all Q x | None => True end
  end.

(** [tok] is a token that the lexer returns for [input], from some cursor
    and with some value of the line counter. *)
Definition lexed_token (sz : nat) (input : string) (tok : Token) : Prop :=
  exists pos ln pos' ln',
    Lexer.get_next_token sz input pos ln = (tok, pos', ln').

(** A parsing function that, reading [input], puts only tokens of [input]
    in its tree. *)
Definition builds_lexed (sz : nat) (input : string)
    (p : Parser.PState -> Parser.Parsed) : Prop :=
  forall st node st',
    reading sz input st -> p st = Ok (node, st') ->
    tokens_all (lexed_token sz input) node.

(* ================================================================= *)
(** ** Statements of the specification about expressions *)

(** The reading of "for the input ..., parse returns the tree ...": some
    run of [parser_init] and [parse] on [input], in a fresh process,
    returns a tree. *)
Definition parse_returns (input : string) : Prop :=
  exists sz fuel tree, Parser.parse_string sz fuel input = Ok tree.

(** "Fold into a left-leaning BinOp": the tree made from a first operand
    and the operators and operands that follow it, in their order; each
    operator makes a BinOp over the tree built so far and its operand. *)
Fixpoint fold_left_binops (node : ASTNode) (steps : list (Token * ASTNode))
  : ASTNode :=
  match steps with
  | [] => node
  | (op, rhs) :: rest =>
      fold_left_binops (Node AST_BINOP op (Some node) (Some rhs) None) rest
  end.

(** "While the current token is an operator of this level's set, consume
    it, parse another lower-level operand": the operators taken from the
    state [st] on and the operands parsed after each, up to the state in
    front of the first token that is no operator of the set. *)
Inductive operands_of (sz : nat) (is_op : Token -> bool)
    (operand : Parser.PState -> Parser.Parsed)
  : Parser.PState -> list (Token * ASTNode) -> Parser.PState -> Prop :=
| operands_done st :
    Parser.match_ TOKEN_OPERATOR st && is_op (Parser.current_token st)
    = false ->
    operands_of sz is_op operand st [] st
| operands_more st rhs st1 steps st' :
    Parser.match_ TOKEN_OPERATOR st && is_op (Parser.current_token st)
    = true ->
    operand (Parser.advance sz st) = Ok (rhs, st1) ->
    operands_of sz is_op operand st1 steps st' ->
    operands_of sz is_op operand st
                ((Parser.current_token st, rhs) :: steps) st'.

(** A precedence level as the specification describes it: when [level]
    returns, it has parsed one operand with [operand], then the operators
    of its set with an operand each, and its tree is their left fold. *)
Definition folds_left (sz : nat) (is_op : Token -> bool)
    (operand level : Parser.PState -> Parser.Parsed) : Prop :=
  forall st node st',
    level st = Ok (node, st') ->
    exists first st1 steps,
      operand st = Ok (first, st1)
      /\ operands_of sz is_op operand st1 steps st'
      /\ node = fold_left_binops first steps.

(** The operator test that the parser makes at binding level [k]: those of
    [parse_equality] (0), [parse_comparison] (1), [parse_term] (2) and
    [parse_factor] (3); level 4 is that of the primaries. *)
Definition level_test (k : nat) : Token -> bool :=
  match k with
  | 0%nat => Parser.is_equality_op
  | 1%nat => Parser.is_comparison_op
  | 2%nat => Parser.is_term_op
  | 3%nat => Parser.is_factor_op
  | _ => fun _ => false
  end.

(** The operators of binding level [k] as the specification lists them,
    from the loosest level to the tightest. *)
Definition level_operators (k : nat) : list string :=
  match k with
  | 0%nat => ["=="; "!="]
  | 1%nat => ["<"; ">"]
  | 2%nat => ["+"; "-"]
  | 3%nat => ["*"; "/"]
  | _ => []
  end.

(** A tree in which operators bind in the order of the levels, without
    parentheses: at level [k] it is a Number or Identifier leaf (level 4), a
    tree of a tighter level, or a BinOp over an operator of level [k] whose
    left operand is of level [k] again and whose right operand is of a
    tighter level. *)
Inductive graded : nat -> ASTNode -> Prop :=
| graded_number tok :
    tok_type tok = TOKEN_NUMBER ->
    graded 4 (Node AST_NUMBER tok None None None)
| graded_identifier tok :
    tok_type tok = TOKEN_IDENTIFIER ->
    graded 4 (Node AST_IDENTIFIER tok None None None)
| graded_tighter k t :
    (k < 4)%nat -> graded (S k) t -> graded k t
| graded_binop k op l r :
    (k < 4)%nat ->
    tok_type op = TOKEN_OPERATOR ->
    In (lexeme op) (level_operators k) ->
    graded k l -> graded (S k) r ->
    graded k (Node AST_BINOP op (Some l) (Some r) None).

(** The tokens of a tree read from left to right: those of the first
    child, the node's own, those of the second child. *)
Fixpoint yield (n : ASTNode) : list Token :=
  match n with
  | Node _ tok l r _ =>
      (match l with Some x => yield x | None => [] end)
      ++ tok :: (match r with Some x => yield x | None => [] end)
  end.

(** A token without its line: kind and lexeme. *)
Definition word (tok : Token) : TokenType * string :=
  (tok_type tok, lexeme tok).

(** Two parser states at the same place of the same source: they differ
    at most in line numbers. *)
Definition same_place (a b : Parser.PState) : Prop :=
  Parser.source a = Parser.source b
  /\ Parser.position a = Parser.position b
  /\ word (Parser.current_token a) = word (Parser.current_token b).

(** From the state [st], taking the current token and advancing, once for
    each word of the list, leads to the place of [st']. *)
Inductive consumed (sz : nat)
  : Parser.PState -> list (TokenType * string) -> Parser.PState -> Prop :=
| consumed_nil st st' : same_place st st' -> consumed sz st [] st'
| consumed_cons st ws st' :
    consumed sz (Parser.advance sz st) ws st' ->
    consumed sz st (word (Parser.current_token st) :: ws) st'.

(** The parser is reading [input], and its current token was lexed from a
    cursor at or after [lo]. *)
Definition reading_from (sz : nat) (input : string) (lo : nat)
    (st : Parser.PState) : Prop :=
  Parser.source st = input
  /\ exists pos ln ln',
      (lo <= pos)%nat
      /\ Lexer.get_next_token sz input pos ln
         = (Parser.current_token st, Parser.position st, ln').

(** No opening parenthesis in [input] from the position [lo] on. *)
Definition no_parenthesis_from (input : string) (lo : nat) : Prop :=
  forall i, (lo <= i)%nat -> Lexer.char_at input i <> "("%char.

(** A parsing function that, reading an input from [lo] on, returns a tree
    of level [k] whose tokens, from left to right, are the tokens it
    consumed. *)
Definition in_order (sz : nat) (input : string) (lo k : nat)
    (p : Parser.PState -> Parser.Parsed) : Prop :=
  forall st node st',
    reading_from sz input lo st ->
    p st = Ok (node, st') ->
    graded k node
    /\ consumed sz st (map word (yield node)) st'
    /\ reading_from sz input lo st'.

(** The converse for a level with loop bound [n]: an operand followed by
    at most [n] operators of the set, each with its operand, makes [level]
    return their left fold. *)
Definition returns_fold (sz : nat) (is_op : Token -> bool)
    (operand level : Parser.PState -> Parser.Parsed) (n : nat) : Prop :=
  forall st first st1 steps st',
    operand st = Ok (first, st1) ->
    operands_of sz is_op operand st1 steps st' ->
    (length steps <= n)%nat ->
    level st = Ok (fold_left_binops first steps, st').

(* ================================================================= *)
(** * Examples of lexing *)

Example lex_number :
  Lexer.get_next_token 100 "  42+x" 0 1
  = (mkToken TOKEN_NUMBER "42" 1 ERROR_NONE, 4%nat, 1).
Proof. reflexivity. Qed.

Example lex_comment_newline :
  Lexer.get_next_token 100 ("/* a" ++ String Lexer.LF "b */ while (") 0 1
  = (mkToken TOKEN_WHILE "while" 1 ERROR_NONE, 15%nat, 2).
Proof. reflexivity. Qed.

(* ================================================================= *)
(** * Properties of the lexer *)

Module LexerFacts.
Import Lexer.

Lemma char_at_in_bounds input pos :
  char_at input pos <> NUL -> (pos < String.length input)%nat.
Proof.
  unfold char_at. revert pos.
  induction input as [|a input IH]; intros pos H; simpl in *.
  - destruct pos; congruence.
  - destruct pos as [|pos]; [lia|]. apply IH in H. lia.
Qed.

Lemma is_nul_false c : is_nul c = false -> c <> NUL.
Proof. unfold is_nul. intros H ->. rewrite Ascii.eqb_refl in H. discriminate. Qed.

Lemma is_nul_true c : is_nul c = true -> c = NUL.
Proof. unfold is_nul. apply Ascii.eqb_eq. Qed.

(** The cursor never moves back while blanks are skipped. *)
Lemma skip_whitespace_mono n input pos ln :
  (pos <= fst (skip_whitespace n input pos ln))%nat.
Proof.
  revert pos ln. induction n as [|n IH]; intros pos ln; simpl; [lia|].
  destruct (_ && _); simpl; [|lia].
  specialize (IH (S pos) (bump_line (char_at input pos) ln)). lia.
Qed.

Lemma skip_comment_body_mono n input pos ln :
  (pos <= fst (skip_comment_body n input pos ln))%nat.
Proof.
  revert pos ln. induction n as [|n IH]; intros pos ln; simpl; [lia|].
  destruct (_ && _); simpl; [|lia].
  specialize (IH (S pos) (bump_line (char_at input pos) ln)). lia.
Qed.

Lemma skip_blanks_mono n input pos ln :
  (pos <= fst (skip_blanks n input pos ln))%nat.
Proof.
  revert pos ln. induction n as [|n IH]; intros pos ln; simpl.
  - pose proof (skip_whitespace_mono (String.length input - pos) input pos ln) as Hw.
    destruct (skip_whitespace _ input pos ln) as [pos1 line1]; simpl in *.
    destruct (_ && _); simpl; lia.
  - pose proof (skip_whitespace_mono (String.length input - pos) input pos ln) as Hw.
    destruct (skip_whitespace _ input pos ln) as [pos1 line1]; simpl in *.
    destruct (_ && _); simpl; [|lia].
    pose proof (skip_comment_body_mono (String.length input - (pos1 + 2))
                  input (pos1 + 2) line1) as Hc.
    destruct (skip_comment_body _ input (pos1 + 2) line1) as [pos3 line3];
      simpl in *.
    match goal with |- (_ <= fst (skip_blanks n input ?p ?l))%nat =>
      specialize (IH p l); assert (pos3 <= p)%nat by (destruct (negb _); lia)
    end.
    lia.
Qed.

Lemma scan_lexeme_advances p sz n input pos lex :
  (pos < snd (scan_lexeme p sz n input pos lex))%nat.
Proof.
  revert pos lex. induction n as [|n IH]; intros pos lex; simpl.
  - destruct (_ && _); simpl; lia.
  - destruct (_ && _); simpl; [|lia].
    match goal with |- (_ < snd (scan_lexeme p sz n input ?q ?l))%nat =>
      specialize (IH q l) end. lia.
Qed.

Lemma operator_token_advances c input pos ln :
  (pos <= snd (operator_token c input pos ln))%nat.
Proof.
  unfold operator_token.
  repeat match goal with
         | |- context [if ?b then _ else _] => destruct b
         end; simpl; lia.
Qed.

Lemma operator_token_not_eof c input pos ln :
  tok_type (fst (operator_token c input pos ln)) <> TOKEN_EOF.
Proof.
  unfold operator_token.
  repeat match goal with
         | |- context [if ?b then _ else _] => destruct b
         end; simpl; discriminate.
Qed.

(** What one call of [get_next_token] does to the cursor: it never moves
    back; and for a token other than end-of-file it moves forward, from a
    position inside the input. *)
Lemma get_next_token_cursor sz input pos ln tok pos' ln' :
  get_next_token sz input pos ln = (tok, pos', ln') ->
  (pos <= pos')%nat /\
  (tok_type tok <> TOKEN_EOF ->
   (pos < pos')%nat /\ (pos < String.length input)%nat).
Proof.
  unfold get_next_token.
  pose proof (skip_blanks_mono (String.length input - pos) input pos ln) as Hb.
  destruct (skip_blanks _ input pos ln) as [pos1 line1]; simpl in Hb.
  destruct (is_nul (char_at input pos1)) eqn:Hnul.
  - intros H; inversion H; subst; simpl. split; [lia|]. intros []; reflexivity.
  - apply is_nul_false, char_at_in_bounds in Hnul.
    destruct (isdigit _).
    + pose proof (scan_lexeme_advances isdigit sz (String.length input - pos1)
                    input pos1 EmptyString) as Hs.
      destruct (scan_lexeme isdigit _ _ _ _ _) as [lex pos2]; simpl in Hs.
      intros H; inversion H; subst. split; [lia|]. intros _. lia.
    + destruct (is_ident_start _).
      * pose proof (scan_lexeme_advances is_ident_char sz
                      (String.length input - pos1) input pos1 EmptyString)
          as Hs.
        destruct (scan_lexeme is_ident_char _ _ _ _ _) as [lex pos2];
          simpl in Hs.
        intros H; inversion H; subst. split; [lia|]. intros _. lia.
      * pose proof (operator_token_advances (char_at input pos1) input
                      (S pos1) ln) as Ho.
        destruct (operator_token _ _ _ _) as [tok0 pos2]; simpl in Ho.
        intros H; inversion H; subst. split; [lia|]. intros _. lia.
Qed.

(** The cursor part of the skipping loops does not depend on the line
    counter. *)
Lemma skip_whitespace_pos n input pos l1 l2 :
  fst (skip_whitespace n input pos l1) = fst (skip_whitespace n input pos l2).
Proof.
  revert pos l1 l2. induction n as [|n IH]; intros; simpl; [reflexivity|].
  destruct (_ && _); simpl; [apply IH | reflexivity].
Qed.

Lemma skip_comment_body_pos n input pos l1 l2 :
  fst (skip_comment_body n input pos l1)
  = fst (skip_comment_body n input pos l2).
Proof.
  revert pos l1 l2. induction n as [|n IH]; intros; simpl; [reflexivity|].
  destruct (_ && _); simpl; [apply IH | reflexivity].
Qed.

Lemma skip_blanks_pos n input pos l1 l2 :
  fst (skip_blanks n input pos l1) = fst (skip_blanks n input pos l2).
Proof.
  revert pos l1 l2. induction n as [|n IH]; intros pos l1 l2; simpl;
    pose proof (skip_whitespace_pos (String.length input - pos) input pos l1 l2)
      as Hw;
    destruct (skip_whitespace _ input pos l1) as [p1 k1];
    destruct (skip_whitespace _ input pos l2) as [p2 k2];
    simpl in Hw; subst p2;
    destruct (_ && _); simpl; try reflexivity.
  pose proof (skip_comment_body_pos (String.length input - (p1 + 2)) input
                (p1 + 2) k1 k2) as Hc.
  destruct (skip_comment_body _ input (p1 + 2) k1) as [p3 k3];
    destruct (skip_comment_body _ input (p1 + 2) k2) as [p4 k4];
    simpl in Hc; subst p4.
  apply IH.
Qed.

(** *** The bounds of the loops are never what stops them

    Each loop of the lexer is bounded in the model by the number of
    characters left.  The lemmas below say that a loop entered with that
    bound is left with its C condition false. *)

Lemma char_at_beyond input pos :
  (String.length input <= pos)%nat -> char_at input pos = NUL.
Proof.
  unfold char_at. revert pos.
  induction input as [|a input IH]; intros pos H; simpl in *.
  - destruct pos; reflexivity.
  - destruct pos as [|pos]; [lia|]. apply IH. lia.
Qed.

Lemma skip_whitespace_exit n input pos ln :
  (String.length input - pos <= n)%nat ->
  let c := char_at input (fst (skip_whitespace n input pos ln)) in
  negb (is_nul c)
  && (Ascii.eqb c " "%char || Ascii.eqb c LF || Ascii.eqb c TAB) = false.
Proof.
  revert pos ln. induction n as [|n IH]; intros pos ln Hn; simpl.
  - rewrite char_at_beyond by lia. reflexivity.
  - destruct (negb (is_nul (char_at input pos)) && _) eqn:Hc; simpl.
    + apply IH. lia.
    + exact Hc.
Qed.

Lemma skip_comment_body_exit n input pos ln :
  (String.length input - pos <= n)%nat ->
  let p := fst (skip_comment_body n input pos ln) in
  negb (is_nul (char_at input p))
  && negb (Ascii.eqb (char_at input p) "*"%char
           && Ascii.eqb (char_at input (p + 1)) "/"%char) = false.
Proof.
  revert pos ln. induction n as [|n IH]; intros pos ln Hn; simpl.
  - rewrite char_at_beyond by lia. reflexivity.
  - destruct (negb (is_nul (char_at input pos)) && _) eqn:Hc; simpl.
    + apply IH. lia.
    + exact Hc.
Qed.

Lemma slash_in_bounds input pos :
  Ascii.eqb (char_at input pos) "/"%char = true ->
  (pos < String.length input)%nat.
Proof.
  intros H. apply char_at_in_bounds. apply Ascii.eqb_eq in H.
  rewrite H. discriminate.
Qed.

Lemma star_in_bounds input pos :
  Ascii.eqb (char_at input pos) "*"%char = true ->
  (pos < String.length input)%nat.
Proof.
  intros H. apply char_at_in_bounds. apply Ascii.eqb_eq in H.
  rewrite H. discriminate.
Qed.

(** The outer loop is left through its [break]: no comment starts at the
    cursor it returns. *)
Lemma skip_blanks_exit n input pos ln :
  (String.length input - pos <= n)%nat ->
  let p := fst (skip_blanks n input pos ln) in
  Ascii.eqb (char_at input p) "/"%char
  && Ascii.eqb (char_at input (p + 1)) "*"%char = false.
Proof.
  revert pos ln. induction n as [|n IH]; intros pos ln Hn; simpl;
    pose proof (skip_whitespace_mono (String.length input - pos) input pos ln)
      as Hw;
    destruct (skip_whitespace _ input pos ln) as [pos1 line1]; simpl in Hw;
    destruct (Ascii.eqb (char_at input pos1) "/"%char
              && Ascii.eqb (char_at input (pos1 + 1)) "*"%char) eqn:Hc;
    simpl; try exact Hc.
  - apply andb_prop in Hc. destruct Hc as [Hc _].
    apply slash_in_bounds in Hc. lia.
  - pose proof (skip_comment_body_mono (String.length input - (pos1 + 2))
                  input (pos1 + 2) line1) as Hb.
    destruct (skip_comment_body _ input (pos1 + 2) line1) as [pos3 line3];
      simpl in Hb.
    apply IH. destruct (negb _); lia.
Qed.

Lemma scan_lexeme_exit p sz n input pos lex :
  p NUL = false ->
  (String.length input - S pos <= n)%nat ->
  let r := scan_lexeme p sz n input pos lex in
  p (char_at input (snd r)) && (String.length (fst r) <? sz - 1)%nat = false.
Proof.
  intros Hp. revert pos lex. induction n as [|n IH]; intros pos lex Hn; simpl.
  - destruct (p (char_at input (S pos)) && _) eqn:Hc; simpl; [|exact Hc].
    rewrite char_at_beyond in Hc by lia. rewrite Hp in Hc. discriminate.
  - destruct (p (char_at input (S pos)) && _) eqn:Hc; simpl; [|exact Hc].
    apply IH. lia.
Qed.

End LexerFacts.

(* ================================================================= *)
(** * The lexer as seen from a saved cursor *)

Lemma operator_token_line c input pos l1 l2 :
  let r1 := Lexer.operator_token c input pos l1 in
  let r2 := Lexer.operator_token c input pos l2 in
  tok_type (fst r1) = tok_type (fst r2) /\ lexeme (fst r1) = lexeme (fst r2)
  /\ error (fst r1) = error (fst r2) /\ snd r1 = snd r2
  /\ line (fst r1) = l1 /\ line (fst r2) = l2.
Proof.
  unfold Lexer.operator_token.
  repeat match goal with
         | |- context [if ?b then _ else _] => destruct b
         end; simpl; repeat split; reflexivity.
Qed.

(** C4, as the code has it: the kind, the lexeme, the error field and the
    cursor after the call are functions of [(input, pos)] alone, whatever the
    line counter; the token's line is the value the line counter had when the
    call was made.  So two calls from the same saved cursor return the same
    token exactly when the line counter is the same at both. *)
Theorem get_next_token_pure_up_to_line :
  forall (sz : nat) (input : string) (pos : nat) (l1 l2 : Z)
         (t1 t2 : Token) (p1 p2 : nat) (k1 k2 : Z),
    Lexer.get_next_token sz input pos l1 = (t1, p1, k1) ->
    Lexer.get_next_token sz input pos l2 = (t2, p2, k2) ->
    tok_type t1 = tok_type t2 /\ lexeme t1 = lexeme t2
    /\ error t1 = error t2 /\ p1 = p2
    /\ line t1 = l1 /\ line t2 = l2
    /\ (t1 = t2 <-> l1 = l2).
Proof.
  intros sz input pos l1 l2 t1 t2 p1 p2 k1 k2 E1 E2.
  assert (tok_type t1 = tok_type t2 /\ lexeme t1 = lexeme t2
          /\ error t1 = error t2 /\ p1 = p2
          /\ line t1 = l1 /\ line t2 = l2) as H.
  { revert E1 E2. unfold Lexer.get_next_token.
    pose proof (LexerFacts.skip_blanks_pos (String.length input - pos) input
                  pos l1 l2) as Hb.
    destruct (Lexer.skip_blanks _ input pos l1) as [q1 m1].
    destruct (Lexer.skip_blanks _ input pos l2) as [q2 m2].
    simpl in Hb. subst q2.
    destruct (Lexer.is_nul _).
    { intros E1 E2; inversion E1; inversion E2; subst; simpl.
      repeat split; reflexivity. }
    destruct (Lexer.isdigit _).
    { destruct (Lexer.scan_lexeme _ _ _ _ _ _).
      intros E1 E2; inversion E1; inversion E2; subst; simpl.
      repeat split; reflexivity. }
    destruct (Lexer.is_ident_start _).
    { destruct (Lexer.scan_lexeme _ _ _ _ _ _).
      intros E1 E2; inversion E1; inversion E2; subst; simpl.
      repeat split; reflexivity. }
    pose proof (operator_token_line (Lexer.char_at input q1) input (S q1)
                  l1 l2) as Ho.
    destruct (Lexer.operator_token _ _ _ l1) as [u1 r1].
    destruct (Lexer.operator_token _ _ _ l2) as [u2 r2].
    intros E1 E2; inversion E1; inversion E2; subst. exact Ho. }
  destruct H as [Hty [Hlex [Herr [Hp [Hl1 Hl2]]]]].
  repeat split; try assumption.
  - intros Heq. rewrite <- Hl1, <- Hl2, Heq. reflexivity.
  - intros Heq. destruct t1, t2; simpl in *. congruence.
Qed.

Lemma get_next_token_pure_up_to_line_witness :
  tok_type (mkToken TOKEN_IDENTIFIER "x" 1 ERROR_NONE)
  = tok_type (mkToken TOKEN_IDENTIFIER "x" 2 ERROR_NONE)
  /\ lexeme (mkToken TOKEN_IDENTIFIER "x" 1 ERROR_NONE)
     = lexeme (mkToken TOKEN_IDENTIFIER "x" 2 ERROR_NONE).
Proof.
  destruct (get_next_token_pure_up_to_line
              100 (String Lexer.LF "x") 0%nat 1 2
              (mkToken TOKEN_IDENTIFIER "x" 1 ERROR_NONE)
              (mkToken TOKEN_IDENTIFIER "x" 2 ERROR_NONE)
              2%nat 2%nat 2 3) as [Hty [Hlex _]].
  - vm_compute. reflexivity.
  - vm_compute. reflexivity.
  - split; assumption.
Defined.

(** C4, as stated, fails: a newline before the token is counted by the
    first call, and the second call from the same cursor stamps the token
    with the next line. *)
Lemma get_next_token_line_differs :
  ~ reproduces_token 100 (String Lexer.LF "x") 0 1.
Proof. vm_compute. discriminate. Qed.

(* ================================================================= *)
(** * The parser consumes input and terminates *)

Module ParserFacts.
Import Parser.

Lemma bind_Ok {A B} (m : Outcome A) (k : A -> Outcome B) b :
  bind m k = Ok b -> exists a, m = Ok a /\ k a = Ok b.
Proof. destruct m; simpl; intros H; try discriminate. eauto. Qed.

Lemma bind_fuel {A B} (m : Outcome A) (k : A -> Outcome B) :
  m <> OutOfFuel -> (forall a, m = Ok a -> k a <> OutOfFuel) ->
  bind m k <> OutOfFuel.
Proof. destruct m; simpl; intros H1 H2; auto. discriminate. Qed.

Lemma match_not_eof ty st :
  match_ ty st = true -> ty <> TOKEN_EOF -> match_ TOKEN_EOF st = false.
Proof.
  unfold match_. destruct (tok_type (current_token st)), ty; simpl;
    congruence.
Qed.

Lemma remaining_zero_eof st :
  remaining st = 0%nat -> match_ TOKEN_EOF st = true.
Proof. unfold remaining. destruct (match_ TOKEN_EOF st); [reflexivity|lia]. Qed.

Section WithLexemeSize.
Variable sz : nat.

Lemma advance_source st : source (advance sz st) = source st.
Proof.
  unfold advance. destruct (Lexer.get_next_token _ _ _ _) as [[tok pos] ln].
  reflexivity.
Qed.

(** Consuming a token that is not the end-of-file token lowers what is
    left: the cursor moves, or the new token is the end of file. *)
Lemma advance_remaining st :
  match_ TOKEN_EOF st = false ->
  (remaining (advance sz st) < remaining st)%nat.
Proof.
  intros Hne. unfold remaining at 2. rewrite Hne.
  unfold advance.
  destruct (Lexer.get_next_token _ _ _ _) as [[tok pos] ln] eqn:E.
  apply LexerFacts.get_next_token_cursor in E. destruct E as [Hle Hlt].
  unfold remaining, match_; simpl.
  destruct (TokenType_eqb (tok_type tok) TOKEN_EOF) eqn:Et.
  - lia.
  - assert (tok_type tok <> TOKEN_EOF) as Hn
        by (intros Heq; rewrite Heq in Et; discriminate).
    apply Hlt in Hn. lia.
Qed.

Lemma advance_after_match ty st :
  match_ ty st = true -> ty <> TOKEN_EOF ->
  (remaining (advance sz st) < remaining st)%nat.
Proof. intros H1 H2. apply advance_remaining. eapply match_not_eof; eauto. Qed.

Lemma expect_remaining ty st st' :
  ty <> TOKEN_EOF -> expect sz ty st = Ok st' ->
  (remaining st' < remaining st)%nat.
Proof.
  unfold expect. intros Hty. destruct (match_ ty st) eqn:Hm; [|discriminate].
  intros H; inversion H; subst. eapply advance_after_match; eauto.
Qed.

Lemma expect_fuel ty st : expect sz ty st <> OutOfFuel.
Proof. unfold expect. destruct (match_ ty st); discriminate. Qed.

Lemma peek_state st :
  remaining (snd (peek sz st)) = remaining st
  /\ current_token (snd (peek sz st)) = current_token st.
Proof.
  unfold peek. destruct (Lexer.get_next_token _ _ _ _) as [[tok pos] ln].
  split; reflexivity.
Qed.

Ltac token_ne := discriminate.

(** Unfolds one [let*] of a hypothesis that says a parser returned. *)
Ltac bind_step H :=
  let a := fresh "a" in
  let E := fresh "E" in
  apply bind_Ok in H; destruct H as [a [E H]];
  try (destruct a as [? ?]).

(** *** Expressions consume input *)

Section ExpressionsConsume.
Variable rec : PState -> Parsed.
Hypothesis rec_consumes : consumes rec.

Lemma parse_factorial_after_identifier st node st' :
  match_ TOKEN_IDENTIFIER st = true ->
  parse_factorial sz rec st = Ok (node, st') ->
  (remaining st' < remaining st)%nat.
Proof.
  intros Hm H. unfold parse_factorial in H.
  bind_step H. bind_step H. bind_step H. inversion H; subst.
  apply expect_remaining in E; [|token_ne].
  apply rec_consumes in E0.
  apply expect_remaining in E1; [|token_ne].
  pose proof (advance_after_match TOKEN_IDENTIFIER st Hm) as Ha.
  assert (TOKEN_IDENTIFIER <> TOKEN_EOF) as Hne by discriminate.
  specialize (Ha Hne). lia.
Qed.

Lemma parse_primary_consumes : consumes (parse_primary sz rec).
Proof.
  intros st node st' H. unfold parse_primary in H.
  destruct (match_ TOKEN_NUMBER st) eqn:Hnum.
  { inversion H; subst. eapply advance_after_match; eauto. token_ne. }
  destruct (match_ TOKEN_IDENTIFIER st) eqn:Hid.
  { pose proof (peek_state st) as [Hrem Htok].
    destruct (peek sz st) as [next_token st1]; simpl in Hrem, Htok.
    assert (match_ TOKEN_IDENTIFIER st1 = true) as Hid1
        by (unfold match_ in *; rewrite Htok; exact Hid).
    destruct (_ && _).
    - apply parse_factorial_after_identifier in H; [lia|exact Hid1].
    - inversion H; subst. rewrite <- Hrem.
      eapply advance_after_match; eauto. token_ne. }
  destruct (match_ TOKEN_LPAREN st) eqn:Hlp; [|discriminate].
  bind_step H. bind_step H. inversion H; subst.
  apply rec_consumes in E.
  apply expect_remaining in E0; [|token_ne].
  pose proof (advance_after_match TOKEN_LPAREN st Hlp) as Ha.
  assert (TOKEN_LPAREN <> TOKEN_EOF) as Hne by discriminate.
  specialize (Ha Hne). lia.
Qed.

Lemma binop_loop_remaining is_op operand :
  consumes operand ->
  forall n node st node' st',
    binop_loop sz is_op operand n node st = Ok (node', st') ->
    (remaining st' <= remaining st)%nat.
Proof.
  intros Hop. induction n as [|n IH]; intros node st node' st' H; simpl in H.
  - destruct (_ && _); [discriminate|]. inversion H; subst. lia.
  - destruct (match_ TOKEN_OPERATOR st && is_op (current_token st)) eqn:Hc.
    + apply andb_prop in Hc. destruct Hc as [Hm _].
      bind_step H. apply Hop in E. apply IH in H.
      pose proof (advance_after_match TOKEN_OPERATOR st Hm) as Ha.
      assert (TOKEN_OPERATOR <> TOKEN_EOF) as Hne by discriminate.
      specialize (Ha Hne). lia.
    + inversion H; subst. lia.
Qed.

(** One precedence level: an operand, then the level's loop. *)
Lemma level_consumes is_op operand n :
  consumes operand ->
  consumes (fun st => let* (node, st1) := operand st in
                      binop_loop sz is_op operand n node st1).
Proof.
  intros Hop st node st' H. bind_step H.
  apply Hop in E. eapply binop_loop_remaining in H; eauto. lia.
Qed.

Lemma parse_factor_consumes n : consumes (parse_factor sz rec n).
Proof. apply level_consumes, parse_primary_consumes. Qed.

Lemma parse_term_consumes n : consumes (parse_term sz rec n).
Proof. apply level_consumes, parse_factor_consumes. Qed.

Lemma parse_comparison_consumes n : consumes (parse_comparison sz rec n).
Proof. apply level_consumes, parse_term_consumes. Qed.

Lemma parse_equality_consumes n : consumes (parse_equality sz rec n).
Proof. apply level_consumes, parse_comparison_consumes. Qed.

End ExpressionsConsume.

Lemma parse_expression_consumes fuel : consumes (parse_expression sz fuel).
Proof.
  induction fuel as [|f IH]; intros st node st' H; simpl in H.
  - discriminate.
  - eapply parse_equality_consumes; eauto.
Qed.

(** *** Expressions terminate *)

Section ExpressionsTerminate.
Variable rec : PState -> Parsed.
Variable n : nat.
Hypothesis rec_consumes : consumes rec.
Hypothesis rec_total : forall st, (remaining st < n)%nat -> rec st <> OutOfFuel.

Lemma parse_factorial_total st :
  match_ TOKEN_IDENTIFIER st = true -> (remaining st <= n)%nat ->
  parse_factorial sz rec st <> OutOfFuel.
Proof.
  intros Hm Hle. unfold parse_factorial.
  pose proof (advance_after_match TOKEN_IDENTIFIER st Hm) as Ha.
  assert (TOKEN_IDENTIFIER <> TOKEN_EOF) as Hne by discriminate.
  specialize (Ha Hne).
  apply bind_fuel; [apply expect_fuel|]. intros st2 E2.
  apply expect_remaining in E2; [|token_ne].
  apply bind_fuel; [apply rec_total; lia|]. intros [arg st3] E3.
  apply bind_fuel; [apply expect_fuel|]. intros st4 _. discriminate.
Qed.

Lemma parse_primary_total : total_upto n (parse_primary sz rec).
Proof.
  intros st Hle. unfold parse_primary.
  destruct (match_ TOKEN_NUMBER st); [discriminate|].
  destruct (match_ TOKEN_IDENTIFIER st) eqn:Hid.
  { pose proof (peek_state st) as [Hrem Htok].
    destruct (peek sz st) as [next_token st1]; simpl in Hrem, Htok.
    destruct (_ && _); [|discriminate].
    apply parse_factorial_total; [|lia].
    unfold match_ in *; rewrite Htok; exact Hid. }
  destruct (match_ TOKEN_LPAREN st) eqn:Hlp; [|discriminate].
  pose proof (advance_after_match TOKEN_LPAREN st Hlp) as Ha.
  assert (TOKEN_LPAREN <> TOKEN_EOF) as Hne by discriminate.
  specialize (Ha Hne).
  apply bind_fuel; [apply rec_total; lia|]. intros [node st2] _.
  apply bind_fuel; [apply expect_fuel|]. intros st3 _. discriminate.
Qed.

Lemma binop_loop_total is_op operand :
  consumes operand -> total_upto n operand ->
  forall k node st,
    (remaining st <= k)%nat -> (k <= n)%nat ->
    binop_loop sz is_op operand k node st <> OutOfFuel.
Proof.
  intros Hop Htot. induction k as [|k IH]; intros node st Hk Hn; simpl.
  - assert (match_ TOKEN_EOF st = true) as He
        by (apply remaining_zero_eof; lia).
    destruct (match_ TOKEN_OPERATOR st) eqn:Hm.
    + apply match_not_eof in Hm; [congruence|discriminate].
    + simpl. discriminate.
  - destruct (match_ TOKEN_OPERATOR st && is_op (current_token st)) eqn:Hc;
      [|discriminate].
    apply andb_prop in Hc. destruct Hc as [Hm _].
    pose proof (advance_after_match TOKEN_OPERATOR st Hm) as Ha.
    assert (TOKEN_OPERATOR <> TOKEN_EOF) as Hne by discriminate.
    specialize (Ha Hne).
    apply bind_fuel; [apply Htot; lia|]. intros [rhs st2] E.
    apply Hop in E. apply IH; lia.
Qed.

Lemma level_total is_op operand :
  consumes operand -> total_upto n operand ->
  total_upto n (fun st => let* (node, st1) := operand st in
                          binop_loop sz is_op operand n node st1).
Proof.
  intros Hop Htot st Hle.
  apply bind_fuel; [apply Htot; exact Hle|]. intros [node st1] E.
  apply Hop in E. apply binop_loop_total; auto; lia.
Qed.

Lemma parse_equality_total : total_upto n (parse_equality sz rec n).
Proof.
  apply level_total; [apply parse_comparison_consumes; assumption|].
  apply level_total; [apply parse_term_consumes; assumption|].
  apply level_total; [apply parse_factor_consumes; assumption|].
  apply level_total; [apply parse_primary_consumes; assumption|].
  apply parse_primary_total.
Qed.

End ExpressionsTerminate.

(** With more fuel than there is input left, [parse_expression] returns or
    exits. *)
Lemma parse_expression_total fuel st :
  (remaining st < fuel)%nat -> parse_expression sz fuel st <> OutOfFuel.
Proof.
  revert st. induction fuel as [|f IH]; intros st Hlt; [lia|]. simpl.
  apply parse_equality_total; [apply parse_expression_consumes| |lia].
  intros st' Hst'. apply IH. exact Hst'.
Qed.

(** *** Statements consume input *)

(** [advance] after a successful [match_] on a kind other than EOF. *)
Ltac consumed Hm :=
  let Ha := fresh "Ha" in
  pose proof (advance_after_match _ _ Hm) as Ha;
  let Hne := fresh "Hne" in
  match type of Ha with
  | ?ty <> _ -> _ => assert (ty <> TOKEN_EOF) as Hne by discriminate
  end;
  specialize (Ha Hne); clear Hne.

Section StatementsConsume.
Variable fuel : nat.
Variable rec : PState -> Parsed.
Hypothesis rec_consumes : consumes rec.

Lemma parse_declaration_consumes st node st' :
  match_ TOKEN_INT st = true ->
  parse_declaration sz st = Ok (node, st') ->
  (remaining st' < remaining st)%nat.
Proof.
  intros Hm H. unfold parse_declaration in H. consumed Hm.
  destruct (match_ TOKEN_IDENTIFIER (advance sz st)) eqn:H1;
    simpl in H; [|discriminate].
  consumed H1.
  destruct (match_ TOKEN_SEMICOLON (advance sz (advance sz st))) eqn:H2;
    simpl in H; [|discriminate].
  consumed H2. inversion H; subst. lia.
Qed.

Lemma parse_assignment_consumes st node st' :
  match_ TOKEN_IDENTIFIER st = true ->
  parse_assignment sz fuel st = Ok (node, st') ->
  (remaining st' < remaining st)%nat.
Proof.
  intros Hm H. unfold parse_assignment in H. consumed Hm.
  destruct (match_ TOKEN_EQUALS (advance sz st)) eqn:H1;
    simpl in H; [|discriminate].
  consumed H1. bind_step H. apply parse_expression_consumes in E.
  destruct (match_ TOKEN_SEMICOLON p) eqn:H2; simpl in H; [|discriminate].
  consumed H2. inversion H; subst. lia.
Qed.

Lemma parse_if_statement_consumes st node st' :
  match_ TOKEN_IF st = true ->
  parse_if_statement sz fuel rec st = Ok (node, st') ->
  (remaining st' < remaining st)%nat.
Proof.
  intros Hm H. unfold parse_if_statement in H. consumed Hm.
  bind_step H. bind_step H. bind_step H. bind_step H. inversion H; subst.
  apply expect_remaining in E; [|token_ne].
  apply parse_expression_consumes in E0.
  apply expect_remaining in E1; [|token_ne].
  apply rec_consumes in E2. lia.
Qed.

Lemma parse_while_statement_consumes st node st' :
  match_ TOKEN_WHILE st = true ->
  parse_while_statement sz fuel rec st = Ok (node, st') ->
  (remaining st' < remaining st)%nat.
Proof.
  intros Hm H. unfold parse_while_statement in H. consumed Hm.
  bind_step H. bind_step H. bind_step H. bind_step H. inversion H; subst.
  apply expect_remaining in E; [|token_ne].
  apply parse_expression_consumes in E0.
  apply expect_remaining in E1; [|token_ne].
  apply rec_consumes in E2. lia.
Qed.

Lemma parse_repeat_statement_consumes st node st' :
  match_ TOKEN_REPEAT st = true ->
  parse_repeat_statement sz fuel rec st = Ok (node, st') ->
  (remaining st' < remaining st)%nat.
Proof.
  intros Hm H. unfold parse_repeat_statement in H. consumed Hm.
  bind_step H. apply rec_consumes in E.
  destruct (match_ TOKEN_UNTIL p) eqn:H1; simpl in H; [|discriminate].
  consumed H1.
  bind_step H. bind_step H. bind_step H. bind_step H. inversion H; subst.
  apply expect_remaining in E0; [|token_ne].
  apply parse_expression_consumes in E1.
  apply expect_remaining in E2; [|token_ne].
  apply expect_remaining in E3; [|token_ne].
  lia.
Qed.

Lemma parse_print_statement_consumes st node st' :
  match_ TOKEN_PRINT st = true ->
  parse_print_statement sz fuel st = Ok (node, st') ->
  (remaining st' < remaining st)%nat.
Proof.
  intros Hm H. unfold parse_print_statement in H. consumed Hm.
  bind_step H. apply parse_expression_consumes in E.
  destruct (match_ TOKEN_SEMICOLON p) eqn:H2; simpl in H; [|discriminate].
  consumed H2. inversion H; subst. lia.
Qed.

Lemma parse_block_loop_remaining :
  forall n block_left current st block_left' st',
    parse_block_loop rec n block_left current st = Ok (block_left', st') ->
    (remaining st' <= remaining st)%nat.
Proof.
  induction n as [|n IH]; intros bl cur st bl' st' H; simpl in H.
  - destruct (_ && _); [discriminate|]. inversion H; subst. lia.
  - destruct (_ && _).
    + bind_step H. apply rec_consumes in E.
      destruct bl; apply IH in H; lia.
    + inversion H; subst. lia.
Qed.

Lemma parse_block_consumes : consumes (parse_block sz fuel rec).
Proof.
  intros st node st' H. unfold parse_block in H.
  bind_step H. apply expect_remaining in E; [|token_ne].
  bind_step H. apply parse_block_loop_remaining in E0.
  destruct (match_ TOKEN_RBRACE p) eqn:H2; simpl in H; [|discriminate].
  bind_step H. apply expect_remaining in E1; [|token_ne].
  inversion H; subst. lia.
Qed.

Lemma parse_statement_body_consumes :
  consumes (parse_statement_body sz fuel rec).
Proof.
  intros st node st' H. unfold parse_statement_body in H.
  destruct (match_ TOKEN_INT st) eqn:H1;
    [eapply parse_declaration_consumes; eauto|].
  destruct (match_ TOKEN_IDENTIFIER st) eqn:H2;
    [eapply parse_assignment_consumes; eauto|].
  destruct (match_ TOKEN_IF st) eqn:H3;
    [eapply parse_if_statement_consumes; eauto|].
  destruct (match_ TOKEN_WHILE st) eqn:H4;
    [eapply parse_while_statement_consumes; eauto|].
  destruct (match_ TOKEN_REPEAT st) eqn:H5;
    [eapply parse_repeat_statement_consumes; eauto|].
  destruct (match_ TOKEN_PRINT st) eqn:H6;
    [eapply parse_print_statement_consumes; eauto|].
  destruct (match_ TOKEN_LBRACE st) eqn:H7; [|discriminate].
  eapply parse_block_consumes; eauto.
Qed.

End StatementsConsume.

Lemma parse_statement_consumes fuel : consumes (parse_statement sz fuel).
Proof.
  induction fuel as [|f IH]; intros st node st' H; simpl in H.
  - discriminate.
  - eapply parse_statement_body_consumes; eauto.
Qed.

(** *** Statements terminate *)

Section StatementsTerminate.
Variable f : nat.
Variable rec : PState -> Parsed.
Hypothesis rec_consumes : consumes rec.
Hypothesis rec_total : forall st, (remaining st < f)%nat -> rec st <> OutOfFuel.

Lemma parse_block_loop_total :
  forall n block_left current st,
    (remaining st <= n)%nat -> (remaining st < f)%nat ->
    parse_block_loop rec n block_left current st <> OutOfFuel.
Proof.
  induction n as [|n IH]; intros bl cur st Hn Hf; simpl.
  - assert (match_ TOKEN_EOF st = true) as He
        by (apply remaining_zero_eof; lia).
    rewrite He. rewrite andb_false_r. discriminate.
  - destruct (negb (match_ TOKEN_RBRACE st) && negb (match_ TOKEN_EOF st));
      [|discriminate].
    apply bind_fuel; [apply rec_total; exact Hf|]. intros [stmt st1] E.
    apply rec_consumes in E. destruct bl; apply IH; lia.
Qed.

Lemma parse_statement_body_total :
  total_upto f (parse_statement_body sz f rec).
Proof.
  intros st Hle. unfold parse_statement_body.
  destruct (match_ TOKEN_INT st) eqn:H1.
  { unfold parse_declaration.
    destruct (negb _); [discriminate|]. destruct (negb _); discriminate. }
  destruct (match_ TOKEN_IDENTIFIER st) eqn:H2.
  { unfold parse_assignment. consumed H2.
    destruct (match_ TOKEN_EQUALS (advance sz st)) eqn:H; simpl;
      [|discriminate].
    consumed H.
    apply bind_fuel; [apply parse_expression_total; lia|].
    intros [rhs st3] _. destruct (negb _); discriminate. }
  destruct (match_ TOKEN_IF st) eqn:H3.
  { unfold parse_if_statement. consumed H3.
    apply bind_fuel; [apply expect_fuel|]. intros st2 E2.
    apply expect_remaining in E2; [|token_ne].
    apply bind_fuel; [apply parse_expression_total; lia|].
    intros [cond st3] E3. apply parse_expression_consumes in E3.
    apply bind_fuel; [apply expect_fuel|]. intros st4 E4.
    apply expect_remaining in E4; [|token_ne].
    apply bind_fuel; [apply rec_total; lia|]. intros [body st5] _.
    discriminate. }
  destruct (match_ TOKEN_WHILE st) eqn:H4.
  { unfold parse_while_statement. consumed H4.
    apply bind_fuel; [apply expect_fuel|]. intros st2 E2.
    apply expect_remaining in E2; [|token_ne].
    apply bind_fuel; [apply parse_expression_total; lia|].
    intros [cond st3] E3. apply parse_expression_consumes in E3.
    apply bind_fuel; [apply expect_fuel|]. intros st4 E4.
    apply expect_remaining in E4; [|token_ne].
    apply bind_fuel; [apply rec_total; lia|]. intros [body st5] _.
    discriminate. }
  destruct (match_ TOKEN_REPEAT st) eqn:H5.
  { unfold parse_repeat_statement. consumed H5.
    apply bind_fuel; [apply rec_total; lia|]. intros [body st2] E2.
    apply rec_consumes in E2.
    destruct (match_ TOKEN_UNTIL st2) eqn:H; simpl; [|discriminate].
    consumed H.
    apply bind_fuel; [apply expect_fuel|]. intros st4 E4.
    apply expect_remaining in E4; [|token_ne].
    apply bind_fuel; [apply parse_expression_total; lia|].
    intros [cond st5] _.
    apply bind_fuel; [apply expect_fuel|]. intros st6 _.
    apply bind_fuel; [apply expect_fuel|]. intros st7 _.
    discriminate. }
  destruct (match_ TOKEN_PRINT st) eqn:H6.
  { unfold parse_print_statement. consumed H6.
    apply bind_fuel; [apply parse_expression_total; lia|].
    intros [e st2] _. destruct (negb _); discriminate. }
  destruct (match_ TOKEN_LBRACE st) eqn:H7; [|discriminate].
  unfold parse_block.
  apply bind_fuel; [apply expect_fuel|]. intros st1 E1.
  apply expect_remaining in E1; [|token_ne].
  apply bind_fuel; [apply parse_block_loop_total; lia|].
  intros [bl st2] _. destruct (negb _); [discriminate|].
  apply bind_fuel; [apply expect_fuel|]. intros st3 _. discriminate.
Qed.

End StatementsTerminate.

Lemma parse_statement_total fuel st :
  (remaining st < fuel)%nat -> parse_statement sz fuel st <> OutOfFuel.
Proof.
  revert st. induction fuel as [|f IH]; intros st Hlt; [lia|]. simpl.
  apply parse_statement_body_total; [apply parse_statement_consumes| |lia].
  intros st' Hst'. apply IH. exact Hst'.
Qed.

Lemma parse_program_loop_total fuel :
  forall n tok st,
    (remaining st <= n)%nat -> (remaining st < fuel)%nat ->
    parse_program_loop sz fuel n tok st <> OutOfFuel.
Proof.
  induction n as [|n IH]; intros tok st Hn Hf; simpl.
  - assert (match_ TOKEN_EOF st = true) as He
        by (apply remaining_zero_eof; lia).
    rewrite He. discriminate.
  - destruct (negb (match_ TOKEN_EOF st)); [|discriminate].
    apply bind_fuel; [apply parse_statement_total; exact Hf|].
    intros [stmt st1] E. apply parse_statement_consumes in E.
    destruct (negb (match_ TOKEN_EOF st1)); [|discriminate].
    apply bind_fuel; [apply IH; lia|]. intros [rest st2] _. discriminate.
Qed.

(** Every parse returns a tree or takes the fatal exit: fuel beyond what
    is left of the input is never used up. *)
Lemma parse_total fuel st :
  (remaining st < fuel)%nat -> parse sz fuel st <> OutOfFuel.
Proof.
  intros H. unfold parse, parse_program.
  apply parse_program_loop_total; lia.
Qed.

(** *** More fuel does not change a result *)

Lemma bind_mono {A B} (m m' : Outcome A) (k k' : A -> Outcome B) :
  (m <> OutOfFuel -> m' = m) ->
  (forall a, m = Ok a -> k a <> OutOfFuel -> k' a = k a) ->
  bind m k <> OutOfFuel -> bind m' k' = bind m k.
Proof.
  destruct m; simpl; intros Hm Hk Hne.
  - rewrite Hm by discriminate. simpl. apply Hk; auto.
  - rewrite Hm by discriminate. reflexivity.
  - congruence.
Qed.

Ltac mono_bind :=
  apply bind_mono; [ | intros [? ?] ? ? | ]; try assumption; simpl.
Ltac mono_bind1 :=
  apply bind_mono; [ | intros ? ? ? | ]; try assumption; simpl.

Section ExpressionsMono.
Variables rec rec' : PState -> Parsed.
Hypothesis rec_mono : refines rec rec'.

Lemma parse_factorial_mono :
  refines (parse_factorial sz rec) (parse_factorial sz rec').
Proof.
  intros st H. unfold parse_factorial in *.
  mono_bind1; [reflexivity|].
  mono_bind; [apply rec_mono|].
  reflexivity.
Qed.

Lemma parse_primary_mono :
  refines (parse_primary sz rec) (parse_primary sz rec').
Proof.
  intros st H. unfold parse_primary in *.
  destruct (match_ TOKEN_NUMBER st); [reflexivity|].
  destruct (match_ TOKEN_IDENTIFIER st).
  { destruct (peek sz st) as [next_token st1].
    destruct (_ && _); [|reflexivity].
    apply parse_factorial_mono; assumption. }
  destruct (match_ TOKEN_LPAREN st); [|reflexivity].
  mono_bind; [apply rec_mono|]. reflexivity.
Qed.

End ExpressionsMono.

Lemma binop_loop_mono is_op operand operand' :
  refines operand operand' ->
  forall n n' node st,
    (n <= n')%nat ->
    binop_loop sz is_op operand n node st <> OutOfFuel ->
    binop_loop sz is_op operand' n' node st
    = binop_loop sz is_op operand n node st.
Proof.
  intros Hop. induction n as [|n IH]; intros n' node st Hle H.
  - simpl in *. destruct (_ && _) eqn:Hc; [congruence|].
    destruct n'; simpl; rewrite Hc; reflexivity.
  - destruct n' as [|n']; [lia|]. simpl in *.
    destruct (_ && _); [|reflexivity].
    mono_bind; [apply Hop|]. apply IH; [lia|assumption].
Qed.

Lemma level_mono is_op operand operand' n n' :
  refines operand operand' -> (n <= n')%nat ->
  refines (fun st => let* (node, st1) := operand st in
                     binop_loop sz is_op operand n node st1)
          (fun st => let* (node, st1) := operand' st in
                     binop_loop sz is_op operand' n' node st1).
Proof.
  intros Hop Hle st H.
  mono_bind; [apply Hop|]. apply binop_loop_mono; assumption.
Qed.

Lemma parse_equality_mono rec rec' n n' :
  refines rec rec' -> (n <= n')%nat ->
  refines (parse_equality sz rec n) (parse_equality sz rec' n').
Proof.
  intros Hrec Hle.
  apply level_mono; [|exact Hle].
  apply level_mono; [|exact Hle].
  apply level_mono; [|exact Hle].
  apply level_mono; [|exact Hle].
  apply parse_primary_mono, Hrec.
Qed.

Lemma parse_expression_mono f f' :
  (f <= f')%nat ->
  refines (parse_expression sz f) (parse_expression sz f').
Proof.
  revert f'. induction f as [|f IH]; intros f' Hle st H.
  - simpl in H. congruence.
  - destruct f' as [|f']; [lia|]. simpl in *.
    apply parse_equality_mono; [apply IH; lia|lia|exact H].
Qed.

Section StatementsMono.
Variables f f' : nat.
Variables rec rec' : PState -> Parsed.
Hypothesis fuel_le : (f <= f')%nat.
Hypothesis rec_mono : refines rec rec'.

Lemma parse_block_loop_mono :
  forall n n' block_left current st,
    (n <= n')%nat ->
    parse_block_loop rec n block_left current st <> OutOfFuel ->
    parse_block_loop rec' n' block_left current st
    = parse_block_loop rec n block_left current st.
Proof.
  induction n as [|n IH]; intros n' bl cur st Hle H.
  - simpl in *. destruct (_ && _) eqn:Hc; [congruence|].
    destruct n'; simpl; rewrite Hc; reflexivity.
  - destruct n' as [|n']; [lia|]. simpl in *.
    destruct (_ && _); [|reflexivity].
    mono_bind; [apply rec_mono|].
    destruct bl; apply IH; solve [lia | assumption].
Qed.

Lemma parse_statement_body_mono :
  refines (parse_statement_body sz f rec) (parse_statement_body sz f' rec').
Proof.
  pose proof (parse_expression_mono f f' fuel_le) as He.
  intros st H. unfold parse_statement_body in *.
  destruct (match_ TOKEN_INT st); [reflexivity|].
  destruct (match_ TOKEN_IDENTIFIER st).
  { unfold parse_assignment in *.
    destruct (negb _); [reflexivity|].
    mono_bind; [apply He|]. reflexivity. }
  destruct (match_ TOKEN_IF st).
  { unfold parse_if_statement in *.
    mono_bind1; [reflexivity|].
    mono_bind; [apply He|].
    mono_bind1; [reflexivity|].
    mono_bind; [apply rec_mono|]. reflexivity. }
  destruct (match_ TOKEN_WHILE st).
  { unfold parse_while_statement in *.
    mono_bind1; [reflexivity|].
    mono_bind; [apply He|].
    mono_bind1; [reflexivity|].
    mono_bind; [apply rec_mono|]. reflexivity. }
  destruct (match_ TOKEN_REPEAT st).
  { unfold parse_repeat_statement in *.
    mono_bind; [apply rec_mono|].
    destruct (negb _); [reflexivity|].
    mono_bind1; [reflexivity|].
    mono_bind; [apply He|]. reflexivity. }
  destruct (match_ TOKEN_PRINT st).
  { unfold parse_print_statement in *.
    mono_bind; [apply He|]. reflexivity. }
  destruct (match_ TOKEN_LBRACE st); [|reflexivity].
  unfold parse_block in *.
  mono_bind1; [reflexivity|].
  mono_bind; [apply parse_block_loop_mono; exact fuel_le|].
  reflexivity.
Qed.

End StatementsMono.

Lemma parse_statement_mono f f' :
  (f <= f')%nat ->
  refines (parse_statement sz f) (parse_statement sz f').
Proof.
  revert f'. induction f as [|f IH]; intros f' Hle st H.
  - simpl in H. congruence.
  - destruct f' as [|f']; [lia|]. simpl in *.
    apply parse_statement_body_mono; [lia|apply IH; lia|exact H].
Qed.

Lemma parse_program_loop_mono f f' :
  (f <= f')%nat ->
  forall n n' tok st,
    (n <= n')%nat ->
    parse_program_loop sz f n tok st <> OutOfFuel ->
    parse_program_loop sz f' n' tok st = parse_program_loop sz f n tok st.
Proof.
  intros Hf. induction n as [|n IH]; intros n' tok st Hle H.
  - simpl in *. destruct (negb _) eqn:Hc; [congruence|].
    destruct n'; simpl; rewrite Hc; reflexivity.
  - destruct n' as [|n']; [lia|]. simpl in *.
    destruct (negb (match_ TOKEN_EOF st)); [|reflexivity].
    mono_bind; [apply parse_statement_mono; exact Hf|].
    destruct (negb _); [|reflexivity].
    mono_bind; [apply IH; lia|]. reflexivity.
Qed.

(** A parse that returned or exited does the same with any larger fuel. *)
Lemma parse_mono f f' :
  (f <= f')%nat -> refines (parse sz f) (parse sz f').
Proof.
  intros Hle st H. unfold parse, parse_program in *.
  apply parse_program_loop_mono; assumption.
Qed.

Lemma parse_string_mono f k input r :
  parse_string sz f input = Ok r -> parse_string sz (f + k) input = Ok r.
Proof.
  unfold parse_string. intros H.
  rewrite (parse_mono f (f + k)); [exact H|lia|].
  intros E. rewrite E in H. discriminate.
Qed.

Lemma parse_expression_string_mono f k input r :
  parse_expression_string sz f input = Ok r ->
  parse_expression_string sz (f + k) input = Ok r.
Proof.
  unfold parse_expression_string. intros H.
  rewrite (parse_expression_mono f (f + k)); [exact H|lia|].
  intros E. rewrite E in H. discriminate.
Qed.

(** *** The shape of what the parser builds *)

Lemma left_leaning_trans a b c :
  left_leaning a b -> left_leaning b c -> left_leaning a c.
Proof.
  intros Hab Hbc. induction Hbc; [exact Hab|]. constructor. assumption.
Qed.

Lemma binop_loop_left_leaning is_op operand :
  forall n node st node' st',
    binop_loop sz is_op operand n node st = Ok (node', st') ->
    left_leaning node node'.
Proof.
  induction n as [|n IH]; intros node st node' st' H; simpl in H.
  - destruct (_ && _); [discriminate|]. inversion H; subst. constructor.
  - destruct (_ && _).
    + bind_step H. apply IH in H.
      eapply left_leaning_trans; [|exact H].
      constructor. constructor.
    + inversion H; subst. constructor.
Qed.

(** A Block node comes out of [parse_block] with its second slot empty. *)
Lemma parse_block_right_empty fuel rec st node st' :
  parse_block sz fuel rec st = Ok (node, st') ->
  exists tok block_left, node = Node AST_BLOCK tok block_left None None.
Proof.
  unfold parse_block. intros H.
  bind_step H. bind_step H.
  destruct (negb _); [discriminate|].
  bind_step H. inversion H; subst. eauto.
Qed.

Lemma parse_statement_not_program fuel st node st' :
  parse_statement sz fuel st = Ok (node, st') ->
  node_type node <> AST_PROGRAM.
Proof.
  destruct fuel as [|f]; simpl; [discriminate|].
  unfold parse_statement_body. intros H.
  destruct (match_ TOKEN_INT st).
  { unfold parse_declaration in H.
    destruct (negb _); [discriminate|].
    destruct (negb _); [discriminate|].
    inversion H; subst. discriminate. }
  destruct (match_ TOKEN_IDENTIFIER st).
  { unfold parse_assignment in H.
    destruct (negb _); [discriminate|]. bind_step H.
    destruct (negb _); [discriminate|].
    inversion H; subst. discriminate. }
  destruct (match_ TOKEN_IF st).
  { unfold parse_if_statement in H.
    bind_step H. bind_step H. bind_step H. bind_step H.
    inversion H; subst. discriminate. }
  destruct (match_ TOKEN_WHILE st).
  { unfold parse_while_statement in H.
    bind_step H. bind_step H. bind_step H. bind_step H.
    inversion H; subst. discriminate. }
  destruct (match_ TOKEN_REPEAT st).
  { unfold parse_repeat_statement in H.
    bind_step H. destruct (negb _); [discriminate|].
    bind_step H. bind_step H. bind_step H. bind_step H.
    inversion H; subst. discriminate. }
  destruct (match_ TOKEN_PRINT st).
  { unfold parse_print_statement in H.
    bind_step H. destruct (negb _); [discriminate|].
    inversion H; subst. discriminate. }
  destruct (match_ TOKEN_LBRACE st); [|discriminate].
  apply parse_block_right_empty in H. destruct H as [tok [bl ->]].
  discriminate.
Qed.

(** The Program nodes that [parse] builds are a list linked through the
    second slot, with one statement in each first slot. *)
Lemma parse_program_loop_list fuel :
  forall n tok st node st',
    parse_program_loop sz fuel n tok st = Ok (node, st') ->
    program_list node.
Proof.
  induction n as [|n IH]; intros tok st node st' H; simpl in H.
  - destruct (negb _); [discriminate|]. inversion H; subst. constructor.
  - destruct (negb (match_ TOKEN_EOF st)).
    + bind_step H. apply parse_statement_not_program in E.
      destruct (negb _).
      * bind_step H. apply IH in E0. inversion H; subst.
        constructor; assumption.
      * inversion H; subst. constructor. assumption.
    + inversion H; subst. constructor.
Qed.

Lemma parse_program_list fuel st node st' :
  parse sz fuel st = Ok (node, st') -> program_list node.
Proof. unfold parse, parse_program. apply parse_program_loop_list. Qed.

End WithLexemeSize.
End ParserFacts.
(* ================================================================= *)
(** * Claims about the parser *)

(** C9.  Lexing makes progress and parsing terminates: a call of
    [get_next_token] that returns a token other than end-of-file leaves the
    cursor strictly further than it found it; and with more fuel than there is
    input left, [parse_expression], [parse_statement] and [parse] (hence each
    of their token-consuming loops) return a tree or take the fatal exit, on
    every state, so the fuel of the model is never what stops them. *)
Theorem lexing_progress_parser_terminates :
  forall sz : nat,
    (forall input pos ln tok pos' ln',
        Lexer.get_next_token sz input pos ln = (tok, pos', ln') ->
        tok_type tok <> TOKEN_EOF -> (pos < pos')%nat)
    /\ (forall st fuel,
           (remaining st < fuel)%nat ->
           Parser.parse_expression sz fuel st <> OutOfFuel
           /\ Parser.parse_statement sz fuel st <> OutOfFuel
           /\ Parser.parse sz fuel st <> OutOfFuel).
Proof.
  intros sz. split.
  - intros input pos ln tok pos' ln' E Hne.
    apply LexerFacts.get_next_token_cursor in E. destruct E as [_ H].
    apply H in Hne. tauto.
  - intros st fuel Hlt. repeat split.
    + apply ParserFacts.parse_expression_total; assumption.
    + apply ParserFacts.parse_statement_total; assumption.
    + apply ParserFacts.parse_total; assumption.
Qed.

Lemma lexing_progress_parser_terminates_witness :
  (0 < 5)%nat
  /\ Parser.parse 100 40 (Parser.parser_init 100 1 "while (x < 3) { x = x + 1; }")
     <> OutOfFuel.
Proof.
  destruct (lexing_progress_parser_terminates 100) as [Hlex Hparse].
  split.
  - apply (Hlex "while (x < 3)" 0%nat 1 (tok1 TOKEN_WHILE "while") 5%nat 1).
    + vm_compute. reflexivity.
    + discriminate.
  - apply (Hparse (Parser.parser_init 100 1 "while (x < 3) { x = x + 1; }")
                  40%nat).
    vm_compute. lia.
Defined.


(** [parse] takes statements only: the bare expression is not a program,
    and the run exits on its first token. *)
Lemma bare_expression_is_not_a_program :
  forall sz f : nat,
    Parser.parse_string sz (1 + f) "2 + 3 * 4"
    = Fatal (UnexpectedStatement "2").
Proof.
  intros sz f. unfold Parser.parse_string.
  rewrite (ParserFacts.parse_mono _ 1 (1 + f)); [|lia|];
    vm_compute; [reflexivity|discriminate].
Qed.

(** C1, at the input that shows the defect.  In "{ x = 1; y = 2; }" the
    Block node holds the first statement in its first slot and nothing in
    its second; the second statement is stored in the second slot of the
    first statement, over the expression [1] that [x] was assigned. *)
Theorem parse_block_chains_through_statements :
  forall sz f : nat,
    Parser.parse_string sz (3 + f) "{ x = 1; y = 2; }"
    = Ok (Node AST_PROGRAM (tok1 TOKEN_LBRACE "{")
            (Some
               (Node AST_BLOCK (tok1 TOKEN_IDENTIFIER "x")
                  (Some
                     (Node AST_ASSIGN (tok1 TOKEN_IDENTIFIER "x")
                        (Some (Ident "x"))
                        (Some
                           (Node AST_ASSIGN (tok1 TOKEN_IDENTIFIER "y")
                              (Some (Ident "y")) (Some (Num "2")) None))
                        None))
                  None None))
            None None).
Proof.
  intros sz f. apply ParserFacts.parse_string_mono. vm_compute. reflexivity.
Qed.

(* ================================================================= *)
(** * Properties of the analyzer *)

Module SemanticFacts.
Import Semantic.

(** [check_statement] on a Block node is [check_block] on it. *)
Lemma check_statement_block tok l r e st :
  check_statement (Node AST_BLOCK tok l r e) st
  = check_block (Node AST_BLOCK tok l r e) st.
Proof. reflexivity. Qed.

Lemma lookup_from_None keep l i :
  lookup_from keep l i = None <-> (forall s, In s l -> keep s = false).
Proof.
  revert i. induction l as [|a l IH]; intros i; simpl.
  - split; [intros _ s []|reflexivity].
  - destruct (keep a) eqn:Ha.
    + split; [discriminate|]. intros H. specialize (H a (or_introl eq_refl)).
      congruence.
    + rewrite IH. split.
      * intros H s [<-|Hs]; auto.
      * intros H s Hs. apply H. right. exact Hs.
Qed.

Lemma lookup_from_Some keep l i j s :
  lookup_from keep l i = Some (j, s) -> In s l /\ keep s = true.
Proof.
  revert i. induction l as [|a l IH]; intros i; simpl; [discriminate|].
  destruct (keep a) eqn:Ha.
  - intros H; inversion H; subst. auto.
  - intros H. apply IH in H. tauto.
Qed.

(** The expression check reads the table and never writes it; it only
    prints. *)
Lemma check_expression_table node :
  forall st, table (snd (check_expression node st)) = table st.
Proof.
  induction node as [ty tok l r e IHl IHr _] using ASTNode_children_ind.
  intros st.
  assert (table (snd (let '(v1, st1) :=
                        match l with
                        | Some n => check_expression n st
                        | None => (true, st)
                        end in
                      let '(v2, st2) :=
                        match r with
                        | Some n => check_expression n st1
                        | None => (true, st1)
                        end in
                      (true && v1 && v2, st2))) = table st) as Hkids.
  { destruct l as [l'|]; simpl in IHl.
    - specialize (IHl st). destruct (check_expression l' st) as [v1 st1].
      destruct r as [r'|]; simpl in IHr.
      + specialize (IHr st1). destruct (check_expression r' st1) as [v2 st2].
        simpl in *. congruence.
      + simpl in *. congruence.
    - destruct r as [r'|]; simpl in IHr.
      + specialize (IHr st). destruct (check_expression r' st) as [v2 st2].
        simpl in *. congruence.
      + reflexivity. }
  destruct ty; try exact Hkids.
  - reflexivity.
  - simpl. destruct (lookup_symbol (table st) (lexeme tok)) as [[i s]|];
      [destruct (negb (is_initialized s))|]; reflexivity.
Qed.

(** *** The checks as sequences of checks *)

Import Shape.

(** Splits the pairs the checks of a goal return. *)
Ltac split_checks :=
  repeat match goal with
         | |- context [check_expression ?n ?s] =>
             destruct (check_expression n s) as [? ?]
         | |- context [check_statement ?n ?s] =>
             destruct (check_statement n s) as [? ?]
         | |- context [check_block ?n ?s] =>
             destruct (check_block n s) as [? ?]
         | |- context [check_program ?n ?s] =>
             destruct (check_program n s) as [? ?]
         end.

Lemma check_expression_children ty tok l r e st :
  ty <> AST_NUMBER -> ty <> AST_IDENTIFIER ->
  check_expression (Node ty tok l r e) st
  = seq_and (on_node check_expression l) (on_node check_expression r) st.
Proof.
  intros H1 H2. unfold seq_and, on_node.
  destruct ty; try congruence; simpl;
    destruct l, r; reflexivity.
Qed.

Lemma check_block_shape ty tok l r e st :
  check_block (Node ty tok l r e) st
  = scoped (seq_and (on_node check_statement l) (on_node check_block r)) st.
Proof.
  unfold scoped, seq_and, on_node. simpl.
  destruct l, r; split_checks; reflexivity.
Qed.

Lemma check_statement_if tok l r e st :
  check_statement (Node AST_IF tok l r e) st
  = seq_and (seq_and (on_node check_condition l) (on_node check_statement r))
            (on_node check_statement e) st.
Proof.
  simpl. unfold seq_and, if_present, on_node, check_condition.
  destruct l, r, e; split_checks; simpl; rewrite ?andb_true_r; reflexivity.
Qed.

Lemma check_statement_while tok l r e st :
  check_statement (Node AST_WHILE tok l r e) st
  = seq_and (on_node check_condition l) (on_node check_statement r) st.
Proof.
  simpl. unfold seq_and, if_present, on_node, check_condition.
  destruct l, r; split_checks; reflexivity.
Qed.

Lemma check_statement_print tok l r e st :
  check_statement (Node AST_PRINT tok l r e) st
  = on_node check_expression l st.
Proof.
  simpl. unfold if_present, on_node.
  destruct l; split_checks; reflexivity.
Qed.

Lemma check_statement_default ty tok l r e st :
  ty <> AST_VARDECL -> ty <> AST_ASSIGN -> ty <> AST_BLOCK ->
  ty <> AST_IF -> ty <> AST_WHILE -> ty <> AST_PRINT ->
  check_statement (Node ty tok l r e) st
  = check_expression (Node ty tok l r e) st.
Proof.
  intros. destruct ty; try congruence;
    change (check_statement (Node ?ty tok l r e) st)
      with (let '(v1, st1) := check_expression (Node ty tok l r e) st in
            (true && v1, st1));
    destruct (check_expression _ st); reflexivity.
Qed.

Lemma check_program_shape tok l r e st :
  check_program (Node AST_PROGRAM tok l r e) st
  = seq_and (on_node check_statement l) (on_node check_program r) st.
Proof.
  simpl. unfold seq_and, if_present, on_node.
  destruct l, r; split_checks; reflexivity.
Qed.

Lemma check_program_other ty tok l r e st :
  ty <> AST_PROGRAM ->
  check_program (Node ty tok l r e) st
  = check_statement (Node ty tok l r e) st.
Proof.
  intros. destruct ty; try congruence;
    change (check_program (Node ?ty tok l r e) st)
      with (let '(v1, st1) := check_statement (Node ty tok l r e) st in
            (true && v1, st1));
    destruct (check_statement _ st); reflexivity.
Qed.

(** *** An induction principle for the analyzer

    A property of checks that holds of the leaves (identifiers,
    declarations, the verdicts returned without looking further), and is kept
    by running two checks in a row, by the scope brackets of a block and by
    the assignment check, holds of every check on every tree. *)

Section CheckInduction.
Variable P : Checker -> Prop.
Hypothesis P_ext : forall f g, (forall st, f st = g st) -> P f -> P g.
Hypothesis P_ret : P (fun st => (true, st)).
Hypothesis P_fail : P (fun st => (false, st)).
Hypothesis P_seq : forall f g, P f -> P g -> P (seq_and f g).
Hypothesis P_scoped : forall f, P f -> P (scoped f).
Hypothesis P_identifier :
  forall tok l r e, P (check_expression (Node AST_IDENTIFIER tok l r e)).
Hypothesis P_declaration : forall node, P (check_declaration node).
Hypothesis P_assignment :
  forall tok lhs rhs e,
    P (check_expression rhs) ->
    P (check_assignment (Node AST_ASSIGN tok (Some lhs) (Some rhs) e)).

Lemma P_on_node (f : ASTNode -> Checker) o :
  on_child (fun n => P (f n)) o -> P (on_node f o).
Proof.
  destruct o as [n|]; simpl; intros H.
  - apply (P_ext (f n)); [reflexivity|exact H].
  - exact P_ret.
Qed.

Lemma on_child_all (Q : ASTNode -> Prop) o :
  (forall n, Q n) -> on_child Q o.
Proof. intros H. destruct o; simpl; auto. Qed.

Lemma on_child_impl (Q Q' : ASTNode -> Prop) o :
  (forall n, Q n -> Q' n) -> on_child Q o -> on_child Q' o.
Proof. intros H. destruct o; simpl; auto. Qed.

Theorem every_check_expression : forall node, P (check_expression node).
Proof.
  induction node as [ty tok l r e IHl IHr _] using ASTNode_children_ind.
  assert (P (seq_and (on_node check_expression l)
                     (on_node check_expression r))) as Hkids
      by (apply P_seq; apply P_on_node; assumption).
  destruct ty;
    try (eapply P_ext; [|exact Hkids];
         intros st; symmetry; apply check_expression_children; discriminate).
  - eapply P_ext; [|exact P_ret]. reflexivity.
  - apply P_identifier.
Qed.

Lemma every_check_assignment : forall node, P (check_assignment node).
Proof.
  intros [ty tok l r e].
  destruct ty; try (eapply P_ext; [|exact P_fail]; reflexivity).
  destruct l as [lhs|]; [|eapply P_ext; [|exact P_fail]; reflexivity].
  destruct r as [rhs|]; [|eapply P_ext; [|exact P_fail]; reflexivity].
  apply P_assignment, every_check_expression.
Qed.

Theorem every_check_statement_block :
  forall node, P (check_statement node) /\ P (check_block node).
Proof.
  induction node as [ty tok l r e IHl IHr IHe] using ASTNode_children_ind.
  assert (P (check_block (Node ty tok l r e))) as Hblock.
  { eapply P_ext; [intros st; symmetry; apply check_block_shape|].
    apply P_scoped, P_seq; apply P_on_node.
    - eapply on_child_impl; [|exact IHl]. intros n H; apply H.
    - eapply on_child_impl; [|exact IHr]. intros n H; apply H. }
  split; [|exact Hblock].
  assert (on_child (fun n => P (check_statement n)) r) as Hr
      by (eapply on_child_impl; [|exact IHr]; intros n H; apply H).
  assert (on_child (fun n => P (check_statement n)) e) as He
      by (eapply on_child_impl; [|exact IHe]; intros n H; apply H).
  assert (on_child (fun n => P (check_condition n)) l) as Hl
      by (apply on_child_all; intros n; apply every_check_expression).
  destruct ty;
    try (eapply P_ext;
         [intros st; symmetry; apply check_statement_default; discriminate|];
         apply every_check_expression).
  - eapply P_ext; [|apply (P_declaration (Node AST_VARDECL tok l r e))].
    reflexivity.
  - eapply P_ext; [|apply (every_check_assignment (Node AST_ASSIGN tok l r e))].
    reflexivity.
  - eapply P_ext; [intros st; symmetry; apply check_statement_print|].
    apply P_on_node, on_child_all, every_check_expression.
  - eapply P_ext; [intros st; symmetry; apply check_statement_if|].
    apply P_seq; [apply P_seq|]; apply P_on_node; assumption.
  - eapply P_ext; [intros st; symmetry; apply check_statement_while|].
    apply P_seq; apply P_on_node; assumption.
  - exact Hblock.
Qed.

Theorem every_check_program : forall node, P (check_program node).
Proof.
  induction node as [ty tok l r e IHl IHr _] using ASTNode_children_ind.
  destruct ty;
    try (eapply P_ext;
         [intros st; symmetry; apply check_program_other; discriminate|];
         apply every_check_statement_block).
  eapply P_ext; [intros st; symmetry; apply check_program_shape|].
  apply P_seq; apply P_on_node; [|assumption].
  apply on_child_all. intros n. apply every_check_statement_block.
Qed.

End CheckInduction.

(** *** A verdict "valid" means nothing but warnings were printed *)

Lemma verdict_sound_ext f g :
  (forall st, f st = g st) -> verdict_sound f -> verdict_sound g.
Proof. intros E H st. rewrite <- E. apply H. Qed.

Lemma verdict_sound_silent v : verdict_sound (fun st => (v, st)).
Proof.
  intros st. exists []. simpl. rewrite app_nil_r. split; [reflexivity|].
  intros _. constructor.
Qed.

Lemma verdict_sound_seq f g :
  verdict_sound f -> verdict_sound g -> verdict_sound (seq_and f g).
Proof.
  intros Hf Hg st. unfold seq_and.
  destruct (Hf st) as [ds1 [E1 W1]].
  destruct (f st) as [v1 st1]; simpl in *.
  destruct (Hg st1) as [ds2 [E2 W2]].
  destruct (g st1) as [v2 st2]; simpl in *.
  exists (ds1 ++ ds2)%list. split.
  - rewrite E2, E1, app_assoc. reflexivity.
  - intros Hv. apply andb_prop in Hv. destruct Hv as [Hv1 Hv2].
    apply Forall_app. auto.
Qed.

Lemma verdict_sound_scoped f : verdict_sound f -> verdict_sound (scoped f).
Proof.
  intros Hf st. unfold scoped.
  destruct (Hf (with_table enter_scope st)) as [ds [E W]].
  destruct (f (with_table enter_scope st)) as [v st']; simpl in *.
  exists ds. auto.
Qed.

Lemma verdict_sound_identifier tok l r e :
  verdict_sound (check_expression (Node AST_IDENTIFIER tok l r e)).
Proof.
  intros st. simpl.
  destruct (lookup_symbol (table st) (lexeme tok)) as [[i s]|].
  - destruct (negb (is_initialized s)); simpl.
    + eexists; split; [reflexivity|]. intros _. repeat constructor.
    + exists []. rewrite app_nil_r. split; [reflexivity|]. constructor.
  - simpl. eexists; split; [reflexivity|]. discriminate.
Qed.

Lemma verdict_sound_declaration node : verdict_sound (check_declaration node).
Proof.
  intros st. unfold check_declaration.
  destruct (node_type node);
    try (exists []; simpl; rewrite app_nil_r; split;
         [reflexivity|constructor]).
  destruct (lookup_symbol_current_scope _ _); simpl.
  - eexists; split; [reflexivity|]. discriminate.
  - exists []. rewrite app_nil_r. split; [reflexivity|]. constructor.
Qed.

Lemma verdict_sound_assignment tok lhs rhs e :
  verdict_sound (check_expression rhs) ->
  verdict_sound (check_assignment (Node AST_ASSIGN tok (Some lhs) (Some rhs) e)).
Proof.
  intros Hrhs st. simpl.
  destruct (lookup_symbol _ _) as [[i s]|]; simpl.
  - destruct (Hrhs st) as [ds [E W]].
    destruct (check_expression rhs st) as [v st1]; simpl in *.
    destruct v; simpl; exists ds; auto.
  - eexists; split; [reflexivity|]. discriminate.
Qed.

Theorem check_program_verdict_sound node : verdict_sound (check_program node).
Proof.
  apply every_check_program.
  - exact verdict_sound_ext.
  - apply verdict_sound_silent.
  - apply verdict_sound_silent.
  - exact verdict_sound_seq.
  - exact verdict_sound_scoped.
  - exact verdict_sound_identifier.
  - exact verdict_sound_declaration.
  - exact verdict_sound_assignment.
Qed.

(** *** The verdict does not look at [is_initialized] *)

Lemma same_up_to_flags_refl st : same_up_to_flags st st.
Proof. split; reflexivity. Qed.

Lemma forget_flag_cons a b (l1 l2 : list Symbol) :
  map forget_flag (a :: l1) = map forget_flag (b :: l2) ->
  forget_flag a = forget_flag b /\ map forget_flag l1 = map forget_flag l2.
Proof.
  intros E.
  split.
  - exact (f_equal (fun l => hd (forget_flag a) l) E).
  - exact (f_equal (fun l => tl l) E).
Qed.

Lemma lookup_from_flags keep l1 l2 i :
  (forall s, keep (forget_flag s) = keep s) ->
  map forget_flag l1 = map forget_flag l2 ->
  option_map fst (lookup_from keep l1 i)
  = option_map fst (lookup_from keep l2 i).
Proof.
  intros Hk. revert l2 i.
  induction l1 as [|a l1 IH]; intros [|b l2] i E;
    try discriminate; [reflexivity|].
  apply forget_flag_cons in E. destruct E as [Ea El]. simpl.
  assert (keep a = keep b) as Hab
      by (rewrite <- (Hk a), <- (Hk b), Ea; reflexivity).
  rewrite Hab. destruct (keep b); [reflexivity|]. apply IH. exact El.
Qed.

Lemma set_initialized_flags i l :
  map forget_flag (set_initialized i l) = map forget_flag l.
Proof.
  revert i. induction l as [|a l IH]; intros [|i]; simpl;
    try reflexivity.
  rewrite IH. reflexivity.
Qed.

Lemma filter_flags (keep : Symbol -> bool) l1 l2 :
  (forall s, keep (forget_flag s) = keep s) ->
  map forget_flag l1 = map forget_flag l2 ->
  map forget_flag (filter keep l1) = map forget_flag (filter keep l2).
Proof.
  intros Hk. revert l2.
  induction l1 as [|a l1 IH]; intros [|b l2] E;
    try discriminate; [reflexivity|].
  apply forget_flag_cons in E. destruct E as [Ea El]. simpl.
  assert (keep a = keep b) as Hab
      by (rewrite <- (Hk a), <- (Hk b), Ea; reflexivity).
  rewrite Hab. destruct (keep b); [|auto].
  change (forget_flag a :: map forget_flag (filter keep l1)
          = forget_flag b :: map forget_flag (filter keep l2)).
  rewrite Ea. f_equal. auto.
Qed.

Lemma flag_blind_ext f g :
  (forall st, f st = g st) -> flag_blind f -> flag_blind g.
Proof. intros E H st1 st2 R. rewrite <- !E. apply H. exact R. Qed.

Lemma flag_blind_silent v : flag_blind (fun st => (v, st)).
Proof. intros st1 st2 R. simpl. auto. Qed.

Lemma flag_blind_seq f g :
  flag_blind f -> flag_blind g -> flag_blind (seq_and f g).
Proof.
  intros Hf Hg st1 st2 R. unfold seq_and.
  destruct (Hf st1 st2 R) as [V1 R1].
  destruct (f st1) as [v1 s1], (f st2) as [v1' s1']; simpl in *.
  destruct (Hg s1 s1' R1) as [V2 R2].
  destruct (g s1) as [v2 s2], (g s1') as [v2' s2']; simpl in *.
  subst. auto.
Qed.

Lemma flag_blind_scoped f : flag_blind f -> flag_blind (scoped f).
Proof.
  intros Hf st1 st2 [Rh Rs]. unfold scoped.
  assert (same_up_to_flags (with_table enter_scope st1)
                           (with_table enter_scope st2)) as R0
      by (split; simpl; congruence).
  destruct (Hf _ _ R0) as [V [Rh' Rs']].
  destruct (f (with_table enter_scope st1)) as [v1 s1].
  destruct (f (with_table enter_scope st2)) as [v2 s2].
  simpl in *. split; [exact V|]. split; simpl; [|congruence].
  rewrite Rs'. apply filter_flags; [reflexivity|exact Rh'].
Qed.

Lemma flag_blind_identifier tok l r e :
  flag_blind (check_expression (Node AST_IDENTIFIER tok l r e)).
Proof.
  intros st1 st2 [Rh Rs]. simpl. unfold lookup_symbol.
  pose proof (lookup_from_flags
                (fun s => String.eqb (name s) (lexeme tok))
                (head (table st1)) (head (table st2)) 0
                (fun s => eq_refl) Rh) as E.
  destruct (lookup_from _ (head (table st1)) 0) as [[i1 s1]|];
    destruct (lookup_from _ (head (table st2)) 0) as [[i2 s2]|];
    simpl in E; try discriminate.
  - destruct (negb (is_initialized s1)), (negb (is_initialized s2));
      simpl; repeat split; assumption.
  - simpl. repeat split; assumption.
Qed.

Lemma flag_blind_declaration node : flag_blind (check_declaration node).
Proof.
  intros st1 st2 [Rh Rs]. unfold check_declaration.
  destruct (node_type node); try (simpl; repeat split; assumption).
  unfold lookup_symbol_current_scope. rewrite <- Rs.
  pose proof (lookup_from_flags
                (fun s => String.eqb (name s) (lexeme (node_token node))
                          && (scope_level s =? current_scope (table st1)))
                (head (table st1)) (head (table st2)) 0
                (fun s => eq_refl) Rh) as E.
  destruct (lookup_from _ (head (table st1)) 0) as [[i1 s1]|];
    destruct (lookup_from _ (head (table st2)) 0) as [[i2 s2]|];
    simpl in E; try discriminate.
  - simpl. repeat split; assumption.
  - simpl. split; [reflexivity|]. split; simpl; [|assumption].
    rewrite Rh, Rs. reflexivity.
Qed.

Lemma flag_blind_assignment tok lhs rhs e :
  flag_blind (check_expression rhs) ->
  flag_blind (check_assignment (Node AST_ASSIGN tok (Some lhs) (Some rhs) e)).
Proof.
  intros Hrhs st1 st2 R. simpl. unfold lookup_symbol.
  pose proof R as [Rh Rs].
  pose proof (lookup_from_flags
                (fun s => String.eqb (name s) (lexeme (node_token lhs)))
                (head (table st1)) (head (table st2)) 0
                (fun s => eq_refl) Rh) as E.
  destruct (lookup_from _ (head (table st1)) 0) as [[i1 s1]|];
    destruct (lookup_from _ (head (table st2)) 0) as [[i2 s2]|];
    simpl in E; try discriminate.
  - destruct (Hrhs st1 st2 R) as [V [Rh' Rs']].
    destruct (check_expression rhs st1) as [v1 s1'].
    destruct (check_expression rhs st2) as [v2 s2'].
    simpl in *. subst v2.
    destruct v1; simpl; (split; [reflexivity|]); split; simpl;
      rewrite ?set_initialized_flags; assumption.
  - simpl. repeat split; assumption.
Qed.

Theorem check_program_flag_blind node : flag_blind (check_program node).
Proof.
  apply every_check_program.
  - exact flag_blind_ext.
  - apply flag_blind_silent.
  - apply flag_blind_silent.
  - exact flag_blind_seq.
  - exact flag_blind_scoped.
  - exact flag_blind_identifier.
  - exact flag_blind_declaration.
  - exact flag_blind_assignment.
Qed.

Theorem check_expression_flag_blind node : flag_blind (check_expression node).
Proof.
  apply every_check_expression.
  - exact flag_blind_ext.
  - apply flag_blind_silent.
  - exact flag_blind_seq.
  - exact flag_blind_identifier.
Qed.

End SemanticFacts.

(* ================================================================= *)
(** * Claims about the analyzer *)

Import Semantic Shape.

(** C2, as the code has it.  For every tree the verdict is the conjunction
    of the checks of a traversal that no failure cuts short, but for one
    case.  A verdict "valid" means that nothing but uninitialized-variable
    warnings was printed.  Two checks in sequence both run, the second on
    the state the first left, whatever the first returned, and their verdicts
    are and-ed; and every composite check is such a sequence of the checks of
    its children: a Program node (statement, then the rest of the program), a
    block (statement, then the rest of the block, inside its scope), an If
    (condition, then-branch, else-branch), a While (condition, body), a
    Print (its expression), an expression node other than a number or an
    identifier (first operand, second operand); a declaration, an assignment
    and a block are handed to their own checks, a node of any other kind to
    the expression check, and a condition is checked as an expression.  An
    assignment whose target is declared checks its right-hand side and
    returns that verdict.  The one case: an assignment whose target is not
    declared returns "invalid" with that one diagnostic, and its right-hand
    side is not checked. *)
Theorem analyze_runs_all_checks_but_rhs_of_undeclared :
  (forall ast : option ASTNode,
      fst (analyze_semantics ast) = true ->
      Forall is_warning (out (snd (analyze_semantics ast))))
  /\ (forall (f g : Checker) st,
         seq_and f g st
         = (fst (f st) && fst (g (snd (f st))), snd (g (snd (f st)))))
  /\ (forall tok l r e st,
         check_program (Node AST_PROGRAM tok l r e) st
         = seq_and (on_node check_statement l) (on_node check_program r) st)
  /\ (forall ty tok l r e st,
         ty <> AST_PROGRAM ->
         check_program (Node ty tok l r e) st
         = check_statement (Node ty tok l r e) st)
  /\ (forall ty tok l r e st,
         check_block (Node ty tok l r e) st
         = scoped (seq_and (on_node check_statement l)
                           (on_node check_block r)) st)
  /\ (forall tok l r e st,
         check_statement (Node AST_VARDECL tok l r e) st
         = check_declaration (Node AST_VARDECL tok l r e) st
         /\ check_statement (Node AST_ASSIGN tok l r e) st
            = check_assignment (Node AST_ASSIGN tok l r e) st
         /\ check_statement (Node AST_BLOCK tok l r e) st
            = check_block (Node AST_BLOCK tok l r e) st
         /\ check_statement (Node AST_IF tok l r e) st
            = seq_and (seq_and (on_node check_condition l)
                               (on_node check_statement r))
                      (on_node check_statement e) st
         /\ check_statement (Node AST_WHILE tok l r e) st
            = seq_and (on_node check_condition l)
                      (on_node check_statement r) st
         /\ check_statement (Node AST_PRINT tok l r e) st
            = on_node check_expression l st)
  /\ (forall ty tok l r e st,
         ty <> AST_VARDECL -> ty <> AST_ASSIGN -> ty <> AST_BLOCK ->
         ty <> AST_IF -> ty <> AST_WHILE -> ty <> AST_PRINT ->
         check_statement (Node ty tok l r e) st
         = check_expression (Node ty tok l r e) st)
  /\ (forall node st, check_condition node st = check_expression node st)
  /\ (forall ty tok l r e st,
         ty <> AST_NUMBER -> ty <> AST_IDENTIFIER ->
         check_expression (Node ty tok l r e) st
         = seq_and (on_node check_expression l)
                   (on_node check_expression r) st)
  /\ (forall tok lhs rhs e st i s,
         lookup_symbol (table st) (lexeme (node_token lhs)) = Some (i, s) ->
         check_assignment (Node AST_ASSIGN tok (Some lhs) (Some rhs) e) st
         = (fst (check_expression rhs st),
            if fst (check_expression rhs st)
            then mkAState
                   (mkSymbolTable
                      (set_initialized i
                         (head (table (snd (check_expression rhs st)))))
                      (current_scope
                         (table (snd (check_expression rhs st)))))
                   (out (snd (check_expression rhs st)))
            else snd (check_expression rhs st)))
  /\ (forall tok lhs rhs e st,
         lookup_symbol (table st) (lexeme (node_token lhs)) = None ->
         check_assignment (Node AST_ASSIGN tok (Some lhs) (Some rhs) e) st
         = (false,
            mkAState (table st)
              (out st ++ [mkDiagnostic SEM_ERROR_UNDECLARED_VARIABLE
                            (lexeme (node_token lhs)) (line tok)]))).
Proof.
  repeat match goal with |- _ /\ _ => split end.
  - intros [ast|] Hv; [|constructor].
    unfold analyze_semantics, on_node in *.
    destruct (SemanticFacts.check_program_verdict_sound ast initial_state)
      as [ds [E W]].
    fold initial_state in Hv |- *. rewrite E. simpl. auto.
  - intros f g st. unfold seq_and.
    destruct (f st) as [v1 st1]. simpl. destruct (g st1). reflexivity.
  - intros. apply SemanticFacts.check_program_shape.
  - intros. apply SemanticFacts.check_program_other. assumption.
  - intros. apply SemanticFacts.check_block_shape.
  - intros tok l r e st.
    split; [reflexivity|]. split; [reflexivity|].
    split; [apply SemanticFacts.check_statement_block|].
    split; [apply SemanticFacts.check_statement_if|].
    split; [apply SemanticFacts.check_statement_while|].
    apply SemanticFacts.check_statement_print.
  - intros. apply SemanticFacts.check_statement_default; assumption.
  - reflexivity.
  - intros. apply SemanticFacts.check_expression_children; assumption.
  - intros tok lhs rhs e st i s H. simpl. rewrite H.
    destruct (check_expression rhs st) as [v st1].
    destruct v; reflexivity.
  - intros tok lhs rhs e st H. simpl. rewrite H. reflexivity.
Qed.

Lemma analyze_runs_all_checks_but_rhs_of_undeclared_witness :
  Forall is_warning
    (out (snd (analyze_semantics
                 (Some (Node AST_PRINT (tok1 TOKEN_PRINT "print")
                          (Some (Num "1")) None None)))))
  /\ check_statement
       (Node AST_WHILE (tok1 TOKEN_WHILE "while") (Some (Ident "a"))
             (Some (Node AST_PRINT (tok1 TOKEN_PRINT "print")
                      (Some (Ident "b")) None None))
             None)
       initial_state
     = (false,
        mkAState init_symbol_table
          [mkDiagnostic SEM_ERROR_UNDECLARED_VARIABLE "a" 1;
           mkDiagnostic SEM_ERROR_UNDECLARED_VARIABLE "b" 1])
  /\ check_expression (BinOp "+" (Ident "a") (Ident "b")) initial_state
     = seq_and (on_node check_expression (Some (Ident "a")))
               (on_node check_expression (Some (Ident "b"))) initial_state
  /\ check_assignment assign_x_y initial_state
     = (false,
        mkAState init_symbol_table
          [mkDiagnostic SEM_ERROR_UNDECLARED_VARIABLE "x" 1]).
Proof.
  destruct analyze_runs_all_checks_but_rhs_of_undeclared
    as (Hsound & _ & _ & _ & _ & Hstmt & _ & _ & Hexpr & _ & Hassign).
  split; [|split; [|split]].
  - apply Hsound. reflexivity.
  - destruct (Hstmt (tok1 TOKEN_WHILE "while") (Some (Ident "a"))
                (Some (Node AST_PRINT (tok1 TOKEN_PRINT "print")
                         (Some (Ident "b")) None None))
                None initial_state) as (_ & _ & _ & _ & Hwhile & _).
    rewrite Hwhile. vm_compute. reflexivity.
  - apply Hexpr; discriminate.
  - apply (Hassign (tok1 TOKEN_IDENTIFIER "x") (Ident "x") (Ident "y") None
                   initial_state).
    reflexivity.
Defined.

(** C2, as stated, fails: in "x = y;" with neither name declared, the check
    of the right-hand side would print that [y] is undeclared, and the
    assignment check prints only that [x] is. *)
Lemma assignment_skips_rhs_check :
  ~ assignment_checks_rhs assign_x_y initial_state.
Proof.
  unfold assignment_checks_rhs, assign_x_y. intros H.
  specialize (H (mkDiagnostic SEM_ERROR_UNDECLARED_VARIABLE "y" 1)).
  vm_compute in H.
  destruct H as [H|H]; [left; reflexivity|discriminate|exact H].
Qed.

(** C3.  The third child slot.  On an If node the statement dispatch runs
    the checks of the condition and of the then-branch and then, when the
    else-branch slot is filled, the statement check of what it holds, and-ing
    the verdicts; on a node of any other kind the slot is not read by the
    statement dispatch nor by the program check, and no node's own slot is
    read by the expression check or by the block check. *)
Theorem else_branch_checked_on_if_only :
  (forall tok l r e st,
      check_statement (Node AST_IF tok l r (Some e)) st
      = seq_and (check_statement (Node AST_IF tok l r None))
                (check_statement e) st)
  /\ (forall ty tok l r e st,
         ty <> AST_IF ->
         check_statement (Node ty tok l r e) st
         = check_statement (Node ty tok l r None) st
         /\ check_program (Node ty tok l r e) st
            = check_program (Node ty tok l r None) st)
  /\ (forall ty tok l r e st,
         check_expression (Node ty tok l r e) st
         = check_expression (Node ty tok l r None) st
         /\ check_block (Node ty tok l r e) st
            = check_block (Node ty tok l r None) st).
Proof.
  split; [|split].
  - intros tok l r e st. simpl.
    unfold seq_and, if_present, on_node, check_condition.
    destruct l as [l'|]; [destruct (check_expression l' st) as [v1 st1]|];
      (destruct r as [r'|];
       [match goal with
        | |- context [check_statement r' ?s] =>
            destruct (check_statement r' s) as [v2 st2]
        end|]);
      match goal with
      | |- context [check_statement e ?s] =>
          destruct (check_statement e s) as [v3 st3]
      end;
      simpl; rewrite ?andb_true_r; reflexivity.
  - intros ty tok l r e st Hne.
    split; destruct ty; try congruence; reflexivity.
  - intros ty tok l r e st. split; [destruct ty|]; reflexivity.
Qed.

Lemma else_branch_checked_on_if_only_witness :
  check_statement
    (Node AST_WHILE (tok1 TOKEN_WHILE "while") (Some (Num "1")) None
          (Some (Ident "y"))) initial_state
  = check_statement
      (Node AST_WHILE (tok1 TOKEN_WHILE "while") (Some (Num "1")) None None)
      initial_state
  /\ check_statement
       (Node AST_IF (tok1 TOKEN_IF "if") (Some (Num "1")) None
             (Some (Node AST_PRINT (tok1 TOKEN_PRINT "print")
                      (Some (Ident "y")) None None))) initial_state
     = (false,
        mkAState init_symbol_table
          [mkDiagnostic SEM_ERROR_UNDECLARED_VARIABLE "y" 1]).
Proof.
  destruct else_branch_checked_on_if_only as [Hif [Hother _]].
  split.
  - apply (Hother AST_WHILE). discriminate.
  - rewrite Hif. reflexivity.
Defined.

Lemma parse_and_analyze_mono sz f k input r :
  parse_and_analyze sz f input = Ok r ->
  parse_and_analyze sz (f + k) input = Ok r.
Proof.
  unfold parse_and_analyze. intros H.
  destruct (Parser.parse_string sz f input) as [ast| |] eqn:E;
    try discriminate.
  rewrite (ParserFacts.parse_string_mono sz f k input ast E). exact H.
Qed.

(** C7.  The declaration check looks at the current scope level only.  On
    a VarDecl node: if the table holds a symbol with the node's name at the
    current level, the check prints a redeclaration at the node's line,
    returns "invalid" and leaves the table as it is; if every symbol with
    that name is at another level, it returns "valid" and puts a new symbol
    at the head of the table, at the current level, not initialized.  And the
    program "int x; int x;" is invalid, with one diagnostic: [x] redeclared,
    at line 1, the line of the second declaration; with the second
    declaration on a line of its own the diagnostic is at line 2 (for a
    lexeme buffer of 4 bytes at least, which "int" needs). *)
Theorem check_declaration_current_scope_only :
  (forall tok l r e st s,
      In s (head (table st)) ->
      name s = lexeme tok ->
      scope_level s = current_scope (table st) ->
      check_declaration (Node AST_VARDECL tok l r e) st
      = (false,
         mkAState (table st)
           (out st ++ [mkDiagnostic SEM_ERROR_REDECLARED_VARIABLE
                         (lexeme tok) (line tok)])))
  /\ (forall tok l r e st,
         (forall s, In s (head (table st)) -> name s = lexeme tok ->
                    scope_level s <> current_scope (table st)) ->
         check_declaration (Node AST_VARDECL tok l r e) st
         = (true,
            mkAState
              (mkSymbolTable
                 (mkSymbol (copy_name (lexeme tok)) TOKEN_INT
                           (current_scope (table st)) (line tok) false
                  :: head (table st))
                 (current_scope (table st)))
              (out st)))
  /\ (forall sz f : nat,
         (4 <= sz)%nat ->
         parse_and_analyze sz (2 + f) "int x; int x;"
         = Ok (false,
               [mkDiagnostic SEM_ERROR_REDECLARED_VARIABLE "x" 1])
         /\ parse_and_analyze sz (2 + f)
              ("int x;" ++ String Lexer.LF "int x;")
            = Ok (false,
                  [mkDiagnostic SEM_ERROR_REDECLARED_VARIABLE "x" 2])).
Proof.
  split; [|split].
  - intros tok l r e st s Hin Hname Hscope.
    unfold check_declaration, lookup_symbol_current_scope. simpl.
    destruct (lookup_from _ (head (table st)) 0) as [[i s']|] eqn:E;
      [reflexivity|].
    exfalso. rewrite SemanticFacts.lookup_from_None in E.
    specialize (E s Hin). simpl in E.
    rewrite Hname, Hscope, String.eqb_refl, Z.eqb_refl in E. discriminate.
  - intros tok l r e st Hnone.
    unfold check_declaration, lookup_symbol_current_scope. simpl.
    assert (lookup_from
              (fun s => String.eqb (name s) (lexeme tok)
                        && (scope_level s =? current_scope (table st)))
              (head (table st)) 0 = None) as E.
    { apply SemanticFacts.lookup_from_None. intros s Hin.
      destruct (String.eqb_spec (name s) (lexeme tok)) as [Hn|]; [|reflexivity].
      destruct (Z.eqb_spec (scope_level s) (current_scope (table st)))
        as [Hs|]; [|reflexivity].
      exfalso. exact (Hnone s Hin Hn Hs). }
    rewrite E. reflexivity.
  - intros sz f Hsz.
    do 4 (destruct sz as [|sz]; [lia|]).
    split; apply parse_and_analyze_mono; vm_compute; reflexivity.
Qed.

Lemma check_declaration_current_scope_only_witness :
  check_declaration
    (Node AST_VARDECL (tok1 TOKEN_IDENTIFIER "x") None None None)
    (mkAState (mkSymbolTable [mkSymbol "x" TOKEN_INT 0 1 false] 0) [])
  = (false,
     mkAState (mkSymbolTable [mkSymbol "x" TOKEN_INT 0 1 false] 0)
       [mkDiagnostic SEM_ERROR_REDECLARED_VARIABLE "x" 1])
  /\ check_declaration
       (Node AST_VARDECL (tok1 TOKEN_IDENTIFIER "x") None None None)
       (mkAState (mkSymbolTable [mkSymbol "x" TOKEN_INT 0 1 false] 1) [])
     = (true,
        mkAState
          (mkSymbolTable [mkSymbol "x" TOKEN_INT 1 1 false;
                          mkSymbol "x" TOKEN_INT 0 1 false] 1) [])
  /\ parse_and_analyze 100 2 "int x; int x;"
     = Ok (false, [mkDiagnostic SEM_ERROR_REDECLARED_VARIABLE "x" 1]).
Proof.
  destruct check_declaration_current_scope_only as [Hre [Hnew Hprog]].
  split; [|split].
  - apply (Hre (tok1 TOKEN_IDENTIFIER "x") None None None
               (mkAState (mkSymbolTable [mkSymbol "x" TOKEN_INT 0 1 false] 0)
                         [])
               (mkSymbol "x" TOKEN_INT 0 1 false)).
    + left. reflexivity.
    + reflexivity.
    + reflexivity.
  - apply (Hnew (tok1 TOKEN_IDENTIFIER "x") None None None
                (mkAState (mkSymbolTable [mkSymbol "x" TOKEN_INT 0 1 false] 1)
                          [])).
    intros s [<-|[]] _. simpl. discriminate.
  - apply (Hprog 100%nat 0%nat). lia.
Defined.

(** C8.  An uninitialized variable is a warning only.  In the expression
    check an identifier found in the table with [is_initialized] unset prints
    the uninitialized-variable diagnostic and is valid; an identifier not
    found prints the undeclared-variable diagnostic and is invalid.  And the
    verdict of the expression check and of the program check on any tree is
    the same for two tables that differ only in [is_initialized] flags: what
    decides whether the warning is printed never decides the verdict. *)
Theorem uninitialized_use_is_warning_only :
  (forall tok l r e st i s,
      lookup_symbol (table st) (lexeme tok) = Some (i, s) ->
      is_initialized s = false ->
      check_expression (Node AST_IDENTIFIER tok l r e) st
      = (true,
         mkAState (table st)
           (out st ++ [mkDiagnostic SEM_ERROR_UNINITIALIZED_VARIABLE
                         (lexeme tok) (line tok)])))
  /\ (forall tok l r e st,
         lookup_symbol (table st) (lexeme tok) = None ->
         check_expression (Node AST_IDENTIFIER tok l r e) st
         = (false,
            mkAState (table st)
              (out st ++ [mkDiagnostic SEM_ERROR_UNDECLARED_VARIABLE
                            (lexeme tok) (line tok)])))
  /\ (forall node st1 st2,
         same_up_to_flags st1 st2 ->
         fst (check_expression node st1) = fst (check_expression node st2)
         /\ fst (check_program node st1) = fst (check_program node st2)).
Proof.
  split; [|split].
  - intros tok l r e st i s Hl Hi. simpl. rewrite Hl, Hi. reflexivity.
  - intros tok l r e st Hl. simpl. rewrite Hl. reflexivity.
  - intros node st1 st2 R. split.
    + apply (SemanticFacts.check_expression_flag_blind node st1 st2 R).
    + apply (SemanticFacts.check_program_flag_blind node st1 st2 R).
Qed.

Lemma uninitialized_use_is_warning_only_witness :
  check_expression (Ident "x")
    (mkAState (mkSymbolTable [mkSymbol "x" TOKEN_INT 0 1 false] 0) [])
  = (true,
     mkAState (mkSymbolTable [mkSymbol "x" TOKEN_INT 0 1 false] 0)
       [mkDiagnostic SEM_ERROR_UNINITIALIZED_VARIABLE "x" 1])
  /\ check_expression (Ident "x") initial_state
     = (false,
        mkAState init_symbol_table
          [mkDiagnostic SEM_ERROR_UNDECLARED_VARIABLE "x" 1])
  /\ fst (check_program
            (Node AST_PRINT (tok1 TOKEN_PRINT "print") (Some (Ident "x"))
                  None None)
            (mkAState (mkSymbolTable [mkSymbol "x" TOKEN_INT 0 1 false] 0) []))
     = fst (check_program
              (Node AST_PRINT (tok1 TOKEN_PRINT "print") (Some (Ident "x"))
                    None None)
              (mkAState (mkSymbolTable [mkSymbol "x" TOKEN_INT 0 1 true] 0)
                        [])).
Proof.
  destruct uninitialized_use_is_warning_only as [Hwarn [Hundecl Hblind]].
  split; [|split].
  - apply (Hwarn (tok1 TOKEN_IDENTIFIER "x") None None None
                 (mkAState (mkSymbolTable [mkSymbol "x" TOKEN_INT 0 1 false] 0)
                           [])
                 0%nat (mkSymbol "x" TOKEN_INT 0 1 false));
      reflexivity.
  - apply (Hundecl (tok1 TOKEN_IDENTIFIER "x") None None None initial_state).
    reflexivity.
  - apply Hblind. split; reflexivity.
Defined.

(** C10.  The assignment check on its error path.  On an Assign node with
    both children whose left-hand name is not in the table, at any level,
    [check_assignment] (and the statement dispatch, which calls it) returns
    "invalid", prints the one undeclared-variable diagnostic, with the
    left-hand name and the line of the Assign node's token, and leaves the
    table, scope counter included, as it was; the result is the same whatever
    the right-hand side is, which is not examined. *)
Theorem check_assignment_undeclared_target :
  forall tok lhs rhs e st,
    lookup_symbol (table st) (lexeme (node_token lhs)) = None ->
    check_assignment (Node AST_ASSIGN tok (Some lhs) (Some rhs) e) st
    = (false,
       mkAState (table st)
         (out st ++ [mkDiagnostic SEM_ERROR_UNDECLARED_VARIABLE
                       (lexeme (node_token lhs)) (line tok)]))
    /\ check_statement (Node AST_ASSIGN tok (Some lhs) (Some rhs) e) st
       = check_assignment (Node AST_ASSIGN tok (Some lhs) (Some rhs) e) st
    /\ (forall rhs',
           check_assignment (Node AST_ASSIGN tok (Some lhs) (Some rhs') e) st
           = check_assignment (Node AST_ASSIGN tok (Some lhs) (Some rhs) e) st).
Proof.
  intros tok lhs rhs e st H. repeat split.
  - simpl. rewrite H. reflexivity.
  - intros rhs'. simpl. rewrite H. reflexivity.
Qed.

Lemma check_assignment_undeclared_target_witness :
  check_assignment assign_x_y
    (mkAState (mkSymbolTable [mkSymbol "y" TOKEN_INT 0 1 false] 0) [])
  = (false,
     mkAState (mkSymbolTable [mkSymbol "y" TOKEN_INT 0 1 false] 0)
       [mkDiagnostic SEM_ERROR_UNDECLARED_VARIABLE "x" 1]).
Proof.
  apply (check_assignment_undeclared_target
           (tok1 TOKEN_IDENTIFIER "x") (Ident "x") (Ident "y") None
           (mkAState (mkSymbolTable [mkSymbol "y" TOKEN_INT 0 1 false] 0) [])).
  reflexivity.
Defined.

(** What the chaining of [parse_block] costs the analysis: in
    "{ int x; y = 1; }" the assignment hangs below the declaration node, which
    [check_declaration] does not look into, so the undeclared [y] is never
    reported and the program is found valid. *)
Lemma block_statements_after_first_unchecked :
  forall sz f : nat,
    (4 <= sz)%nat ->
    parse_and_analyze sz (3 + f) "{ int x; y = 1; }" = Ok (true, []).
Proof.
  intros sz f Hsz. do 4 (destruct sz as [|sz]; [lia|]).
  apply parse_and_analyze_mono. vm_compute. reflexivity.
Qed.

(* ================================================================= *)
(** * Further properties *)

Lemma parse_and_dump_mono sz f k input r :
  parse_and_dump sz f input = Ok r ->
  parse_and_dump sz (f + k) input = Ok r.
Proof.
  unfold parse_and_dump. intros H.
  destruct (Parser.parse_string sz f input) as [ast| |] eqn:E;
    try discriminate.
  rewrite (ParserFacts.parse_string_mono sz f k input ast E). exact H.
Qed.

(** Every check leaves the scope counter as it found it: a block enters
    and exits once, and nothing else touches the counter. *)
Lemma keeps_scope_every_check node :
  keeps_scope (check_expression node)
  /\ keeps_scope (check_statement node)
  /\ keeps_scope (check_block node)
  /\ keeps_scope (check_program node).
Proof.
  assert (forall f g, (forall st, f st = g st) -> keeps_scope f ->
                      keeps_scope g) as Hext
      by (intros f g E H st; rewrite <- E; apply H).
  assert (forall v, keeps_scope (fun st => (v, st))) as Hsilent
      by (intros v st; reflexivity).
  assert (forall f g, keeps_scope f -> keeps_scope g ->
                      keeps_scope (seq_and f g)) as Hseq.
  { intros f g Hf Hg st. unfold seq_and.
    specialize (Hf st). destruct (f st) as [v1 st1].
    specialize (Hg st1). destruct (g st1) as [v2 st2].
    simpl in *. congruence. }
  assert (forall f, keeps_scope f -> keeps_scope (scoped f)) as Hscoped.
  { intros f Hf st. unfold scoped.
    specialize (Hf (with_table enter_scope st)).
    destruct (f (with_table enter_scope st)) as [v st'].
    simpl in *. lia. }
  assert (forall tok l r e,
             keeps_scope (check_expression (Node AST_IDENTIFIER tok l r e)))
    as Hid.
  { intros tok l r e st. simpl.
    destruct (lookup_symbol _ _) as [[i s]|];
      [destruct (negb _)|]; reflexivity. }
  assert (forall n, keeps_scope (check_declaration n)) as Hdecl.
  { intros n st. unfold check_declaration.
    destruct (node_type n); try reflexivity.
    destruct (lookup_symbol_current_scope _ _); reflexivity. }
  assert (forall tok lhs rhs e,
             keeps_scope (check_expression rhs) ->
             keeps_scope (check_assignment
                            (Node AST_ASSIGN tok (Some lhs) (Some rhs) e)))
    as Hassign.
  { intros tok lhs rhs e Hrhs st. simpl.
    destruct (lookup_symbol _ _) as [[i s]|]; [|reflexivity].
    specialize (Hrhs st). destruct (check_expression rhs st) as [v st1].
    destruct v; simpl in *; exact Hrhs. }
  repeat split.
  - apply SemanticFacts.every_check_expression; auto.
  - apply SemanticFacts.every_check_statement_block; auto.
  - apply SemanticFacts.every_check_statement_block; auto.
  - apply SemanticFacts.every_check_program; auto.
Qed.

(** The scope counter after any statement, block or program check is the
    one before it. *)
Theorem checks_restore_scope_counter :
  forall node st,
    current_scope (table (snd (check_statement node st)))
    = current_scope (table st)
    /\ current_scope (table (snd (check_block node st)))
       = current_scope (table st)
    /\ current_scope (table (snd (check_program node st)))
       = current_scope (table st).
Proof.
  intros node st.
  destruct (keeps_scope_every_check node) as [_ [Hs [Hb Hp]]].
  repeat split; [apply Hs|apply Hb|apply Hp].
Qed.

(** The expression check never writes the symbol table. *)
Theorem check_expression_reads_only :
  forall node st, table (snd (check_expression node st)) = table st.
Proof. intros. apply SemanticFacts.check_expression_table. Qed.



(** The result of a parse that did not run out of fuel is the result with
    any larger fuel. *)
Theorem parse_result_independent_of_fuel :
  forall sz f f' st,
    (f <= f')%nat ->
    Parser.parse sz f st <> OutOfFuel ->
    Parser.parse sz f' st = Parser.parse sz f st.
Proof. intros sz f f' st Hle H. apply ParserFacts.parse_mono; assumption. Qed.

Lemma parse_result_independent_of_fuel_witness :
  Parser.parse 100 50 (Parser.parser_init 100 1 "x = 1;")
  = Parser.parse 100 3 (Parser.parser_init 100 1 "x = 1;").
Proof.
  apply parse_result_independent_of_fuel.
  - lia.
  - vm_compute. discriminate.
Defined.

(** At end of input [get_next_token] returns the end-of-file token, with
    the lexeme "EOF" and the line the counter had, and resets the line
    counter to 0. *)
Theorem eof_resets_line_counter :
  forall sz input pos ln tok pos' ln',
    Lexer.get_next_token sz input pos ln = (tok, pos', ln') ->
    tok_type tok = TOKEN_EOF ->
    lexeme tok = "EOF" /\ line tok = ln /\ ln' = 0.
Proof.
  intros sz input pos ln tok pos' ln'. unfold Lexer.get_next_token.
  destruct (Lexer.skip_blanks _ input pos ln) as [pos1 line1].
  destruct (Lexer.is_nul _).
  { intros H; inversion H; subst. auto. }
  destruct (Lexer.isdigit _).
  { destruct (Lexer.scan_lexeme _ _ _ _ _ _).
    intros H; inversion H; subst. discriminate. }
  destruct (Lexer.is_ident_start _).
  { destruct (Lexer.scan_lexeme _ _ _ _ _ _) as [lex pos2].
    intros H; inversion H; subst. simpl.
    unfold Lexer.is_keyword, Lexer.keywords. simpl.
    repeat match goal with
           | |- context [String.eqb ?a ?b] => destruct (String.eqb a b)
           end; simpl; discriminate. }
  pose proof (LexerFacts.operator_token_not_eof
                (Lexer.char_at input pos1) input (S pos1) ln) as Hne.
  destruct (Lexer.operator_token _ _ _ _) as [tok0 pos2].
  intros H; inversion H; subst. simpl in Hne. contradiction.
Qed.

Lemma eof_resets_line_counter_witness :
  lexeme (mkToken TOKEN_EOF "EOF" 7 ERROR_NONE) = "EOF"
  /\ line (mkToken TOKEN_EOF "EOF" 7 ERROR_NONE) = 7 /\ 0 = 0.
Proof.
  apply (eof_resets_line_counter 100 "x  " 1%nat 7
           (mkToken TOKEN_EOF "EOF" 7 ERROR_NONE) 3%nat 0).
  - vm_compute. reflexivity.
  - reflexivity.
Defined.

(** Declaration, then use: "int x; x = 5; print x;" is valid, prints
    nothing, and leaves [x] in the table marked initialized (for a lexeme
    buffer of 6 bytes at least, which "print" needs). *)
Theorem declaration_then_use_is_valid :
  forall sz f : nat,
    (6 <= sz)%nat ->
    parse_and_dump sz (3 + f) "int x; x = 5; print x;"
    = Ok (true,
          mkAState (mkSymbolTable [mkSymbol "x" TOKEN_INT 0 1 true] 0) []).
Proof.
  intros sz f Hsz. do 6 (destruct sz as [|sz]; [lia|]).
  apply parse_and_dump_mono. vm_compute. reflexivity.
Qed.

Lemma declaration_then_use_is_valid_witness :
  parse_and_dump 100 3 "int x; x = 5; print x;"
  = Ok (true,
        mkAState (mkSymbolTable [mkSymbol "x" TOKEN_INT 0 1 true] 0) []).
Proof. apply (declaration_then_use_is_valid 100 0). lia. Defined.

(** Shadowing: in "int x; { int x; x = 1; } print x;" the inner [x] is
    gone when the block is left, and the outer [print x] is reported as a use
    of an uninitialized variable, which leaves the program valid. *)
Theorem shadowing_warns_and_stays_valid :
  forall sz f : nat,
    (6 <= sz)%nat ->
    parse_and_dump sz (3 + f) "int x; { int x; x = 1; } print x;"
    = Ok (true,
          mkAState (mkSymbolTable [mkSymbol "x" TOKEN_INT 0 1 false] 0)
            [mkDiagnostic SEM_ERROR_UNINITIALIZED_VARIABLE "x" 1]).
Proof.
  intros sz f Hsz. do 6 (destruct sz as [|sz]; [lia|]).
  apply parse_and_dump_mono. vm_compute. reflexivity.
Qed.

Lemma shadowing_warns_and_stays_valid_witness :
  parse_and_dump 100 3 "int x; { int x; x = 1; } print x;"
  = Ok (true,
        mkAState (mkSymbolTable [mkSymbol "x" TOKEN_INT 0 1 false] 0)
          [mkDiagnostic SEM_ERROR_UNINITIALIZED_VARIABLE "x" 1]).
Proof. apply (shadowing_warns_and_stays_valid 100 0). lia. Defined.

(** Undeclared use: "x = 5;" is invalid, with the one diagnostic that [x]
    is undeclared. *)
Theorem undeclared_assignment_is_invalid :
  forall sz f : nat,
    parse_and_analyze sz (2 + f) "x = 5;"
    = Ok (false, [mkDiagnostic SEM_ERROR_UNDECLARED_VARIABLE "x" 1]).
Proof.
  intros sz f. apply parse_and_analyze_mono. vm_compute. reflexivity.
Qed.

(** Repeat-until: the body is the first child and the condition the
    second (for a lexeme buffer of 7 bytes at least, which "repeat"
    needs). *)
Theorem repeat_until_body_then_condition :
  forall sz f : nat,
    (7 <= sz)%nat ->
    Parser.parse_string sz (3 + f) "repeat x = 1; until (x);"
    = Ok (Node AST_PROGRAM (tok1 TOKEN_REPEAT "repeat")
            (Some (Node AST_REPEAT (tok1 TOKEN_REPEAT "repeat")
                     (Some (Node AST_ASSIGN (tok1 TOKEN_IDENTIFIER "x")
                              (Some (Ident "x")) (Some (Num "1")) None))
                     (Some (Ident "x")) None))
            None None).
Proof.
  intros sz f Hsz. do 7 (destruct sz as [|sz]; [lia|]).
  apply ParserFacts.parse_string_mono. vm_compute. reflexivity.
Qed.

Lemma repeat_until_body_then_condition_witness :
  Parser.parse_string 100 3 "repeat x = 1; until (x);"
  = Ok (Node AST_PROGRAM (tok1 TOKEN_REPEAT "repeat")
          (Some (Node AST_REPEAT (tok1 TOKEN_REPEAT "repeat")
                   (Some (Node AST_ASSIGN (tok1 TOKEN_IDENTIFIER "x")
                            (Some (Ident "x")) (Some (Num "1")) None))
                   (Some (Ident "x")) None))
          None None).
Proof. apply (repeat_until_body_then_condition 100 0). lia. Defined.

(** The fatal path: "int ;" exits with the missing-identifier error at the
    semicolon, on line 1 (for a lexeme buffer of 4 bytes at least). *)
Theorem missing_identifier_is_fatal :
  forall sz f : nat,
    (4 <= sz)%nat ->
    Parser.parse_string sz (1 + f) "int ;"
    = Fatal (ParseErrorExit PARSE_ERROR_MISSING_IDENTIFIER
               (tok1 TOKEN_SEMICOLON ";")).
Proof.
  intros sz f Hsz. do 4 (destruct sz as [|sz]; [lia|]).
  unfold Parser.parse_string.
  rewrite (ParserFacts.parse_mono _ 1 (1 + f)); [|lia|];
    vm_compute; [reflexivity|discriminate].
Qed.

Lemma missing_identifier_is_fatal_witness :
  Parser.parse_string 100 1 "int ;"
  = Fatal (ParseErrorExit PARSE_ERROR_MISSING_IDENTIFIER
             (tok1 TOKEN_SEMICOLON ";")).
Proof. apply (missing_identifier_is_fatal 100 0). lia. Defined.

(* ================================================================= *)
(** * The symbol table *)

Module TableFacts.
Import Semantic Shape Scopes.

(** *** Names and the 100-byte name buffer *)

Lemma substring_all s : String.substring 0 (String.length s) s = s.
Proof. induction s as [|a s IH]; simpl; [reflexivity|]. rewrite IH. reflexivity. Qed.

Lemma substring_longer n s :
  (String.length s <= n)%nat -> String.substring 0 n s = s.
Proof.
  revert n. induction s as [|a s IH]; intros n H; simpl.
  - destruct n; reflexivity.
  - destruct n as [|n]; simpl in *; [lia|]. rewrite IH by lia. reflexivity.
Qed.

Lemma substring_length_short n s :
  (n <= String.length s)%nat -> String.length (String.substring 0 n s) = n.
Proof.
  revert n. induction s as [|a s IH]; intros n H; simpl in *.
  - destruct n; [reflexivity|lia].
  - destruct n as [|n]; simpl; [reflexivity|]. rewrite IH by lia. reflexivity.
Qed.

(** A name of at most 99 characters is stored as it is; a longer one is
    stored cut to 99 characters, which is another name. *)
Lemma copy_name_short nm :
  (String.length nm <= 99)%nat -> copy_name nm = nm.
Proof. apply substring_longer. Qed.

Lemma copy_name_long nm :
  (99 < String.length nm)%nat -> copy_name nm <> nm.
Proof.
  intros H E. unfold copy_name in E.
  pose proof (substring_length_short 99 nm) as L.
  rewrite E in L. lia.
Qed.

(** *** Lookups *)

Lemma lookup_from_shift keep l i :
  lookup_from keep l (S i) = shift (lookup_from keep l i).
Proof.
  revert i. induction l as [|a l IH]; intros i; simpl; [reflexivity|].
  destruct (keep a); [reflexivity|]. apply IH.
Qed.

Lemma lookup_from_nth keep l i j s :
  lookup_from keep l i = Some (j, s) ->
  (i <= j)%nat /\ nth_error l (j - i) = Some s /\ keep s = true
  /\ (forall k s', (k < j - i)%nat -> nth_error l k = Some s' ->
                   keep s' = false).
Proof.
  revert i. induction l as [|a l IH]; intros i; simpl; [discriminate|].
  destruct (keep a) eqn:Ha.
  - intros H; inversion H; subst. rewrite Nat.sub_diag. simpl.
    repeat split; auto. intros k s' Hk. lia.
  - intros H. apply IH in H. destruct H as [Hle [Hn [Hk Hbefore]]].
    split; [lia|]. replace (j - i)%nat with (S (j - S i)) by lia. simpl.
    repeat split; auto.
    intros k s' Hlt Hs'. destruct k as [|k]; simpl in Hs'.
    + inversion Hs'; subst. exact Ha.
    + apply (Hbefore k); [lia|exact Hs'].
Qed.

(** *** Scopes *)

Lemma well_scoped_enter t : well_scoped t -> well_scoped (enter_scope t).
Proof.
  unfold well_scoped. simpl. intros H.
  eapply Forall_impl; [|exact H]. simpl. intros s Hs. lia.
Qed.

Lemma filter_all (A : Type) (keep : A -> bool) l :
  Forall (fun x => keep x = true) l -> filter keep l = l.
Proof.
  induction 1 as [|x l Hx Hl IH]; simpl; [reflexivity|].
  rewrite Hx, IH. reflexivity.
Qed.

Lemma filter_none (A : Type) (keep : A -> bool) l :
  Forall (fun x => keep x = false) l -> filter keep l = [].
Proof.
  induction 1 as [|x l Hx Hl IH]; simpl; [reflexivity|].
  rewrite Hx, IH. reflexivity.
Qed.

(** Leaving a scope removes what was declared in it and nothing else. *)
Lemma exit_scope_drops_fresh c fresh kept :
  Forall (fun s => scope_level s = c + 1) fresh ->
  Forall (fun s => scope_level s <= c) kept ->
  exit_scope (mkSymbolTable (fresh ++ kept) (c + 1)) = mkSymbolTable kept c.
Proof.
  intros Hf Hk. unfold exit_scope, remove_symbols_in_current_scope. simpl.
  rewrite filter_app, filter_none, filter_all; simpl.
  - f_equal. lia.
  - eapply Forall_impl; [|exact Hk]. simpl. intros s Hs.
    destruct (Z.eqb_spec (scope_level s) (c + 1)); [lia|reflexivity].
  - eapply Forall_impl; [|exact Hf]. simpl. intros s Hs.
    rewrite Hs, Z.eqb_refl. reflexivity.
Qed.

Lemma flags_grow_refl l : flags_grow l l.
Proof. induction l; constructor; auto. Qed.

Lemma flags_grow_trans a b c :
  flags_grow a b -> flags_grow b c -> flags_grow a c.
Proof.
  intros Hab. revert c. induction Hab as [|x y a b [E I] Hab IH];
    intros c Hbc; inversion Hbc as [|y' z b' c' [E' I'] Hbc']; subst.
  - constructor.
  - constructor; [|apply IH; assumption].
    split; [congruence|auto].
Qed.

Lemma flags_grow_levels (Q : Z -> Prop) a b :
  flags_grow a b ->
  Forall (fun s => Q (scope_level s)) a ->
  Forall (fun s => Q (scope_level s)) b.
Proof.
  induction 1 as [|x y a b [E I] Hab IH]; intros H; [constructor|].
  inversion H; subst. constructor; [|auto].
  assert (scope_level x = scope_level y) as <-
      by exact (f_equal scope_level E).
  assumption.
Qed.

Lemma flags_grow_set_initialized i l : flags_grow l (set_initialized i l).
Proof.
  revert i. induction l as [|a l IH]; intros [|i]; simpl.
  - constructor.
  - constructor.
  - constructor; [split; [reflexivity|reflexivity]|apply flags_grow_refl].
  - constructor; [split; [reflexivity|auto]|apply IH].
Qed.

(** *** Every check pushes at the current level only *)

Lemma well_scoped_after st fresh kept t' :
  well_scoped (table st) ->
  head t' = (fresh ++ kept)%list ->
  Forall (fun s => scope_level s = current_scope (table st)) fresh ->
  flags_grow (head (table st)) kept ->
  current_scope t' = current_scope (table st) ->
  well_scoped t'.
Proof.
  unfold well_scoped. intros Hw Hh Hf Hk Hc. rewrite Hh, Hc.
  apply Forall_app. split.
  - eapply Forall_impl; [|exact Hf]. simpl. intros s Hs. lia.
  - apply (flags_grow_levels (fun z => z <= current_scope (table st))
             (head (table st)) kept Hk Hw).
Qed.

Lemma pushes_ext f g :
  (forall st, f st = g st) -> pushes_at_level f -> pushes_at_level g.
Proof. intros E H st. rewrite <- E. apply H. Qed.

Lemma pushes_silent v : pushes_at_level (fun st => (v, st)).
Proof.
  intros st Hw. exists [], (head (table st)). simpl.
  repeat split; [constructor|apply flags_grow_refl].
Qed.

Lemma pushes_seq f g :
  pushes_at_level f -> pushes_at_level g -> pushes_at_level (seq_and f g).
Proof.
  intros Hf Hg st Hw. unfold seq_and.
  destruct (Hf st Hw) as [fresh1 [kept1 [H1 [F1 [G1 C1]]]]].
  destruct (f st) as [v1 st1]; simpl in *.
  assert (well_scoped (table st1)) as Hw1
      by (eapply well_scoped_after; eauto).
  destruct (Hg st1 Hw1) as [fresh2 [kept2 [H2 [F2 [G2 C2]]]]].
  destruct (g st1) as [v2 st2]; simpl in *.
  rewrite H1 in G2. unfold flags_grow in G2.
  apply Forall2_app_inv_l in G2.
  destruct G2 as [k2a [k2b [Ga [Gb Ek]]]]. subst kept2.
  exists (fresh2 ++ k2a)%list, k2b. repeat split.
  - rewrite H2, app_assoc. reflexivity.
  - apply Forall_app. split.
    + eapply Forall_impl; [|exact F2]. simpl. intros s Hs. congruence.
    + apply (flags_grow_levels (fun z => z = current_scope (table st))
               fresh1 k2a Ga F1).
  - eapply flags_grow_trans; eassumption.
  - congruence.
Qed.

(** Around a block the table comes back: what the block declared is gone,
    and the symbols that were there are there, in order, some of them now
    initialized. *)
Lemma scoped_restores f :
  pushes_at_level f ->
  forall st,
    well_scoped (table st) ->
    flags_grow (head (table st)) (head (table (snd (scoped f st))))
    /\ current_scope (table (snd (scoped f st))) = current_scope (table st).
Proof.
  intros Hf st Hw. unfold scoped.
  assert (well_scoped (table (with_table enter_scope st))) as Hw0
      by (apply well_scoped_enter; exact Hw).
  destruct (Hf _ Hw0) as [fresh [kept [H1 [F1 [G1 C1]]]]].
  destruct (f (with_table enter_scope st)) as [v [[h1 c1] o1]].
  simpl in *. subst h1 c1.
  assert (Forall (fun s => scope_level s <= current_scope (table st)) kept)
    as Hk
      by apply (flags_grow_levels (fun z => z <= current_scope (table st))
                  (head (table st)) kept G1 Hw).
  pose proof (exit_scope_drops_fresh (current_scope (table st)) fresh kept
                F1 Hk) as E.
  unfold exit_scope, remove_symbols_in_current_scope in E. simpl in E.
  injection E as E1 E2. rewrite E1. split; [exact G1|lia].
Qed.

Lemma pushes_scoped f : pushes_at_level f -> pushes_at_level (scoped f).
Proof.
  intros Hf st Hw. destruct (scoped_restores f Hf st Hw) as [G C].
  exists [], (head (table (snd (scoped f st)))). simpl.
  repeat split; [constructor|exact G|exact C].
Qed.

Lemma pushes_identifier tok l r e :
  pushes_at_level (check_expression (Node AST_IDENTIFIER tok l r e)).
Proof.
  intros st Hw. exists [], (head (table st)).
  rewrite SemanticFacts.check_expression_table. simpl.
  repeat split; [constructor|apply flags_grow_refl].
Qed.

Lemma pushes_declaration node : pushes_at_level (check_declaration node).
Proof.
  intros st Hw. unfold check_declaration.
  destruct (node_type node);
    try (exists [], (head (table st)); simpl;
         repeat split; [constructor|apply flags_grow_refl]).
  destruct (lookup_symbol_current_scope _ _); simpl.
  - exists [], (head (table st)). simpl.
    repeat split; [constructor|apply flags_grow_refl].
  - eexists [_], (head (table st)). simpl.
    repeat split; [repeat constructor|apply flags_grow_refl].
Qed.

Lemma pushes_assignment tok lhs rhs e :
  pushes_at_level (check_expression rhs) ->
  pushes_at_level
    (check_assignment (Node AST_ASSIGN tok (Some lhs) (Some rhs) e)).
Proof.
  intros _ st Hw. simpl.
  destruct (lookup_symbol _ _) as [[i s]|]; simpl.
  - pose proof (SemanticFacts.check_expression_table rhs st) as T.
    destruct (check_expression rhs st) as [v st1]; simpl in T.
    destruct v; simpl; rewrite T.
    + exists [], (set_initialized i (head (table st))). simpl.
      repeat split; [constructor|apply flags_grow_set_initialized].
    + exists [], (head (table st)). simpl.
      repeat split; [constructor|apply flags_grow_refl].
  - exists [], (head (table st)). simpl.
    repeat split; [constructor|apply flags_grow_refl].
Qed.

Lemma pushes_every_check node :
  pushes_at_level (check_statement node)
  /\ pushes_at_level (check_block node)
  /\ pushes_at_level (check_program node).
Proof.
  assert (pushes_at_level (check_statement node)
          /\ pushes_at_level (check_block node)) as [Hs Hb].
  { apply SemanticFacts.every_check_statement_block.
    - exact pushes_ext.
    - apply pushes_silent.
    - apply pushes_silent.
    - exact pushes_seq.
    - exact pushes_scoped.
    - exact pushes_identifier.
    - exact pushes_declaration.
    - exact pushes_assignment. }
  repeat split; [exact Hs|exact Hb|].
  apply SemanticFacts.every_check_program.
  - exact pushes_ext.
  - apply pushes_silent.
  - apply pushes_silent.
  - exact pushes_seq.
  - exact pushes_scoped.
  - exact pushes_identifier.
  - exact pushes_declaration.
  - exact pushes_assignment.
Qed.

Lemma pushes_on_node (f : ASTNode -> Checker) o :
  (forall n, pushes_at_level (f n)) -> pushes_at_level (on_node f o).
Proof.
  intros H. destruct o as [n|]; simpl.
  - apply (pushes_ext (f n)); [reflexivity|apply H].
  - apply pushes_silent.
Qed.

(** *** The order of the table *)

Lemma ordered_weaken b b' l : b <= b' -> ordered b l -> ordered b' l.
Proof. destruct l; simpl; [auto|]. intros H [H1 H2]. split; [lia|exact H2]. Qed.

Lemma ordered_bound b l :
  ordered b l -> Forall (fun s => scope_level s <= b) l.
Proof.
  revert b. induction l as [|a l IH]; intros b H; [constructor|].
  destruct H as [H1 H2]. constructor; [exact H1|].
  apply IH. eapply ordered_weaken; eassumption.
Qed.

Lemma scope_ordered_well_scoped t : scope_ordered t -> well_scoped t.
Proof. apply ordered_bound. Qed.

Lemma ordered_flags b a1 a2 :
  flags_grow a1 a2 -> ordered b a1 -> ordered b a2.
Proof.
  intros H. revert b. induction H as [|x y a1 a2 [E I] H IH]; intros b;
    [auto|].
  simpl. assert (scope_level x = scope_level y) as <-
      by exact (f_equal scope_level E).
  intros [H1 H2]. auto.
Qed.

Lemma ordered_push c fresh kept :
  Forall (fun s => scope_level s = c) fresh ->
  ordered c kept -> ordered c (fresh ++ kept).
Proof.
  induction 1 as [|x fresh Hx Hf IH]; intros Hk; simpl; [exact Hk|].
  split; [lia|]. rewrite Hx. apply IH. exact Hk.
Qed.

Lemma pushes_keeps_order f :
  pushes_at_level f ->
  forall st, scope_ordered (table st) -> scope_ordered (table (snd (f st))).
Proof.
  intros Hf st Ho.
  destruct (Hf st (scope_ordered_well_scoped _ Ho))
    as [fresh [kept [H1 [F1 [G1 C1]]]]].
  unfold scope_ordered. rewrite H1, C1.
  apply ordered_push; [exact F1|].
  eapply ordered_flags; eassumption.
Qed.

Lemma lookup_from_deepest keep b l i j s :
  ordered b l ->
  lookup_from keep l i = Some (j, s) ->
  forall s', In s' l -> keep s' = true -> scope_level s' <= scope_level s.
Proof.
  revert b i. induction l as [|a l IH]; intros b i Ho H s' Hin Hk;
    [destruct Hin|].
  simpl in H. destruct Ho as [Ha Hl].
  destruct (keep a) eqn:Ka.
  - inversion H; subst. destruct Hin as [<-|Hin]; [lia|].
    apply ordered_bound in Hl. rewrite Forall_forall in Hl. auto.
  - destruct Hin as [<-|Hin]; [congruence|]. eapply IH; eauto.
Qed.

(** *** Marking a symbol initialized *)

Lemma lookup_from_set_initialized keep l k j s :
  (forall x b,
      keep (mkSymbol (name x) (type x) (scope_level x) (line_declared x) b)
      = keep x) ->
  lookup_from keep l k = Some (j, s) ->
  lookup_from keep (set_initialized (j - k) l) k
  = Some (j, mkSymbol (name s) (type s) (scope_level s) (line_declared s)
                      true).
Proof.
  intros Hk. revert k. induction l as [|a l IH]; intros k H; simpl in H;
    [discriminate|].
  destruct (keep a) eqn:Ka.
  - inversion H; subst. rewrite Nat.sub_diag. simpl. rewrite Hk, Ka.
    reflexivity.
  - pose proof (lookup_from_nth keep l (S k) j s H) as [Hle _].
    replace (j - k)%nat with (S (j - S k)) by lia. simpl. rewrite Ka.
    apply IH. exact H.
Qed.

(** *** Insert, then look up *)

Lemma add_symbol_lookup_other t nm ty ln nm' :
  nm' <> copy_name nm ->
  lookup_symbol (add_symbol t nm ty ln) nm' = shift (lookup_symbol t nm')
  /\ lookup_symbol_current_scope (add_symbol t nm ty ln) nm'
     = shift (lookup_symbol_current_scope t nm').
Proof.
  intros Hne.
  unfold lookup_symbol, lookup_symbol_current_scope, add_symbol. simpl.
  destruct (String.eqb_spec (copy_name nm) nm') as [E|_];
    [congruence|]. simpl.
  split; apply lookup_from_shift.
Qed.

Lemma add_symbol_lookup_same t nm ty ln :
  (String.length nm <= 99)%nat ->
  lookup_symbol (add_symbol t nm ty ln) nm
  = Some (0%nat, mkSymbol nm ty (current_scope t) ln false)
  /\ lookup_symbol_current_scope (add_symbol t nm ty ln) nm
     = Some (0%nat, mkSymbol nm ty (current_scope t) ln false).
Proof.
  intros Hlen.
  unfold lookup_symbol, lookup_symbol_current_scope, add_symbol. simpl.
  rewrite (copy_name_short nm Hlen), String.eqb_refl, Z.eqb_refl.
  split; reflexivity.
Qed.

End TableFacts.

(* ================================================================= *)
(** * Properties of the symbol table and of the checks on it *)

Import Semantic Shape Scopes.

(** Insert, then look up.  A name of at most 99 characters is found at the
    head of the table right after [add_symbol], by both lookups, with the
    current level, the given line and [is_initialized] unset; the lookup of
    any name other than the stored one goes on to the older symbols as
    before; a name of 100 characters or more is stored cut, so looking the
    full name up does not find the symbol just added. *)
Theorem add_symbol_then_lookup :
  forall t nm ty ln,
    ((String.length nm <= 99)%nat ->
     lookup_symbol (add_symbol t nm ty ln) nm
     = Some (0%nat, mkSymbol nm ty (current_scope t) ln false)
     /\ lookup_symbol_current_scope (add_symbol t nm ty ln) nm
        = Some (0%nat, mkSymbol nm ty (current_scope t) ln false))
    /\ (forall nm',
           nm' <> copy_name nm ->
           lookup_symbol (add_symbol t nm ty ln) nm'
           = shift (lookup_symbol t nm')
           /\ lookup_symbol_current_scope (add_symbol t nm ty ln) nm'
              = shift (lookup_symbol_current_scope t nm'))
    /\ ((99 < String.length nm)%nat ->
        lookup_symbol (add_symbol t nm ty ln) nm
        = shift (lookup_symbol t nm)).
Proof.
  intros t nm ty ln. split; [|split].
  - apply TableFacts.add_symbol_lookup_same.
  - intros nm'. apply TableFacts.add_symbol_lookup_other.
  - intros Hlen. apply TableFacts.add_symbol_lookup_other. intros E.
    apply (TableFacts.copy_name_long nm Hlen). congruence.
Qed.

Lemma add_symbol_then_lookup_witness :
  lookup_symbol (add_symbol init_symbol_table "total" TOKEN_INT 3) "total"
  = Some (0%nat, mkSymbol "total" TOKEN_INT 0 3 false)
  /\ lookup_symbol (add_symbol init_symbol_table "total" TOKEN_INT 3) "x"
     = None.
Proof.
  destruct (add_symbol_then_lookup init_symbol_table "total" TOKEN_INT 3)
    as [Hshort [Hother _]].
  split.
  - apply Hshort. simpl. lia.
  - apply (Hother "x"). vm_compute. discriminate.
Defined.

(** Enter, then exit.  On a table with no symbol deeper than the current
    scope, [exit_scope] undoes [enter_scope] and every [add_symbol] made in
    between: the table comes back as it was, list and counter. *)
Theorem exit_scope_undoes_enter_scope :
  forall t,
    well_scoped t ->
    exit_scope (enter_scope t) = t
    /\ (forall nm ty ln,
           exit_scope (add_symbol (enter_scope t) nm ty ln) = t)
    /\ (forall fresh,
           Forall (fun s => scope_level s = current_scope t + 1) fresh ->
           exit_scope (mkSymbolTable (fresh ++ head t) (current_scope t + 1))
           = t).
Proof.
  intros [h c] Hw. unfold well_scoped in Hw. simpl in Hw.
  assert (forall fresh,
             Forall (fun s => scope_level s = c + 1) fresh ->
             exit_scope (mkSymbolTable (fresh ++ h) (c + 1))
             = mkSymbolTable h c) as Hgen
      by (intros fresh Hf; apply TableFacts.exit_scope_drops_fresh;
          assumption).
  split; [|split].
  - apply (Hgen []). constructor.
  - intros nm ty ln.
    apply (Hgen [mkSymbol (copy_name nm) ty (c + 1) ln false]).
    repeat constructor.
  - exact Hgen.
Qed.

Lemma exit_scope_undoes_enter_scope_witness :
  exit_scope
    (add_symbol
       (enter_scope (mkSymbolTable [mkSymbol "x" TOKEN_INT 0 1 true] 0))
       "y" TOKEN_INT 2)
  = mkSymbolTable [mkSymbol "x" TOKEN_INT 0 1 true] 0.
Proof.
  destruct (exit_scope_undoes_enter_scope
              (mkSymbolTable [mkSymbol "x" TOKEN_INT 0 1 true] 0))
    as [_ [Hadd _]].
  - repeat constructor. simpl. lia.
  - apply Hadd.
Defined.

(** Declaring a name twice at one level.  After the declaration check of a
    name of at most 99 characters, whatever it returned, the declaration
    check of the same name at the same level is invalid.  For a name of 100
    characters or more that is not in the table at the current level, both
    declarations are accepted: the table then holds two symbols with the same
    stored name at the same level. *)
Theorem redeclaration_detected_up_to_99_characters :
  forall tok l r e tok' l' r' e' st,
    lexeme tok' = lexeme tok ->
    ((String.length (lexeme tok) <= 99)%nat ->
     fst (check_declaration (Node AST_VARDECL tok' l' r' e')
            (snd (check_declaration (Node AST_VARDECL tok l r e) st)))
     = false)
    /\ ((99 < String.length (lexeme tok))%nat ->
        lookup_symbol_current_scope (table st) (lexeme tok) = None ->
        check_declaration (Node AST_VARDECL tok' l' r' e')
          (snd (check_declaration (Node AST_VARDECL tok l r e) st))
        = (true,
           mkAState
             (mkSymbolTable
                (mkSymbol (copy_name (lexeme tok)) TOKEN_INT
                          (current_scope (table st)) (line tok') false
                 :: mkSymbol (copy_name (lexeme tok)) TOKEN_INT
                             (current_scope (table st)) (line tok) false
                 :: head (table st))
                (current_scope (table st)))
             (out st))).
Proof.
  intros tok l r e tok' l' r' e' st Hsame. split.
  - intros Hlen. unfold check_declaration. simpl. rewrite Hsame.
    destruct (lookup_symbol_current_scope (table st) (lexeme tok))
      as [[i s]|] eqn:E; simpl.
    + rewrite E. reflexivity.
    + destruct (TableFacts.add_symbol_lookup_same (table st) (lexeme tok)
                  TOKEN_INT (line tok) Hlen) as [_ Hcur].
      rewrite Hcur. reflexivity.
  - intros Hlen Hnone. unfold check_declaration. simpl. rewrite Hsame, Hnone.
    simpl.
    destruct (TableFacts.add_symbol_lookup_other (table st) (lexeme tok)
                TOKEN_INT (line tok) (lexeme tok)) as [_ Hcur].
    { intros E. apply (TableFacts.copy_name_long _ Hlen). congruence. }
    rewrite Hcur, Hnone. reflexivity.
Qed.

Lemma redeclaration_detected_up_to_99_characters_witness :
  fst (check_declaration
         (Node AST_VARDECL (mkToken TOKEN_IDENTIFIER "count" 2 ERROR_NONE)
               None None None)
         (snd (check_declaration
                 (Node AST_VARDECL (tok1 TOKEN_IDENTIFIER "count")
                       None None None)
                 initial_state)))
  = false.
Proof.
  destruct (redeclaration_detected_up_to_99_characters
              (tok1 TOKEN_IDENTIFIER "count") None None None
              (mkToken TOKEN_IDENTIFIER "count" 2 ERROR_NONE) None None None
              initial_state eq_refl) as [Hshort _].
  apply Hshort. simpl. lia.
Defined.

(** What a check may do to the table.  From a table with no symbol deeper
    than the current scope, the statement check and the program check on any
    tree leave a table made of symbols of the current level put on top
    (the declarations that outlive the check) followed by the symbols that
    were there, in their order, unchanged but for [is_initialized] flags that
    went from unset to set; the scope counter is as before, and again no
    symbol is deeper than it. *)
Theorem checks_push_at_the_current_level :
  forall node st,
    well_scoped (table st) ->
    (exists fresh kept,
        head (table (snd (check_statement node st))) = (fresh ++ kept)%list
        /\ Forall (fun s => scope_level s = current_scope (table st)) fresh
        /\ flags_grow (head (table st)) kept)
    /\ (exists fresh kept,
           head (table (snd (check_program node st))) = (fresh ++ kept)%list
           /\ Forall (fun s => scope_level s = current_scope (table st)) fresh
           /\ flags_grow (head (table st)) kept)
    /\ well_scoped (table (snd (check_statement node st)))
    /\ well_scoped (table (snd (check_program node st))).
Proof.
  intros node st Hw.
  destruct (TableFacts.pushes_every_check node) as [Hs [_ Hp]].
  destruct (Hs st Hw) as [f1 [k1 [H1 [F1 [G1 C1]]]]].
  destruct (Hp st Hw) as [f2 [k2 [H2 [F2 [G2 C2]]]]].
  repeat split.
  - exists f1, k1. auto.
  - exists f2, k2. auto.
  - eapply TableFacts.well_scoped_after; eauto.
  - eapply TableFacts.well_scoped_after; eauto.
Qed.

Lemma checks_push_at_the_current_level_witness :
  well_scoped
    (table (snd (check_program
                   (Node AST_VARDECL (tok1 TOKEN_IDENTIFIER "x")
                         None None None)
                   initial_state))).
Proof.
  destruct (checks_push_at_the_current_level
              (Node AST_VARDECL (tok1 TOKEN_IDENTIFIER "x") None None None)
              initial_state) as [_ [_ [_ H]]].
  - constructor.
  - exact H.
Defined.

(** Declarations do not leave their block.  From a table with no symbol
    deeper than the current scope, the block check on any tree, and the
    statement check on any Block node, leave the symbols that were there, no
    more and no fewer and in the same order, a symbol changed at most by
    having been marked initialized; the scope counter is as before. *)
Theorem block_check_leaves_no_declaration :
  forall node st,
    well_scoped (table st) ->
    flags_grow (head (table st)) (head (table (snd (check_block node st))))
    /\ current_scope (table (snd (check_block node st)))
       = current_scope (table st)
    /\ (node_type node = AST_BLOCK ->
        check_statement node st = check_block node st).
Proof.
  intros [ty tok l r e] st Hw.
  assert (pushes_at_level
            (seq_and (on_node check_statement l) (on_node check_block r)))
    as Hin.
  { apply TableFacts.pushes_seq; apply TableFacts.pushes_on_node;
      intros n; apply (TableFacts.pushes_every_check n). }
  pose proof (TableFacts.scoped_restores _ Hin st Hw) as [G C].
  rewrite <- SemanticFacts.check_block_shape with (ty := ty) (tok := tok)
                                                   (e := e) in G, C.
  repeat split; [exact G|exact C|].
  simpl. intros ->. reflexivity.
Qed.

Lemma block_check_leaves_no_declaration_witness :
  flags_grow []
    (head (table (snd (check_block
                         (Node AST_BLOCK (tok1 TOKEN_IDENTIFIER "x")
                               (Some (Node AST_VARDECL
                                        (tok1 TOKEN_IDENTIFIER "x")
                                        None None None))
                               None None)
                         initial_state)))).
Proof.
  destruct (block_check_leaves_no_declaration
              (Node AST_BLOCK (tok1 TOKEN_IDENTIFIER "x")
                    (Some (Node AST_VARDECL (tok1 TOKEN_IDENTIFIER "x")
                             None None None))
                    None None)
              initial_state) as [H _].
  - constructor.
  - exact H.
Defined.

(** The innermost declaration wins.  A table whose symbols get no deeper
    from the head on, none deeper than the current scope, is still so after
    the statement check and the program check on any tree; and in such a
    table [lookup_symbol] returns, of the symbols with the name asked for,
    one of the deepest scope level. *)
Theorem lookup_finds_the_innermost_symbol :
  (forall node st,
      scope_ordered (table st) ->
      scope_ordered (table (snd (check_statement node st)))
      /\ scope_ordered (table (snd (check_program node st))))
  /\ (forall t nm i s,
         scope_ordered t ->
         lookup_symbol t nm = Some (i, s) ->
         name s = nm
         /\ forall s', In s' (head t) -> name s' = nm ->
                       scope_level s' <= scope_level s).
Proof.
  split.
  - intros node st Ho.
    destruct (TableFacts.pushes_every_check node) as [Hs [_ Hp]].
    split; apply TableFacts.pushes_keeps_order; assumption.
  - intros t nm i s Ho Hl. unfold lookup_symbol in Hl. split.
    + apply SemanticFacts.lookup_from_Some in Hl. destruct Hl as [_ Hk].
      apply String.eqb_eq in Hk. exact Hk.
    + intros s' Hin Hn.
      eapply (TableFacts.lookup_from_deepest _ _ _ _ _ _ Ho Hl s' Hin).
      rewrite Hn. apply String.eqb_refl.
Qed.

Lemma lookup_finds_the_innermost_symbol_witness :
  name (mkSymbol "x" TOKEN_INT 1 2 false) = "x"
  /\ scope_level (mkSymbol "x" TOKEN_INT 0 1 true)
     <= scope_level (mkSymbol "x" TOKEN_INT 1 2 false).
Proof.
  destruct lookup_finds_the_innermost_symbol as [_ H].
  destruct (H (mkSymbolTable [mkSymbol "x" TOKEN_INT 1 2 false;
                              mkSymbol "x" TOKEN_INT 0 1 true] 1)
              "x" 0%nat (mkSymbol "x" TOKEN_INT 1 2 false)) as [Hn Hd].
  - unfold scope_ordered. simpl. intuition lia.
  - reflexivity.
  - split; [exact Hn|]. apply Hd; [right; left; reflexivity|reflexivity].
Defined.

(** Assignment, then use.  When the assignment check on an Assign node
    with both children returns "valid", the symbol its left-hand name is
    looked up to is marked initialized in the table it leaves, so that the
    expression check of an identifier of that name, run next, is valid and
    prints nothing. *)
Theorem valid_assignment_marks_target_initialized :
  forall tok lhs rhs e st st',
    check_assignment (Node AST_ASSIGN tok (Some lhs) (Some rhs) e) st
    = (true, st') ->
    (exists i s,
        lookup_symbol (table st') (lexeme (node_token lhs)) = Some (i, s)
        /\ is_initialized s = true)
    /\ (forall tok' l' r' e',
           lexeme tok' = lexeme (node_token lhs) ->
           check_expression (Node AST_IDENTIFIER tok' l' r' e') st'
           = (true, st')).
Proof.
  intros tok lhs rhs e st st' H. simpl in H.
  destruct (lookup_symbol (table st) (lexeme (node_token lhs)))
    as [[i s]|] eqn:El; [|discriminate].
  pose proof (SemanticFacts.check_expression_table rhs st) as T.
  destruct (check_expression rhs st) as [v st1]; simpl in T.
  destruct v; [|discriminate]. inversion H; subst st'. clear H.
  assert (lookup_symbol
            (mkSymbolTable (set_initialized i (head (table st1)))
                           (current_scope (table st1)))
            (lexeme (node_token lhs))
          = Some (i, mkSymbol (name s) (type s) (scope_level s)
                              (line_declared s) true)) as Hl.
  { unfold lookup_symbol in *. simpl. rewrite T.
    pose proof (TableFacts.lookup_from_set_initialized
                  (fun x => String.eqb (name x) (lexeme (node_token lhs)))
                  (head (table st)) 0 i s (fun x b => eq_refl) El) as L.
    rewrite Nat.sub_0_r in L. exact L. }
  split.
  - eexists _, _. split; [exact Hl|reflexivity].
  - intros tok' l' r' e' Hn. simpl. rewrite Hn. simpl in Hl. rewrite Hl.
    reflexivity.
Qed.

Lemma valid_assignment_marks_target_initialized_witness :
  check_expression (Ident "x")
    (mkAState (mkSymbolTable [mkSymbol "x" TOKEN_INT 0 1 true] 0) [])
  = (true, mkAState (mkSymbolTable [mkSymbol "x" TOKEN_INT 0 1 true] 0) []).
Proof.
  destruct (valid_assignment_marks_target_initialized
              (tok1 TOKEN_IDENTIFIER "x") (Ident "x") (Num "5") None
              (mkAState (mkSymbolTable [mkSymbol "x" TOKEN_INT 0 1 false] 0)
                        [])
              (mkAState (mkSymbolTable [mkSymbol "x" TOKEN_INT 0 1 true] 0)
                        [])) as [_ H].
  - reflexivity.
  - apply (H (tok1 TOKEN_IDENTIFIER "x") None None None). reflexivity.
Defined.

(* ================================================================= *)
(** * Verdicts and diagnostics *)

Module VerdictFacts.
Import Semantic Shape.

(** *** The induction principle of the analyzer, on complete trees

    As [SemanticFacts.every_check_program], without the case of a check that
    fails in silence: on a tree whose Assign nodes have both children no
    check does. *)

Section CompleteInduction.
Variable P : Checker -> Prop.
Hypothesis P_ext : forall f g, (forall st, f st = g st) -> P f -> P g.
Hypothesis P_ret : P (fun st => (true, st)).
Hypothesis P_seq : forall f g, P f -> P g -> P (seq_and f g).
Hypothesis P_scoped : forall f, P f -> P (scoped f).
Hypothesis P_identifier :
  forall tok l r e, P (check_expression (Node AST_IDENTIFIER tok l r e)).
Hypothesis P_declaration : forall node, P (check_declaration node).
Hypothesis P_assignment :
  forall tok lhs rhs e,
    P (check_expression rhs) ->
    P (check_assignment (Node AST_ASSIGN tok (Some lhs) (Some rhs) e)).

Lemma P_child (f : ASTNode -> Checker) o :
  match o with Some x => P (f x) | None => True end -> P (on_node f o).
Proof.
  destruct o as [n|]; simpl; intros H.
  - apply (P_ext (f n)); [reflexivity|exact H].
  - exact P_ret.
Qed.

Lemma complete_check_expression : forall node, P (check_expression node).
Proof.
  apply SemanticFacts.every_check_expression; assumption.
Qed.

Lemma complete_check_statement_block :
  forall node,
    assigns_complete node ->
    P (check_statement node) /\ P (check_block node).
Proof.
  induction node as [ty tok l r e IHl IHr IHe] using ASTNode_children_ind.
  intros [Ha [Cl [Cr Ce]]].
  assert (match l with Some x => P (check_statement x) | None => True end)
    as Hl by (destruct l; simpl in *; [apply IHl; exact Cl|exact I]).
  assert (match r with Some x => P (check_statement x) | None => True end)
    as Hrs by (destruct r; simpl in *; [apply IHr; exact Cr|exact I]).
  assert (match r with Some x => P (check_block x) | None => True end)
    as Hrb by (destruct r; simpl in *; [apply IHr; exact Cr|exact I]).
  assert (match e with Some x => P (check_statement x) | None => True end)
    as He by (destruct e; simpl in *; [apply IHe; exact Ce|exact I]).
  assert (match l with Some x => P (check_condition x) | None => True end)
    as Hc by (destruct l; [apply complete_check_expression|exact I]).
  assert (P (check_block (Node ty tok l r e))) as Hblock.
  { eapply P_ext;
      [intros st; symmetry; apply SemanticFacts.check_block_shape|].
    apply P_scoped, P_seq; apply P_child; assumption. }
  split; [|exact Hblock].
  destruct ty;
    try (eapply P_ext;
         [intros st; symmetry; apply SemanticFacts.check_statement_default;
          discriminate|];
         apply complete_check_expression).
  - eapply P_ext; [|apply (P_declaration (Node AST_VARDECL tok l r e))].
    reflexivity.
  - destruct (Ha eq_refl) as [Hl0 Hr0].
    destruct l as [lhs|]; [|congruence]. destruct r as [rhs|]; [|congruence].
    eapply P_ext; [|apply (P_assignment tok lhs rhs e)]; [reflexivity|].
    apply complete_check_expression.
  - eapply P_ext;
      [intros st; symmetry; apply SemanticFacts.check_statement_print|].
    apply P_child. destruct l; [apply complete_check_expression|exact I].
  - eapply P_ext;
      [intros st; symmetry; apply SemanticFacts.check_statement_if|].
    apply P_seq; [apply P_seq|]; apply P_child; assumption.
  - eapply P_ext;
      [intros st; symmetry; apply SemanticFacts.check_statement_while|].
    apply P_seq; apply P_child; assumption.
  - exact Hblock.
Qed.

Lemma complete_check_program :
  forall node, assigns_complete node -> P (check_program node).
Proof.
  induction node as [ty tok l r e IHl IHr _] using ASTNode_children_ind.
  intros Hc.
  destruct ty;
    try (eapply P_ext;
         [intros st; symmetry; apply SemanticFacts.check_program_other;
          discriminate|];
         apply complete_check_statement_block; exact Hc).
  destruct Hc as [_ [Cl [Cr _]]].
  eapply P_ext; [intros st; symmetry; apply SemanticFacts.check_program_shape|].
  apply P_seq; apply P_child.
  - destruct l; [apply complete_check_statement_block; exact Cl|exact I].
  - destruct r; simpl in *; [apply IHr; exact Cr|exact I].
Qed.

End CompleteInduction.

(** *** A verdict "invalid" comes with an error printed *)

Lemma explained_ext f g :
  (forall st, f st = g st) -> verdict_explained f -> verdict_explained g.
Proof. intros E H st. rewrite <- E. apply H. Qed.

Lemma explained_ret : verdict_explained (fun st => (true, st)).
Proof.
  intros st. exists []. simpl. rewrite app_nil_r. split; [reflexivity|].
  discriminate.
Qed.

Lemma explained_seq f g :
  verdict_explained f -> verdict_explained g ->
  verdict_explained (seq_and f g).
Proof.
  intros Hf Hg st. unfold seq_and.
  destruct (Hf st) as [ds1 [E1 W1]].
  destruct (f st) as [v1 st1]; simpl in *.
  destruct (Hg st1) as [ds2 [E2 W2]].
  destruct (g st1) as [v2 st2]; simpl in *.
  exists (ds1 ++ ds2)%list. split.
  - rewrite E2, E1, app_assoc. reflexivity.
  - intros Hv. apply Exists_app.
    destruct v1; [right; apply W2; exact Hv|left; apply W1; reflexivity].
Qed.

Lemma explained_scoped f : verdict_explained f -> verdict_explained (scoped f).
Proof.
  intros Hf st. unfold scoped.
  destruct (Hf (with_table enter_scope st)) as [ds [E W]].
  destruct (f (with_table enter_scope st)) as [v st']; simpl in *.
  exists ds. auto.
Qed.

Lemma explained_identifier tok l r e :
  verdict_explained (check_expression (Node AST_IDENTIFIER tok l r e)).
Proof.
  intros st. simpl.
  destruct (lookup_symbol (table st) (lexeme tok)) as [[i s]|].
  - destruct (negb (is_initialized s)); simpl.
    + eexists; split; [reflexivity|]. discriminate.
    + exists []. rewrite app_nil_r. split; [reflexivity|]. discriminate.
  - simpl. eexists; split; [reflexivity|]. intros _.
    constructor. left. reflexivity.
Qed.

Lemma explained_declaration node : verdict_explained (check_declaration node).
Proof.
  intros st. unfold check_declaration.
  destruct (node_type node);
    try (exists []; simpl; rewrite app_nil_r; split;
         [reflexivity|discriminate]).
  destruct (lookup_symbol_current_scope _ _); simpl.
  - eexists; split; [reflexivity|]. intros _. constructor. right. reflexivity.
  - exists []. rewrite app_nil_r. split; [reflexivity|]. discriminate.
Qed.

Lemma explained_assignment tok lhs rhs e :
  verdict_explained (check_expression rhs) ->
  verdict_explained
    (check_assignment (Node AST_ASSIGN tok (Some lhs) (Some rhs) e)).
Proof.
  intros Hrhs st. simpl.
  destruct (lookup_symbol _ _) as [[i s]|]; simpl.
  - destruct (Hrhs st) as [ds [E W]].
    destruct (check_expression rhs st) as [v st1]; simpl in *.
    destruct v; simpl; exists ds; auto.
  - eexists; split; [reflexivity|]. intros _. constructor. left. reflexivity.
Qed.

Lemma check_program_verdict_explained node :
  assigns_complete node -> verdict_explained (check_program node).
Proof.
  apply complete_check_program.
  - exact explained_ext.
  - exact explained_ret.
  - exact explained_seq.
  - exact explained_scoped.
  - exact explained_identifier.
  - exact explained_declaration.
  - exact explained_assignment.
Qed.

End VerdictFacts.

(* ================================================================= *)
(** * The trees the parser builds *)

Module TreeFacts.
Import Parser.

Ltac bind_step H :=
  let a := fresh "a" in
  let E := fresh "E" in
  apply ParserFacts.bind_Ok in H; destruct H as [a [E H]];
  try (destruct a as [? ?]).

Lemma match_type ty st : match_ ty st = true -> tok_type (current_token st) = ty.
Proof.
  unfold match_. destruct (tok_type (current_token st)), ty; simpl;
    congruence.
Qed.

Section WithLexemeSize.
Variable sz : nat.

(** *** Expressions *)

Section Expressions.
Variable rec : PState -> Parsed.
Hypothesis rec_expr : builds_expr rec.

Lemma parse_primary_expr : builds_expr (parse_primary sz rec).
Proof.
  intros st node st' H. unfold parse_primary in H.
  destruct (match_ TOKEN_NUMBER st) eqn:Hn.
  { inversion H; subst. constructor. apply match_type. exact Hn. }
  destruct (match_ TOKEN_IDENTIFIER st) eqn:Hi.
  { pose proof (ParserFacts.peek_state sz st) as [_ Htok].
    destruct (peek sz st) as [next_token st1]; simpl in Htok.
    destruct (_ && _) eqn:Hc.
    - unfold parse_factorial in H.
      bind_step H. bind_step H. bind_step H. inversion H; subst.
      apply andb_prop in Hc. destruct Hc as [_ Hf].
      apply String.eqb_eq in Hf.
      constructor; [|exact Hf|eapply rec_expr; eauto].
      rewrite Htok. apply match_type. exact Hi.
    - inversion H; subst. constructor. simpl. rewrite Htok.
      apply match_type. exact Hi. }
  destruct (match_ TOKEN_LPAREN st); [|discriminate].
  bind_step H. bind_step H. inversion H; subst.
  eapply rec_expr; eauto.
Qed.

Lemma binop_loop_expr is_op operand :
  builds_expr operand ->
  forall n node st node' st',
    expr_tree node ->
    binop_loop sz is_op operand n node st = Ok (node', st') ->
    expr_tree node'.
Proof.
  intros Hop. induction n as [|n IH]; intros node st node' st' Hn H;
    simpl in H.
  - destruct (_ && _); [discriminate|]. inversion H; subst. exact Hn.
  - destruct (match_ TOKEN_OPERATOR st && _) eqn:Hc.
    + apply andb_prop in Hc. destruct Hc as [Hm _].
      bind_step H. apply Hop in E.
      eapply IH; [|exact H]. constructor; auto. apply match_type. exact Hm.
    + inversion H; subst. exact Hn.
Qed.

Lemma level_expr is_op operand n :
  builds_expr operand ->
  builds_expr (fun st => let* (node, st1) := operand st in
                         binop_loop sz is_op operand n node st1).
Proof.
  intros Hop st node st' H. bind_step H.
  eapply binop_loop_expr; eauto.
Qed.

Lemma parse_equality_expr n : builds_expr (parse_equality sz rec n).
Proof. do 4 apply level_expr. apply parse_primary_expr. Qed.

End Expressions.

Lemma parse_expression_expr fuel : builds_expr (parse_expression sz fuel).
Proof.
  induction fuel as [|f IH]; intros st node st' H; simpl in H.
  - discriminate.
  - eapply parse_equality_expr; eauto.
Qed.

Lemma expr_tree_complete node : expr_tree node -> assigns_complete node.
Proof.
  induction 1; simpl; repeat split; auto; discriminate.
Qed.

(** *** Statements *)

Lemma complete_set_right n r :
  assigns_complete n -> assigns_complete r ->
  assigns_complete (set_right n r).
Proof.
  destruct n as [ty tok l r0 e]. simpl. intros [Ha [Hl [Hr He]]] Hc.
  repeat split; auto.
  - apply Ha. assumption.
  - discriminate.
Qed.

Lemma complete_set_right_at :
  forall depth n stmt,
    assigns_complete n -> assigns_complete stmt ->
    assigns_complete (set_right_at depth n stmt).
Proof.
  induction depth as [|d IH]; intros n stmt Hn Hs; simpl.
  - apply complete_set_right; assumption.
  - destruct n as [ty tok l [r|] e]; [|exact Hn].
    simpl in *. destruct Hn as [Ha [Hl [Hr He]]].
    repeat split; auto.
    + apply Ha. assumption.
    + discriminate.
Qed.

Section Statements.
Variable fuel : nat.
Variable rec : PState -> Parsed.
Hypothesis rec_complete : builds_complete rec.

Lemma parse_block_loop_complete :
  forall n block_left current st block_left' st',
    match block_left with Some x => assigns_complete x | None => True end ->
    parse_block_loop rec n block_left current st = Ok (block_left', st') ->
    match block_left' with Some x => assigns_complete x | None => True end.
Proof.
  induction n as [|n IH]; intros bl cur st bl' st' Hbl H; simpl in H.
  - destruct (_ && _); [discriminate|]. inversion H; subst. exact Hbl.
  - destruct (_ && _).
    + bind_step H. apply rec_complete in E.
      destruct bl as [first|]; (eapply IH; [|exact H]).
      * apply complete_set_right_at; assumption.
      * exact E.
    + inversion H; subst. exact Hbl.
Qed.

Lemma parse_statement_body_complete :
  builds_complete (parse_statement_body sz fuel rec).
Proof.
  assert (forall st node st',
             parse_expression sz fuel st = Ok (node, st') ->
             assigns_complete node) as He
      by (intros st node st' H; apply expr_tree_complete;
          eapply parse_expression_expr; eauto).
  intros st node st' H. unfold parse_statement_body in H.
  destruct (match_ TOKEN_INT st).
  { unfold parse_declaration in H.
    destruct (negb _); [discriminate|].
    destruct (negb _); [discriminate|].
    inversion H; subst. simpl. repeat split; auto; discriminate. }
  destruct (match_ TOKEN_IDENTIFIER st).
  { unfold parse_assignment in H.
    destruct (negb _); [discriminate|]. bind_step H.
    destruct (negb _); [discriminate|].
    inversion H; subst. apply He in E. simpl.
    repeat split; auto; discriminate. }
  destruct (match_ TOKEN_IF st).
  { unfold parse_if_statement in H.
    bind_step H. bind_step H. bind_step H. bind_step H.
    inversion H; subst. apply He in E0. apply rec_complete in E2.
    simpl. repeat split; auto; discriminate. }
  destruct (match_ TOKEN_WHILE st).
  { unfold parse_while_statement in H.
    bind_step H. bind_step H. bind_step H. bind_step H.
    inversion H; subst. apply He in E0. apply rec_complete in E2.
    simpl. repeat split; auto; discriminate. }
  destruct (match_ TOKEN_REPEAT st).
  { unfold parse_repeat_statement in H.
    bind_step H. destruct (negb _); [discriminate|].
    bind_step H. bind_step H. bind_step H. bind_step H.
    inversion H; subst. apply rec_complete in E. apply He in E1.
    simpl. repeat split; auto; discriminate. }
  destruct (match_ TOKEN_PRINT st).
  { unfold parse_print_statement in H.
    bind_step H. destruct (negb _); [discriminate|].
    inversion H; subst. apply He in E. simpl.
    repeat split; auto; discriminate. }
  destruct (match_ TOKEN_LBRACE st); [|discriminate].
  unfold parse_block in H.
  bind_step H. bind_step H.
  destruct (negb _); [discriminate|].
  bind_step H. inversion H; subst.
  apply parse_block_loop_complete in E0; [|exact I].
  simpl. repeat split; auto; discriminate.
Qed.

End Statements.

Lemma parse_statement_complete fuel :
  builds_complete (parse_statement sz fuel).
Proof.
  induction fuel as [|f IH]; intros st node st' H; simpl in H.
  - discriminate.
  - eapply parse_statement_body_complete; eauto.
Qed.

Lemma parse_program_loop_complete fuel :
  forall n tok st node st',
    parse_program_loop sz fuel n tok st = Ok (node, st') ->
    assigns_complete node.
Proof.
  induction n as [|n IH]; intros tok st node st' H; simpl in H.
  - destruct (negb _); [discriminate|]. inversion H; subst.
    simpl. repeat split; auto; discriminate.
  - destruct (negb (match_ TOKEN_EOF st)).
    + bind_step H. apply parse_statement_complete in E.
      destruct (negb _).
      * bind_step H. apply IH in E0. inversion H; subst.
        simpl. repeat split; auto; discriminate.
      * inversion H; subst. simpl. repeat split; auto; discriminate.
    + inversion H; subst. simpl. repeat split; auto; discriminate.
Qed.

Lemma parse_complete fuel : builds_complete (parse sz fuel).
Proof.
  intros st node st'. unfold parse, parse_program.
  apply parse_program_loop_complete.
Qed.

(** *** A parse that returns has read the whole input *)

Lemma parse_program_loop_at_eof fuel :
  forall n tok st node st',
    parse_program_loop sz fuel n tok st = Ok (node, st') -> at_eof st'.
Proof.
  induction n as [|n IH]; intros tok st node st' H; simpl in H.
  - destruct (negb (match_ TOKEN_EOF st)) eqn:Hc; [discriminate|].
    inversion H; subst. apply match_type.
    destruct (match_ TOKEN_EOF st'); [reflexivity|discriminate].
  - destruct (negb (match_ TOKEN_EOF st)) eqn:Hc.
    + bind_step H.
      destruct (negb (match_ TOKEN_EOF p)) eqn:Hc1.
      * bind_step H. apply IH in E0. inversion H; subst. exact E0.
      * inversion H; subst. apply match_type.
        destruct (match_ TOKEN_EOF st'); [reflexivity|discriminate].
    + inversion H; subst. apply match_type.
      destruct (match_ TOKEN_EOF st'); [reflexivity|discriminate].
Qed.

End WithLexemeSize.
End TreeFacts.

(* ================================================================= *)
(** * The tokens the lexer makes *)

Module TokenFacts.
Import Lexer.

(** *** Strings *)

Lemma append_snoc s c t : ((s ++ String c EmptyString) ++ t = s ++ String c t)%string.
Proof. induction s as [|a s IH]; simpl; [reflexivity|]. rewrite IH. reflexivity. Qed.

Lemma append_empty s : (s ++ EmptyString)%string = s.
Proof. induction s as [|a s IH]; simpl; [reflexivity|]. rewrite IH. reflexivity. Qed.

Lemma length_append s t :
  String.length (s ++ t) = (String.length s + String.length t)%nat.
Proof. induction s as [|a s IH]; simpl; [reflexivity|]. rewrite IH. reflexivity. Qed.

Lemma substring_zero n s : String.substring n 0 s = EmptyString.
Proof.
  revert n. induction s as [|a s IH]; intros [|n]; simpl; auto.
Qed.

Lemma substring_cons pos m s :
  (pos < String.length s)%nat ->
  String.substring pos (S m) s
  = String (char_at s pos) (String.substring (S pos) m s).
Proof.
  unfold char_at. revert pos.
  induction s as [|a s IH]; intros pos H; simpl in H; [lia|].
  destruct pos as [|pos].
  - simpl. destruct s; reflexivity.
  - change (String.substring (S pos) (S m) (String a s))
      with (String.substring pos (S m) s).
    change (String.substring (S (S pos)) m (String a s))
      with (String.substring (S pos) m s).
    simpl String.get. apply IH. lia.
Qed.

Lemma substring_length pos m s :
  (pos + m <= String.length s)%nat ->
  String.length (String.substring pos m s) = m.
Proof.
  revert pos m. induction s as [|a s IH]; intros pos m H; simpl in H.
  - assert (pos = 0 /\ m = 0)%nat as [-> ->] by lia. reflexivity.
  - destruct pos as [|pos]; simpl.
    + destruct m as [|m]; simpl; [reflexivity|].
      rewrite IH by lia. reflexivity.
    + apply IH. lia.
Qed.

Lemma all_chars_append p s t :
  all_chars p s -> all_chars p t -> all_chars p (s ++ t).
Proof. induction s as [|a s IH]; simpl; [auto|]. intros [H1 H2] H. auto. Qed.

(** *** The scanning loop *)

(** What the loop returns: the lexeme it was given, then the characters of
    the input from the cursor to the new cursor, which is past the first and
    inside the input; all of them but the first pass the test; and the loop
    stops at the latest when the lexeme has [lexeme_size - 1] characters. *)
#[local] Opaque Nat.max Nat.sub.

Lemma scan_lexeme_slice p sz n input pos lex :
  p NUL = false ->
  char_at input pos <> NUL ->
  let r := scan_lexeme p sz n input pos lex in
  (pos < snd r <= String.length input)%nat
  /\ fst r = (lex ++ String.substring pos (snd r - pos) input)%string
  /\ all_chars p (String.substring (S pos) (snd r - S pos) input)
  /\ (String.length (fst r)
      <= Nat.max (S (String.length lex)) (sz - 1))%nat.
Proof.
  intros Hp. revert pos lex.
  assert (forall pos lex,
             char_at input pos <> NUL ->
             let r := (lex ++ String (char_at input pos) EmptyString, S pos) in
             (pos < snd r <= String.length input)%nat
             /\ fst r = (lex ++ String.substring pos (snd r - pos) input)%string
             /\ all_chars p (String.substring (S pos) (snd r - S pos) input)
             /\ (String.length (fst r)
                 <= Nat.max (S (String.length lex)) (sz - 1))%nat) as Hstop.
  { intros pos lex Hc. apply LexerFacts.char_at_in_bounds in Hc.
    cbn [fst snd].
    replace (S pos - pos)%nat with 1%nat by lia.
    rewrite Nat.sub_diag, (substring_cons pos 0 input Hc), !substring_zero.
    rewrite length_append. cbn [String.length all_chars].
    repeat split; try lia. }
  induction n as [|n IH]; intros pos lex Hc; simpl.
  - destruct (_ && _); apply Hstop; exact Hc.
  - destruct (p (char_at input (S pos)) && _) eqn:Hcond;
      [|apply Hstop; exact Hc].
    apply andb_prop in Hcond. destruct Hcond as [Hpc Hlen].
    assert (char_at input (S pos) <> NUL) as Hc'
        by (intros E; rewrite E, Hp in Hpc; discriminate).
    specialize (IH (S pos) (lex ++ String (char_at input pos) EmptyString)%string Hc').
    destruct (scan_lexeme p sz n input (S pos) _) as [lex2 pos2].
    simpl in *. destruct IH as [[Hlt Hle] [Heq [Hall Hbound]]].
    apply LexerFacts.char_at_in_bounds in Hc.
    pose proof (LexerFacts.char_at_in_bounds _ _ Hc') as Hc2.
    repeat split; try lia.
    + rewrite Heq, append_snoc.
      replace (pos2 - pos)%nat with (S (pos2 - S pos)) by lia.
      rewrite substring_cons by exact Hc. reflexivity.
    + replace (pos2 - S pos)%nat with (S (pos2 - S (S pos))) by lia.
      rewrite substring_cons by exact Hc2. simpl. auto.
    + rewrite length_append in Hbound. simpl in Hbound.
      apply Nat.ltb_lt in Hlen. rewrite length_append in Hlen.
      simpl in Hlen. lia.
Qed.

#[local] Transparent Nat.max Nat.sub.

(** *** The four ways out of [get_next_token] *)

Lemma get_next_token_cases sz input pos ln tok pos' ln' :
  get_next_token sz input pos ln = (tok, pos', ln') ->
  exists pos1 line1,
    skip_blanks (String.length input - pos) input pos ln = (pos1, line1)
    /\ (pos <= pos1)%nat
    /\ ((char_at input pos1 = NUL
         /\ tok = mkToken TOKEN_EOF "EOF" ln ERROR_NONE
         /\ pos' = pos1 /\ ln' = 0)
        \/ (char_at input pos1 <> NUL
            /\ isdigit (char_at input pos1) = true
            /\ tok = mkToken TOKEN_NUMBER
                        (fst (scan_lexeme isdigit sz
                                (String.length input - pos1) input pos1 EmptyString))
                        ln ERROR_NONE
            /\ pos' = snd (scan_lexeme isdigit sz
                             (String.length input - pos1) input pos1 EmptyString)
            /\ ln' = line1)
        \/ (char_at input pos1 <> NUL
            /\ isdigit (char_at input pos1) = false
            /\ is_ident_start (char_at input pos1) = true
            /\ tok = mkToken
                        (match is_keyword
                                 (fst (scan_lexeme is_ident_char sz
                                         (String.length input - pos1) input
                                         pos1 EmptyString)) with
                         | Some keyword_type => keyword_type
                         | None => TOKEN_IDENTIFIER
                         end)
                        (fst (scan_lexeme is_ident_char sz
                                (String.length input - pos1) input pos1 EmptyString))
                        ln ERROR_NONE
            /\ pos' = snd (scan_lexeme is_ident_char sz
                             (String.length input - pos1) input pos1 EmptyString)
            /\ ln' = line1)
        \/ (char_at input pos1 <> NUL
            /\ isdigit (char_at input pos1) = false
            /\ is_ident_start (char_at input pos1) = false
            /\ tok = fst (operator_token (char_at input pos1) input
                                         (S pos1) ln)
            /\ pos' = snd (operator_token (char_at input pos1) input
                                          (S pos1) ln)
            /\ ln' = line1)).
Proof.
  unfold get_next_token.
  pose proof (LexerFacts.skip_blanks_mono (String.length input - pos) input
                pos ln) as Hm.
  destruct (skip_blanks _ input pos ln) as [pos1 line1]; simpl in Hm.
  intros H. exists pos1, line1. split; [reflexivity|]. split; [exact Hm|].
  destruct (is_nul (char_at input pos1)) eqn:Hn.
  { left. apply LexerFacts.is_nul_true in Hn.
    inversion H; subst. auto. }
  apply LexerFacts.is_nul_false in Hn. right.
  destruct (isdigit (char_at input pos1)) eqn:Hd.
  { left. destruct (scan_lexeme isdigit _ _ _ _ _) as [lex pos2].
    inversion H; subst. auto. }
  right. destruct (is_ident_start (char_at input pos1)) eqn:Hi.
  { left. destruct (scan_lexeme is_ident_char _ _ _ _ _) as [lex pos2].
    inversion H; subst. simpl. repeat split; auto. }
  right. destruct (operator_token _ _ _ _) as [tok0 pos2].
  inversion H; subst. simpl. repeat split; auto.
Qed.

Lemma is_keyword_word lex ty :
  is_keyword lex = Some ty -> In (lex, ty) keywords.
Proof.
  unfold is_keyword, keywords. simpl.
  repeat match goal with
         | |- context [String.eqb lex ?w] =>
             destruct (String.eqb_spec lex w) as [->|?]
         end; simpl; intros H; inversion H; subst; simpl; auto 10.
Qed.

Lemma start_is_ident_char c : is_ident_start c = true -> is_ident_char c = true.
Proof.
  unfold is_ident_start, is_ident_char, isalnum.
  destruct (isalpha c); simpl; [reflexivity|].
  intros ->. apply orb_true_r.
Qed.

(** *** One token *)

Lemma scanned_word p sz input pos :
  p NUL = false -> char_at input pos <> NUL ->
  let r := scan_lexeme p sz (String.length input - pos) input pos EmptyString in
  (pos < snd r <= String.length input)%nat
  /\ fst r = String.substring pos (snd r - pos) input
  /\ fst r = String (char_at input pos)
                    (String.substring (S pos) (snd r - S pos) input)
  /\ all_chars p (String.substring (S pos) (snd r - S pos) input)
  /\ String.length (fst r) = (snd r - pos)%nat
  /\ (String.length (fst r) <= Nat.max 1 (sz - 1))%nat
  /\ (p (char_at input (snd r)) = true ->
      (sz - 1 <= String.length (fst r))%nat).
Proof.
  intros Hp Hc.
  pose proof (scan_lexeme_slice p sz (String.length input - pos) input pos
                EmptyString Hp Hc) as Hs.
  pose proof (LexerFacts.scan_lexeme_exit p sz (String.length input - pos) input pos
                EmptyString Hp) as He.
  cbv zeta in *.
  destruct (scan_lexeme p sz _ input pos EmptyString) as [lex pos2].
  cbn [fst snd] in *.
  destruct Hs as (Hb & Hl & Ha & Hn).
  simpl in Hl. simpl in Hn.
  pose proof (LexerFacts.char_at_in_bounds input pos Hc) as Hin.
  assert (Hk : (pos2 - pos = S (pos2 - S pos))%nat) by lia.
  repeat split; try lia; auto.
  - rewrite Hl, Hk. apply substring_cons. exact Hin.
  - rewrite Hl. apply substring_length. lia.
  - intros Hq. specialize (He ltac:(lia)). rewrite Hq in He. simpl in He.
    apply Nat.ltb_ge in He. exact He.
Qed.

Lemma operator_token_shape c input pos ln :
  let r := operator_token c input pos ln in
  line (fst r) = ln
  /\ ((lexeme (fst r) = String c EmptyString /\ snd r = pos)
      \/ (lexeme (fst r) = String c (String "="%char EmptyString)
          /\ snd r = S pos /\ char_at input pos = "="%char))
  /\ lexeme_fits_kind (fst r)
  /\ (error (fst r) =
      match tok_type (fst r) with
      | TOKEN_ERROR => ERROR_INVALID_CHAR
      | _ => ERROR_NONE
      end)
  /\ scan_class (tok_type (fst r)) = None.
Proof.
  unfold operator_token, lexeme_fits_kind, operator_lexemes.
  repeat match goal with
         | |- context [if Ascii.eqb ?a ?b then _ else _] =>
             destruct (Ascii.eqb_spec a b)
         | |- context [if ?b then _ else _] => destruct b eqn:?
         end; subst; simpl;
    repeat match goal with
           | H : _ || _ = true |- _ => apply orb_prop in H; destruct H
           | H : Ascii.eqb _ _ = true |- _ => apply Ascii.eqb_eq in H; subst
           end; simpl; try discriminate; auto 20.
Qed.

Lemma keyword_kind lex ty :
  is_keyword lex = Some ty ->
  lexeme_fits_kind (mkToken ty lex 0%Z ERROR_NONE)
  /\ scan_class ty = Some is_ident_char
  /\ ty <> TOKEN_EOF /\ ty <> TOKEN_ERROR.
Proof.
  intros H. apply is_keyword_word in H. unfold keywords in H. simpl in H.
  unfold lexeme_fits_kind.
  repeat (destruct H as [H|H]; [inversion H; subst; simpl;
                                repeat split; discriminate|]).
  contradiction.
Qed.

#[local] Opaque Nat.max Nat.sub.

(** Everything one call of [get_next_token] fixes about its token. *)
Lemma token_anatomy sz input pos ln tok pos' ln' :
  get_next_token sz input pos ln = (tok, pos', ln') ->
  line tok = ln
  /\ lexeme_fits_kind tok
  /\ error tok = match tok_type tok with
                 | TOKEN_ERROR => ERROR_INVALID_CHAR
                 | _ => ERROR_NONE
                 end
  /\ (String.length (lexeme tok) <= Nat.max 3 (sz - 1))%nat
  /\ (tok_type tok = TOKEN_EOF ->
      ln' = 0%Z /\ char_at input pos' = NUL
      /\ pos' = fst (skip_blanks (String.length input - pos) input pos ln))
  /\ (tok_type tok <> TOKEN_EOF ->
      skip_blanks (String.length input - pos) input pos ln
      = (token_start tok pos', ln')
      /\ (pos <= token_start tok pos' < pos')%nat
      /\ (pos' <= String.length input)%nat
      /\ (token_start tok pos' + String.length (lexeme tok) = pos')%nat
      /\ lexeme tok
         = String.substring (token_start tok pos')
                            (String.length (lexeme tok)) input)
  /\ (forall p, scan_class (tok_type tok) = Some p ->
      p (char_at input pos') = true ->
      (sz - 1 <= String.length (lexeme tok))%nat
      /\ (String.length (lexeme tok) <= Nat.max 1 (sz - 1))%nat).
Proof.
  intros H. apply get_next_token_cases in H.
  destruct H as (pos1 & line1 & Hs & Hle & H). unfold token_start.
  destruct H as [(Hc & -> & -> & ->)
                |[(Hc & Hd & -> & -> & ->)
                 |[(Hc & Hd & Hi & -> & -> & ->)
                  |(Hc & Hd & Hi & -> & -> & ->)]]].
  - rewrite Hs. simpl. repeat split; auto; try lia; try congruence.
  - pose proof (scanned_word isdigit sz input pos1 eq_refl Hc) as Hw.
    cbv zeta in Hw.
    destruct (scan_lexeme isdigit sz _ input pos1 EmptyString) as [lex pos2].
    cbn [fst snd] in *.
    destruct Hw as (Hb & Hsl & Hco & Hall & Hlen & Hmax & Hcut).
    unfold lexeme_fits_kind. cbn [tok_type lexeme line error].
    assert (Hst : (pos2 - String.length lex = pos1)%nat) by lia.
    rewrite Hst.
    repeat split; auto; try lia; try discriminate.
    + rewrite Hco. discriminate.
    + rewrite Hco. simpl. split; [exact Hd|exact Hall].
    + rewrite Hlen. exact Hsl.
    + inversion H. subst p. auto.
  - pose proof (scanned_word is_ident_char sz input pos1 eq_refl Hc) as Hw.
    cbv zeta in Hw.
    destruct (scan_lexeme is_ident_char sz _ input pos1 EmptyString)
      as [lex pos2].
    cbn [fst snd] in *.
    destruct Hw as (Hb & Hsl & Hco & Hall & Hlen & Hmax & Hcut).
    assert (Hst : (pos2 - String.length lex = pos1)%nat) by lia.
    cbn [tok_type lexeme line error]. rewrite Hst.
    assert (Hk : lexeme_fits_kind
                   (mkToken match is_keyword lex with
                            | Some keyword_type => keyword_type
                            | None => TOKEN_IDENTIFIER
                            end lex ln ERROR_NONE)
                 /\ scan_class match is_keyword lex with
                               | Some keyword_type => keyword_type
                               | None => TOKEN_IDENTIFIER
                               end = Some is_ident_char
                 /\ match is_keyword lex with
                    | Some keyword_type => keyword_type
                    | None => TOKEN_IDENTIFIER
                    end <> TOKEN_EOF
                 /\ match is_keyword lex with
                    | Some keyword_type => keyword_type
                    | None => TOKEN_IDENTIFIER
                    end <> TOKEN_ERROR).
    { destruct (is_keyword lex) as [ty|] eqn:Hkw.
      - apply keyword_kind in Hkw. exact Hkw.
      - unfold lexeme_fits_kind, Parser.lexeme0. simpl.
        repeat split; try discriminate; auto.
        + rewrite Hco. exact Hi.
        + rewrite Hco. simpl. split; [|exact Hall].
          apply start_is_ident_char. exact Hi. }
    destruct Hk as (Hk1 & Hk2 & Hk3 & Hk4).
    repeat split; auto; try lia.
    + destruct (match is_keyword lex with
                | Some keyword_type => keyword_type
                | None => TOKEN_IDENTIFIER
                end); try reflexivity. congruence.
    + congruence.
    + congruence.
    + congruence.
    + rewrite Hlen. exact Hsl.
    + rewrite Hk2 in H. inversion H. subst p. auto.
  - pose proof (operator_token_shape (char_at input pos1) input (S pos1) ln)
      as Ho.
    pose proof (LexerFacts.operator_token_not_eof (char_at input pos1) input
                  (S pos1) ln) as Hne.
    pose proof (LexerFacts.char_at_in_bounds input pos1 Hc) as Hin.
    cbv zeta in Ho.
    destruct (operator_token (char_at input pos1) input (S pos1) ln)
      as [tok pos2].
    cbn [fst snd] in *.
    destruct Ho as (Hln & Hlex & Hfit & Herr & Hcls).
    assert (Hgeo : (String.length (lexeme tok) <= 2)%nat
                   /\ (pos1 + String.length (lexeme tok) = pos2)%nat
                   /\ (pos2 - String.length (lexeme tok) = pos1)%nat
                   /\ (pos1 < pos2 <= String.length input)%nat
                   /\ lexeme tok
                      = String.substring pos1 (String.length (lexeme tok))
                                         input).
    { destruct Hlex as [[Hl ->]|(Hl & -> & Heq)]; rewrite Hl; simpl.
      - repeat split; try lia.
        rewrite substring_cons by exact Hin. rewrite substring_zero.
        reflexivity.
      - assert (Hin2 : (S pos1 < String.length input)%nat).
        { apply LexerFacts.char_at_in_bounds. rewrite Heq. discriminate. }
        repeat split; try lia.
        rewrite substring_cons by exact Hin.
        rewrite substring_cons by exact Hin2.
        rewrite substring_zero, Heq. reflexivity. }
    destruct Hgeo as (Hg1 & Hg0 & Hg2 & Hg3 & Hg4).
    rewrite Hg2.
    repeat split; auto; try lia; try contradiction; try congruence.
Qed.

#[local] Transparent Nat.max Nat.sub.

(** *** The line counter *)

Lemma newlines_app input pos n m :
  newlines input pos (n + m)
  = newlines input pos n + newlines input (pos + n) m.
Proof.
  revert pos. induction n as [|n IH]; intros pos; simpl.
  - rewrite Nat.add_0_r. lia.
  - rewrite IH. replace (S pos + n)%nat with (pos + S n)%nat by lia. lia.
Qed.

Lemma newlines_split input a b c :
  (a <= b <= c)%nat ->
  newlines input a (c - a)
  = newlines input a (b - a) + newlines input b (c - b).
Proof.
  intros H. replace (c - a)%nat with ((b - a) + (c - b))%nat by lia.
  rewrite newlines_app. replace (a + (b - a))%nat with b by lia. reflexivity.
Qed.

Lemma newlines_step input pos k :
  (pos < k)%nat ->
  newlines input pos (k - pos)
  = (if Ascii.eqb (char_at input pos) LF then 1 else 0)
    + newlines input (S pos) (k - S pos).
Proof.
  intros H. replace (k - pos)%nat with (S (k - S pos)) by lia. reflexivity.
Qed.

Lemma skip_whitespace_lines n input pos ln :
  let r := skip_whitespace n input pos ln in
  snd r = ln + newlines input pos (fst r - pos).
Proof.
  revert pos ln. induction n as [|n IH]; intros pos ln; simpl.
  - rewrite Nat.sub_diag. simpl. lia.
  - destruct (_ && _); simpl.
    + pose proof (LexerFacts.skip_whitespace_mono n input (S pos)
                    (bump_line (char_at input pos) ln)) as Hm.
      rewrite IH. rewrite (newlines_step input pos) by lia.
      unfold bump_line. destruct (Ascii.eqb _ LF); lia.
    + rewrite Nat.sub_diag. simpl. lia.
Qed.

Lemma skip_comment_body_lines n input pos ln :
  let r := skip_comment_body n input pos ln in
  snd r = ln + newlines input pos (fst r - pos).
Proof.
  revert pos ln. induction n as [|n IH]; intros pos ln; simpl.
  - rewrite Nat.sub_diag. simpl. lia.
  - destruct (_ && _); simpl.
    + pose proof (LexerFacts.skip_comment_body_mono n input (S pos)
                    (bump_line (char_at input pos) ln)) as Hm.
      rewrite IH. rewrite (newlines_step input pos) by lia.
      unfold bump_line. destruct (Ascii.eqb _ LF); lia.
    + rewrite Nat.sub_diag. simpl. lia.
Qed.

Lemma newlines_two input pos a b :
  char_at input pos = a -> char_at input (pos + 1) = b ->
  a <> LF -> b <> LF ->
  newlines input pos 2 = 0.
Proof.
  intros Ha Hb Hna Hnb. simpl. replace (S pos) with (pos + 1)%nat by lia.
  rewrite Ha, Hb.
  destruct (Ascii.eqb_spec a LF); [contradiction|].
  destruct (Ascii.eqb_spec b LF); [contradiction|]. reflexivity.
Qed.

(** The line counter after the blanks and comments in front of a token is
    the counter before them plus the newlines they contain. *)
Lemma skip_blanks_lines n input pos ln :
  let r := skip_blanks n input pos ln in
  snd r = ln + newlines input pos (fst r - pos).
Proof.
  revert pos ln. induction n as [|n IH]; intros pos ln; simpl;
    pose proof (LexerFacts.skip_whitespace_mono (String.length input - pos)
                  input pos ln) as Hw;
    pose proof (skip_whitespace_lines (String.length input - pos) input pos ln)
      as Hl; cbv zeta in Hl;
    destruct (skip_whitespace _ input pos ln) as [pos1 line1];
    cbn [fst snd] in *;
    destruct (Ascii.eqb (char_at input pos1) "/"%char
              && Ascii.eqb (char_at input (pos1 + 1)) "*"%char) eqn:Hc;
    cbn [fst snd]; try exact Hl.
  apply andb_prop in Hc. destruct Hc as [Hc1 Hc2].
  apply Ascii.eqb_eq in Hc1, Hc2.
  pose proof (newlines_two input pos1 _ _ Hc1 Hc2 ltac:(discriminate)
                ltac:(discriminate)) as Hopen.
  pose proof (LexerFacts.skip_comment_body_mono
                (String.length input - (pos1 + 2)) input (pos1 + 2) line1)
    as Hb.
  pose proof (skip_comment_body_lines
                (String.length input - (pos1 + 2)) input (pos1 + 2) line1)
    as Hbl.
  pose proof (LexerFacts.skip_comment_body_exit
                (String.length input - (pos1 + 2)) input (pos1 + 2) line1
                (Nat.le_refl _)) as Hex.
  cbv zeta in Hbl, Hex.
  destruct (skip_comment_body _ input (pos1 + 2) line1) as [pos3 line3].
  cbn [fst snd] in *.
  match goal with |- snd (skip_blanks n input ?p ?l) = _ =>
    pose proof (LexerFacts.skip_blanks_mono n input p l) as Hm;
    rewrite (IH p l); set (q := fst (skip_blanks n input p l)) in *
  end.
  assert (Hclose : newlines input pos3
                     ((if negb (is_nul (char_at input pos3))
                       then pos3 + 2 else pos3) - pos3) = 0).
  { destruct (is_nul (char_at input pos3)) eqn:Hn; simpl in *.
    - rewrite Nat.sub_diag. reflexivity.
    - replace (pos3 + 2 - pos3)%nat with 2%nat by lia.
      apply negb_false_iff, andb_prop in Hex. destruct Hex as [He1 He2].
      apply Ascii.eqb_eq in He1, He2.
      apply (newlines_two input pos3 _ _ He1 He2); discriminate. }
  set (pos4 := if negb (is_nul (char_at input pos3)) then (pos3 + 2)%nat
               else pos3) in *.
  assert (pos3 <= pos4)%nat by (unfold pos4; destruct (negb _); lia).
  replace (pos1 + 2 - pos1)%nat with 2%nat in * by lia.
  rewrite (newlines_split input pos pos1 q) by lia.
  rewrite (newlines_split input pos1 (pos1 + 2) q) by lia.
  rewrite (newlines_split input (pos1 + 2) pos3 q) by lia.
  rewrite (newlines_split input pos3 pos4 q) by lia.
  replace (pos1 + 2 - pos1)%nat with 2%nat in * by lia.
  lia.
Qed.

(** *** A comment that is not closed *)

Lemma skip_whitespace_stay n input pos ln :
  char_at input pos <> " "%char -> char_at input pos <> LF ->
  char_at input pos <> TAB ->
  skip_whitespace n input pos ln = (pos, ln).
Proof.
  intros H1 H2 H3. destruct n as [|n]; simpl; [reflexivity|].
  destruct (Ascii.eqb_spec (char_at input pos) " "%char); [contradiction|].
  destruct (Ascii.eqb_spec (char_at input pos) LF); [contradiction|].
  destruct (Ascii.eqb_spec (char_at input pos) TAB); [contradiction|].
  rewrite andb_false_r. reflexivity.
Qed.

Lemma skip_blanks_stay n input pos ln :
  char_at input pos = NUL -> skip_blanks n input pos ln = (pos, ln).
Proof.
  intros H.
  assert (Hw : skip_whitespace (String.length input - pos) input pos ln
               = (pos, ln)).
  { apply skip_whitespace_stay; rewrite H; discriminate. }
  destruct n as [|n]; simpl; rewrite Hw, H; reflexivity.
Qed.

Lemma skip_comment_body_unterminated n input pos ln :
  (String.length input - pos <= n)%nat ->
  (forall k, (pos <= k)%nat -> char_at input k = "*"%char ->
             char_at input (k + 1) <> "/"%char) ->
  char_at input (fst (skip_comment_body n input pos ln)) = NUL.
Proof.
  intros Hn Hno.
  pose proof (LexerFacts.skip_comment_body_exit n input pos ln Hn) as He.
  pose proof (LexerFacts.skip_comment_body_mono n input pos ln) as Hm.
  cbv zeta in He.
  destruct (is_nul (char_at input (fst (skip_comment_body n input pos ln))))
    eqn:Hz.
  - apply LexerFacts.is_nul_true. exact Hz.
  - simpl in He. apply negb_false_iff, andb_prop in He.
    destruct He as [He1 He2]. apply Ascii.eqb_eq in He1, He2.
    exfalso. exact (Hno _ Hm He1 He2).
Qed.

Lemma unterminated_comment_eof sz input pos ln tok pos' ln' :
  char_at input pos = "/"%char ->
  char_at input (pos + 1) = "*"%char ->
  (forall k, (pos + 2 <= k)%nat -> char_at input k = "*"%char ->
             char_at input (k + 1) <> "/"%char) ->
  get_next_token sz input pos ln = (tok, pos', ln') ->
  tok = mkToken TOKEN_EOF "EOF" ln ERROR_NONE
  /\ char_at input pos' = NUL /\ (pos + 2 <= pos')%nat.
Proof.
  intros H1 H2 Hno. unfold get_next_token.
  assert (Hin : (pos + 1 < String.length input)%nat).
  { apply LexerFacts.char_at_in_bounds. rewrite H2. discriminate. }
  destruct (String.length input - pos)%nat as [|n] eqn:Hlen; [lia|].
  cbn [skip_blanks]. rewrite Hlen.
  rewrite (skip_whitespace_stay (S n))
    by (rewrite H1; discriminate).
  rewrite H1, H2. cbn [Ascii.eqb Bool.eqb andb].
  pose proof (skip_comment_body_unterminated
                (String.length input - (pos + 2)) input (pos + 2) ln
                (Nat.le_refl _) Hno) as Hz.
  pose proof (LexerFacts.skip_comment_body_mono
                (String.length input - (pos + 2)) input (pos + 2) ln) as Hm.
  destruct (skip_comment_body _ input (pos + 2) ln) as [pos3 line3].
  cbn [fst snd] in *.
  rewrite Hz. cbn [is_nul negb].
  replace (is_nul NUL) with true by reflexivity. cbn [negb].
  rewrite (skip_blanks_stay n input pos3 line3 Hz). rewrite Hz.
  replace (is_nul NUL) with true by reflexivity.
  intros H. inversion H; subst. auto.
Qed.

End TokenFacts.

(* ================================================================= *)
(** * What the parser keeps of its state *)

Module StateFacts.
Import Parser.

Ltac bind_step H :=
  let a := fresh "a" in
  let E := fresh "E" in
  apply ParserFacts.bind_Ok in H; destruct H as [a [E H]];
  try (destruct a as [? ?]).

Section Invariant.
Variable sz : nat.
Variable Q : PState -> Prop.
Hypothesis Q_advance : forall st, Q st -> Q (advance sz st).
Hypothesis Q_peek : forall st, Q st -> Q (snd (peek sz st)).

Lemma expect_keeps ty st st' : Q st -> expect sz ty st = Ok st' -> Q st'.
Proof.
  unfold expect. intros HQ H. destruct (match_ ty st); [|discriminate].
  inversion H; subst. auto.
Qed.

Section Expressions.
Variable rec : PState -> Parsed.
Hypothesis rec_keeps : keeps Q rec.

Lemma parse_primary_keeps : keeps Q (parse_primary sz rec).
Proof.
  intros st node st' HQ H. unfold parse_primary in H.
  destruct (match_ TOKEN_NUMBER st).
  { inversion H; subst. auto. }
  destruct (match_ TOKEN_IDENTIFIER st).
  { apply Q_peek in HQ.
    destruct (peek sz st) as [next_token st1]; simpl in HQ.
    destruct (_ && _).
    - unfold parse_factorial in H.
      bind_step H. bind_step H. bind_step H. inversion H; subst.
      eapply expect_keeps; [|exact E1].
      eapply rec_keeps; [|exact E0].
      eapply expect_keeps; [|exact E]. auto.
    - inversion H; subst. auto. }
  destruct (match_ TOKEN_LPAREN st); [|discriminate].
  bind_step H. bind_step H. inversion H; subst.
  eapply expect_keeps; [|exact E0].
  eapply rec_keeps; [|exact E]. auto.
Qed.

Lemma binop_loop_keeps is_op operand :
  keeps Q operand ->
  forall n node, keeps Q (binop_loop sz is_op operand n node).
Proof.
  intros Hop. induction n as [|n IH]; intros node st node' st' HQ H;
    simpl in H.
  - destruct (_ && _); [discriminate|]. inversion H; subst. exact HQ.
  - destruct (_ && _).
    + bind_step H. eapply IH; [|exact H].
      eapply Hop; [|exact E]. auto.
    + inversion H; subst. exact HQ.
Qed.

Lemma level_keeps is_op operand n :
  keeps Q operand ->
  keeps Q (fun st => let* (node, st1) := operand st in
                     binop_loop sz is_op operand n node st1).
Proof.
  intros Hop st node st' HQ H. bind_step H.
  eapply binop_loop_keeps; [exact Hop| |exact H].
  eapply Hop; eauto.
Qed.

Lemma parse_equality_keeps n : keeps Q (parse_equality sz rec n).
Proof. do 4 apply level_keeps. apply parse_primary_keeps. Qed.

End Expressions.

Lemma parse_expression_keeps fuel : keeps Q (parse_expression sz fuel).
Proof.
  induction fuel as [|f IH]; intros st node st' HQ H; simpl in H.
  - discriminate.
  - eapply parse_equality_keeps; eauto.
Qed.

Section Statements.
Variable fuel : nat.
Variable rec : PState -> Parsed.
Hypothesis rec_keeps : keeps Q rec.

Lemma parse_block_loop_keeps :
  forall n block_left current, keeps Q (parse_block_loop rec n block_left current).
Proof.
  induction n as [|n IH]; intros bl cur st bl' st' HQ H; simpl in H.
  - destruct (_ && _); [discriminate|]. inversion H; subst. exact HQ.
  - destruct (_ && _).
    + bind_step H. eapply rec_keeps in E; [|exact HQ].
      destruct bl as [first|]; (eapply IH; [|exact H]); exact E.
    + inversion H; subst. exact HQ.
Qed.

Lemma parse_statement_body_keeps :
  keeps Q (parse_statement_body sz fuel rec).
Proof.
  pose proof (parse_expression_keeps fuel) as He.
  intros st node st' HQ H. unfold parse_statement_body in H.
  destruct (match_ TOKEN_INT st).
  { unfold parse_declaration in H.
    destruct (negb _); [discriminate|].
    destruct (negb _); [discriminate|].
    inversion H; subst. auto. }
  destruct (match_ TOKEN_IDENTIFIER st).
  { unfold parse_assignment in H.
    destruct (negb _); [discriminate|]. bind_step H.
    destruct (negb _); [discriminate|].
    inversion H; subst. apply Q_advance. eapply He; [|exact E]. auto. }
  destruct (match_ TOKEN_IF st).
  { unfold parse_if_statement in H.
    bind_step H. bind_step H. bind_step H. bind_step H.
    inversion H; subst.
    eapply rec_keeps; [|exact E2]. eapply expect_keeps; [|exact E1].
    eapply He; [|exact E0]. eapply expect_keeps; [|exact E]. auto. }
  destruct (match_ TOKEN_WHILE st).
  { unfold parse_while_statement in H.
    bind_step H. bind_step H. bind_step H. bind_step H.
    inversion H; subst.
    eapply rec_keeps; [|exact E2]. eapply expect_keeps; [|exact E1].
    eapply He; [|exact E0]. eapply expect_keeps; [|exact E]. auto. }
  destruct (match_ TOKEN_REPEAT st).
  { unfold parse_repeat_statement in H.
    bind_step H. destruct (negb _); [discriminate|].
    bind_step H. bind_step H. bind_step H. bind_step H.
    inversion H; subst.
    eapply expect_keeps; [|exact E3]. eapply expect_keeps; [|exact E2].
    eapply He; [|exact E1]. eapply expect_keeps; [|exact E0].
    apply Q_advance. eapply rec_keeps; [|exact E]. auto. }
  destruct (match_ TOKEN_PRINT st).
  { unfold parse_print_statement in H.
    bind_step H. destruct (negb _); [discriminate|].
    inversion H; subst. apply Q_advance. eapply He; [|exact E]. auto. }
  destruct (match_ TOKEN_LBRACE st); [|discriminate].
  unfold parse_block in H.
  bind_step H. bind_step H.
  destruct (negb _); [discriminate|].
  bind_step H. inversion H; subst.
  eapply expect_keeps; [|exact E1].
  eapply parse_block_loop_keeps; [|exact E0].
  eapply expect_keeps; [|exact E]. auto.
Qed.

End Statements.

Lemma parse_statement_keeps fuel : keeps Q (parse_statement sz fuel).
Proof.
  induction fuel as [|f IH]; intros st node st' HQ H; simpl in H.
  - discriminate.
  - eapply parse_statement_body_keeps; eauto.
Qed.

Lemma parse_program_loop_keeps fuel :
  forall n tok, keeps Q (parse_program_loop sz fuel n tok).
Proof.
  induction n as [|n IH]; intros tok st node st' HQ H; simpl in H.
  - destruct (negb _); [discriminate|]. inversion H; subst. exact HQ.
  - destruct (negb _).
    + bind_step H. eapply parse_statement_keeps in E; [|exact HQ].
      destruct (negb _).
      * bind_step H. inversion H; subst. eapply IH; eauto.
      * inversion H; subst. exact E.
    + inversion H; subst. exact HQ.
Qed.

Lemma parse_keeps fuel : keeps Q (parse sz fuel).
Proof.
  intros st node st'. unfold parse, parse_program.
  apply parse_program_loop_keeps.
Qed.

End Invariant.

(** The two uses of the lexer keep the parser reading its input. *)
Lemma reading_advance sz input st :
  reading sz input st -> reading sz input (advance sz st).
Proof.
  intros [Hs _]. unfold reading, lexed, advance.
  destruct (Lexer.get_next_token sz (source st) (position st)
              (current_line st)) as [[tok pos] ln] eqn:E.
  simpl. split; [exact Hs|]. eauto.
Qed.

Lemma reading_peek sz input st :
  reading sz input st -> reading sz input (snd (peek sz st)).
Proof.
  intros [Hs Hl]. unfold reading, lexed, peek in *.
  destruct (Lexer.get_next_token sz (source st) (position st)
              (current_line st)) as [[tok pos] ln].
  simpl. split; assumption.
Qed.

Lemma reading_init sz l input : reading sz input (parser_init sz l input).
Proof.
  unfold parser_init, reading, lexed, advance. simpl.
  destruct (Lexer.get_next_token sz input 0 l) as [[tok pos] ln] eqn:E.
  simpl. split; [reflexivity|]. eauto.
Qed.

End StateFacts.

(* ================================================================= *)
(** * Where an expression ends *)

Module StopFacts.
Import Parser.

Ltac bind_step H :=
  let a := fresh "a" in
  let E := fresh "E" in
  apply ParserFacts.bind_Ok in H; destruct H as [a [E H]];
  try (destruct a as [? ?]).

Section WithLexemeSize.
Variable sz : nat.

(** A loop returns in front of a token that fails its test, and in a state
    that its operand returned or that it was entered with. *)
Lemma binop_loop_stops is_op operand (stop : PState -> Prop) :
  stops_at stop operand ->
  forall n node st node' st',
    stop st ->
    binop_loop sz is_op operand n node st = Ok (node', st') ->
    stop st' /\ not_taken is_op st'.
Proof.
  intros Hop. induction n as [|n IH]; intros node st node' st' Hst H;
    simpl in H.
  - destruct (_ && _) eqn:Hc; [discriminate|]. inversion H; subst.
    split; assumption.
  - destruct (match_ TOKEN_OPERATOR st && _) eqn:Hc.
    + bind_step H. eapply IH; [|exact H]. eapply Hop; eauto.
    + inversion H; subst. split; assumption.
Qed.

Lemma level_stops is_op operand n (stop : PState -> Prop) :
  stops_at stop operand ->
  stops_at (fun st => stop st /\ not_taken is_op st)
           (fun st => let* (node, st1) := operand st in
                      binop_loop sz is_op operand n node st1).
Proof.
  intros Hop st node st' H. bind_step H.
  eapply binop_loop_stops; [exact Hop| |exact H].
  eapply Hop; eauto.
Qed.

Lemma parse_equality_stops rec n :
  stops_at (fun st => (((True /\ not_taken is_factor_op st)
                        /\ not_taken is_term_op st)
                       /\ not_taken is_comparison_op st)
                      /\ not_taken is_equality_op st)
           (parse_equality sz rec n).
Proof. do 4 apply level_stops. intros ? ? ? _. exact I. Qed.

Lemma parse_expression_stops fuel :
  stops_at (fun st => match_ TOKEN_OPERATOR st = true ->
                      accepted_operator (current_token st) = false)
           (parse_expression sz fuel).
Proof.
  destruct fuel as [|f]; intros st node st' H; simpl in H; [discriminate|].
  apply parse_equality_stops in H.
  destruct H as [[[[_ H1] H2] H3] H4]. unfold not_taken in *.
  intros Hm. rewrite Hm in *. simpl in *. unfold accepted_operator.
  rewrite H1, H2, H3, H4. reflexivity.
Qed.

End WithLexemeSize.
End StopFacts.

(* ================================================================= *)
(** * The lexer called again from the same cursor *)

Module LineFacts.

Lemma get_next_token_shift sz input pos l1 l2 t p k :
  Lexer.get_next_token sz input pos l1 = (t, p, k) ->
  Lexer.get_next_token sz input pos l2
  = (mkToken (tok_type t) (lexeme t) l2 (error t), p,
     match tok_type t with TOKEN_EOF => 0 | _ => k + (l2 - l1) end).
Proof.
  unfold Lexer.get_next_token.
  pose proof (LexerFacts.skip_blanks_pos (String.length input - pos) input
                pos l1 l2) as Hb.
  pose proof (TokenFacts.skip_blanks_lines (String.length input - pos) input
                pos l1) as H1.
  pose proof (TokenFacts.skip_blanks_lines (String.length input - pos) input
                pos l2) as H2.
  cbv zeta in H1, H2.
  destruct (Lexer.skip_blanks _ input pos l1) as [q1 m1].
  destruct (Lexer.skip_blanks _ input pos l2) as [q2 m2].
  cbn [fst snd] in *. subst q2.
  assert (Hm : m2 = m1 + (l2 - l1)) by lia. clear H1 H2.
  destruct (Lexer.is_nul _).
  { intros E; inversion E; subst; reflexivity. }
  destruct (Lexer.isdigit _).
  { destruct (Lexer.scan_lexeme _ _ _ _ _ _).
    intros E; inversion E; subst; reflexivity. }
  destruct (Lexer.is_ident_start _).
  { destruct (Lexer.scan_lexeme _ _ _ _ _ _) as [lex pos2].
    intros E; inversion E; subst. cbn [tok_type lexeme error].
    pose proof (TokenFacts.keyword_kind lex) as Hk.
    destruct (Lexer.is_keyword lex) as [ty|].
    - destruct (Hk ty eq_refl) as (_ & _ & Hne & _).
      destruct ty; try reflexivity. congruence.
    - reflexivity. }
  pose proof (operator_token_line (Lexer.char_at input q1) input (S q1)
                l1 l2) as Ho.
  pose proof (LexerFacts.operator_token_not_eof (Lexer.char_at input q1)
                input (S q1) l1) as Hne.
  cbv zeta in Ho.
  destruct (Lexer.operator_token _ _ _ l1) as [u1 r1].
  destruct (Lexer.operator_token _ _ _ l2) as [u2 r2].
  cbn [fst snd] in *.
  destruct Ho as (Hty & Hlex & Herr & Hr & Hl1 & Hl2).
  intros E; inversion E; subst.
  destruct u2 as [ty2 lx2 ln2 er2]; simpl in *. subst.
  destruct (tok_type t); try reflexivity. congruence.
Qed.

End LineFacts.

(* ================================================================= *)
(** * The tokens in a parsed tree *)

Module LexedFacts.
Import Parser.

Ltac bind_step H :=
  let a := fresh "a" in
  let E := fresh "E" in
  apply ParserFacts.bind_Ok in H; destruct H as [a [E H]];
  try (destruct a as [? ?]).

Section Reading.
Variable sz : nat.
Variable input : string.

Lemma reading_token st : reading sz input st -> lexed_token sz input (current_token st).
Proof.
  intros [Hs (pos & ln & ln' & H)]. rewrite Hs in H.
  exists pos, ln, (position st), ln'. exact H.
Qed.

Lemma reading_step st : reading sz input st -> reading sz input (advance sz st).
Proof. apply StateFacts.reading_advance. Qed.

Lemma reading_look st : reading sz input st -> reading sz input (snd (peek sz st)).
Proof. apply StateFacts.reading_peek. Qed.

Lemma reading_expect ty st st' :
  reading sz input st -> expect sz ty st = Ok st' -> reading sz input st'.
Proof. apply StateFacts.expect_keeps. exact reading_step. Qed.

Lemma reading_expression fuel : keeps (reading sz input) (parse_expression sz fuel).
Proof.
  apply StateFacts.parse_expression_keeps; [exact reading_step|exact reading_look].
Qed.

Lemma leaf_lexed ty st :
  reading sz input st -> tokens_all (lexed_token sz input) (create_node ty st).
Proof.
  intros H. simpl. repeat split; auto. apply reading_token. exact H.
Qed.

Section Expressions.
Variable rec : PState -> Parsed.
Hypothesis rec_keeps : keeps (reading sz input) rec.
Hypothesis rec_lexed : builds_lexed sz input rec.

Lemma parse_primary_lexed : builds_lexed sz input (parse_primary sz rec).
Proof.
  intros st node st' HR H. unfold parse_primary in H.
  destruct (match_ TOKEN_NUMBER st).
  { inversion H; subst. apply leaf_lexed. exact HR. }
  destruct (match_ TOKEN_IDENTIFIER st).
  { apply reading_look in HR.
    destruct (peek sz st) as [next_token st1]; simpl in HR.
    destruct (_ && _).
    - unfold parse_factorial in H.
      bind_step H. bind_step H. bind_step H. inversion H; subst.
      simpl. repeat split; auto.
      + apply reading_token. exact HR.
      + eapply rec_lexed; [|exact E0].
        eapply reading_expect; [|exact E]. apply reading_step. exact HR.
    - inversion H; subst. apply leaf_lexed. exact HR. }
  destruct (match_ TOKEN_LPAREN st); [|discriminate].
  bind_step H. bind_step H. inversion H; subst.
  eapply rec_lexed; [|exact E]. apply reading_step. exact HR.
Qed.

Lemma binop_loop_lexed is_op operand :
  keeps (reading sz input) operand -> builds_lexed sz input operand ->
  forall n node st node' st',
    reading sz input st -> tokens_all (lexed_token sz input) node ->
    binop_loop sz is_op operand n node st = Ok (node', st') ->
    tokens_all (lexed_token sz input) node'.
Proof.
  intros Hk Hop. induction n as [|n IH]; intros node st node' st' HR Hn H;
    simpl in H.
  - destruct (_ && _); [discriminate|]. inversion H; subst. exact Hn.
  - destruct (_ && _).
    + bind_step H.
      assert (reading sz input (advance sz st)) as HR1
          by (apply reading_step; exact HR).
      eapply IH; [| |exact H].
      * eapply Hk; [exact HR1|exact E].
      * simpl. repeat split; auto.
        -- apply reading_token. exact HR.
        -- eapply Hop; [exact HR1|exact E].
    + inversion H; subst. exact Hn.
Qed.

Lemma level_lexed is_op operand n :
  keeps (reading sz input) operand -> builds_lexed sz input operand ->
  builds_lexed sz input
    (fun st => let* (node, st1) := operand st in
               binop_loop sz is_op operand n node st1).
Proof.
  intros Hk Hop st node st' HR H. bind_step H.
  eapply binop_loop_lexed; [exact Hk|exact Hop| | |exact H].
  - eapply Hk; eauto.
  - eapply Hop; eauto.
Qed.

Lemma parse_equality_lexed n : builds_lexed sz input (parse_equality sz rec n).
Proof.
  assert (keeps (reading sz input) (parse_primary sz rec)) as K0
      by (apply StateFacts.parse_primary_keeps;
          [exact reading_step|exact reading_look|exact rec_keeps]).
  assert (forall is_op operand m,
             keeps (reading sz input) operand ->
             keeps (reading sz input) (fun st => let* (node, st1) := operand st in
                                binop_loop sz is_op operand m node st1))
    as KL by (intros; apply StateFacts.level_keeps;
              [exact reading_step|assumption]).
  unfold parse_equality, parse_comparison, parse_term, parse_factor.
  apply level_lexed; [apply KL, KL, KL, K0|].
  apply level_lexed; [apply KL, KL, K0|].
  apply level_lexed; [apply KL, K0|].
  apply level_lexed; [exact K0|].
  exact parse_primary_lexed.
Qed.

End Expressions.

Lemma parse_expression_lexed fuel :
  builds_lexed sz input (parse_expression sz fuel).
Proof.
  induction fuel as [|f IH]; intros st node st' HR H; simpl in H.
  - discriminate.
  - eapply parse_equality_lexed; [|exact IH|exact HR|exact H].
    apply reading_expression.
Qed.

Lemma lexed_set_right n r :
  tokens_all (lexed_token sz input) n ->
  tokens_all (lexed_token sz input) r ->
  tokens_all (lexed_token sz input) (set_right n r).
Proof.
  destruct n as [ty tok l r0 e]. simpl. intros (Ht & Hl & Hr & He) Hc.
  repeat split; auto.
Qed.

Lemma lexed_set_right_at :
  forall depth n stmt,
    tokens_all (lexed_token sz input) n -> tokens_all (lexed_token sz input) stmt ->
    tokens_all (lexed_token sz input) (set_right_at depth n stmt).
Proof.
  induction depth as [|d IH]; intros n stmt Hn Hs; simpl.
  - apply lexed_set_right; assumption.
  - destruct n as [ty tok l [r|] e]; [|exact Hn].
    simpl in *. destruct Hn as (Ht & Hl & Hr & He).
    repeat split; auto.
Qed.

Section Statements.
Variable fuel : nat.
Variable rec : PState -> Parsed.
Hypothesis rec_keeps : keeps (reading sz input) rec.
Hypothesis rec_lexed : builds_lexed sz input rec.

Lemma parse_block_loop_lexed :
  forall n block_left current st block_left' st',
    reading sz input st ->
    match block_left with
    | Some x => tokens_all (lexed_token sz input) x
    | None => True
    end ->
    parse_block_loop rec n block_left current st = Ok (block_left', st') ->
    match block_left' with
    | Some x => tokens_all (lexed_token sz input) x
    | None => True
    end.
Proof.
  induction n as [|n IH]; intros bl cur st bl' st' HR Hbl H; simpl in H.
  - destruct (_ && _); [discriminate|]. inversion H; subst. exact Hbl.
  - destruct (_ && _).
    + bind_step H.
      pose proof (rec_keeps _ _ _ HR E) as HR1.
      pose proof (rec_lexed _ _ _ HR E) as Hs.
      destruct bl as [first|]; (eapply IH; [exact HR1| |exact H]).
      * apply lexed_set_right_at; assumption.
      * exact Hs.
    + inversion H; subst. exact Hbl.
Qed.

Lemma parse_statement_body_lexed :
  builds_lexed sz input (parse_statement_body sz fuel rec).
Proof.
  pose proof (reading_expression fuel) as Ke.
  pose proof (parse_expression_lexed fuel) as He.
  intros st node st' HR H. unfold parse_statement_body in H.
  pose proof (reading_token st HR) as Ht.
  pose proof (reading_step st HR) as HR1.
  destruct (match_ TOKEN_INT st).
  { unfold parse_declaration in H.
    destruct (negb _); [discriminate|].
    destruct (negb _); [discriminate|].
    inversion H; subst. simpl. repeat split; auto.
    apply reading_token. exact HR1. }
  destruct (match_ TOKEN_IDENTIFIER st).
  { unfold parse_assignment in H.
    destruct (negb _); [discriminate|]. bind_step H.
    destruct (negb _); [discriminate|].
    inversion H; subst. simpl. repeat split; auto.
    eapply He; [|exact E]. apply reading_step. exact HR1. }
  destruct (match_ TOKEN_IF st).
  { unfold parse_if_statement in H.
    bind_step H. bind_step H. bind_step H. bind_step H.
    inversion H; subst.
    pose proof (reading_expect _ _ _ HR1 E) as HR2.
    pose proof (Ke _ _ _ HR2 E0) as HR3.
    pose proof (reading_expect _ _ _ HR3 E1) as HR4.
    simpl. repeat split; auto.
    - eapply He; [exact HR2|exact E0].
    - eapply rec_lexed; [exact HR4|exact E2]. }
  destruct (match_ TOKEN_WHILE st).
  { unfold parse_while_statement in H.
    bind_step H. bind_step H. bind_step H. bind_step H.
    inversion H; subst.
    pose proof (reading_expect _ _ _ HR1 E) as HR2.
    pose proof (Ke _ _ _ HR2 E0) as HR3.
    pose proof (reading_expect _ _ _ HR3 E1) as HR4.
    simpl. repeat split; auto.
    - eapply He; [exact HR2|exact E0].
    - eapply rec_lexed; [exact HR4|exact E2]. }
  destruct (match_ TOKEN_REPEAT st).
  { unfold parse_repeat_statement in H.
    bind_step H. destruct (negb _); [discriminate|].
    bind_step H. bind_step H. bind_step H. bind_step H.
    inversion H; subst.
    pose proof (rec_keeps _ _ _ HR1 E) as HR2.
    pose proof (reading_expect _ _ _ (reading_step _ HR2) E0) as HR3.
    simpl. repeat split; auto.
    - eapply rec_lexed; [exact HR1|exact E].
    - eapply He; [exact HR3|exact E1]. }
  destruct (match_ TOKEN_PRINT st).
  { unfold parse_print_statement in H.
    bind_step H. destruct (negb _); [discriminate|].
    inversion H; subst. simpl. repeat split; auto.
    eapply He; [exact HR1|exact E]. }
  destruct (match_ TOKEN_LBRACE st); [|discriminate].
  unfold parse_block in H.
  bind_step H. bind_step H.
  destruct (negb _); [discriminate|].
  bind_step H. inversion H; subst.
  pose proof (reading_expect _ _ _ HR E) as HR2.
  pose proof (parse_block_loop_lexed fuel None 0%nat _ _ _ HR2 I E0) as Hb.
  simpl. repeat split; auto. exact (reading_token _ HR2).
Qed.

End Statements.

Lemma reading_statement fuel : keeps (reading sz input) (parse_statement sz fuel).
Proof.
  apply StateFacts.parse_statement_keeps; [exact reading_step|exact reading_look].
Qed.

Lemma parse_statement_lexed fuel :
  builds_lexed sz input (parse_statement sz fuel).
Proof.
  induction fuel as [|f IH]; intros st node st' HR H; simpl in H.
  - discriminate.
  - eapply parse_statement_body_lexed; [|exact IH|exact HR|exact H].
    apply reading_statement.
Qed.

Lemma parse_program_loop_lexed fuel :
  forall n tok st node st',
    reading sz input st -> lexed_token sz input tok ->
    parse_program_loop sz fuel n tok st = Ok (node, st') ->
    tokens_all (lexed_token sz input) node.
Proof.
  induction n as [|n IH]; intros tok st node st' HR Ht H; simpl in H.
  - destruct (negb _); [discriminate|]. inversion H; subst.
    simpl. repeat split; auto.
  - destruct (negb _).
    + bind_step H.
      pose proof (reading_statement fuel _ _ _ HR E) as HR1.
      pose proof (parse_statement_lexed fuel _ _ _ HR E) as Hs.
      destruct (negb _).
      * bind_step H. inversion H; subst.
        apply IH in E0; [|exact HR1|apply reading_token; exact HR1].
        simpl. repeat split; auto.
      * inversion H; subst. simpl. repeat split; auto.
    + inversion H; subst. simpl. repeat split; auto.
Qed.

Lemma parse_lexed fuel : builds_lexed sz input (parse sz fuel).
Proof.
  intros st node st' HR H. unfold parse, parse_program in H.
  eapply parse_program_loop_lexed; [exact HR| |exact H].
  apply reading_token. exact HR.
Qed.

End Reading.

Lemma tokens_all_impl (P Q : Token -> Prop) :
  (forall tok, P tok -> Q tok) ->
  forall n, tokens_all P n -> tokens_all Q n.
Proof.
  intros Himp.
  apply (ASTNode_children_ind
           (fun n => tokens_all P n -> tokens_all Q n)).
  intros ty tok l r e Hl Hr He (Ht & H1 & H2 & H3). simpl.
  repeat split; auto.
  - destruct l; simpl in *; auto.
  - destruct r; simpl in *; auto.
  - destruct e; simpl in *; auto.
Qed.

End LexedFacts.

(* ================================================================= *)
(** * Properties of the tokens *)

(** The lexeme of every token but the end-of-file token is a piece of the
    input, copied character by character: it starts at or after the cursor
    the call was made with, is not empty, and ends where the call leaves
    the cursor, inside the input. *)
Theorem token_lexeme_is_slice_of_input :
  forall sz input pos ln tok pos' ln',
    Lexer.get_next_token sz input pos ln = (tok, pos', ln') ->
    tok_type tok <> TOKEN_EOF ->
    (pos <= token_start tok pos' < pos')%nat
    /\ (pos' <= String.length input)%nat
    /\ (token_start tok pos' + String.length (lexeme tok) = pos')%nat
    /\ lexeme tok
       = String.substring (token_start tok pos')
                          (String.length (lexeme tok)) input.
Proof.
  intros sz input pos ln tok pos' ln' H Hne.
  destruct (TokenFacts.token_anatomy _ _ _ _ _ _ _ H)
    as (_ & _ & _ & _ & _ & Hs & _).
  destruct (Hs Hne) as (_ & H1 & H2 & H3 & H4). auto.
Qed.

Lemma token_lexeme_is_slice_of_input_witness :
  "foo" = String.substring 2 3 "  foo = 1;".
Proof.
  destruct (token_lexeme_is_slice_of_input
              100 "  foo = 1;" 0%nat 1
              (mkToken TOKEN_IDENTIFIER "foo" 1 ERROR_NONE) 5%nat 1)
    as (_ & _ & _ & H).
  - vm_compute. reflexivity.
  - simpl. discriminate.
  - exact H.
Defined.

(** With a lexeme buffer of at least four bytes no lexeme fills it: there
    is room for the terminating NUL, whatever the input. *)
Theorem token_lexeme_fits_buffer :
  forall sz input pos ln,
    (4 <= sz)%nat ->
    (String.length
       (lexeme (fst (fst (Lexer.get_next_token sz input pos ln)))) < sz)%nat.
Proof.
  intros sz input pos ln Hsz.
  destruct (Lexer.get_next_token sz input pos ln) as [[tok pos'] ln'] eqn:H.
  destruct (TokenFacts.token_anatomy _ _ _ _ _ _ _ H)
    as (_ & _ & _ & Hb & _).
  simpl. lia.
Qed.

Lemma token_lexeme_fits_buffer_witness :
  (String.length
     (lexeme (fst (fst (Lexer.get_next_token 4 "1234567" 0 1)))) < 4)%nat.
Proof. apply token_lexeme_fits_buffer. lia. Defined.

(** The kind of a token says what its lexeme looks like: a number is a
    non-empty run of digits, an identifier starts with a letter or an
    underscore, goes on with letters, digits and underscores and is no
    keyword, each keyword kind has its word, each delimiter its character,
    an operator is one of the nine operator spellings, and an error token
    holds one character.  The error field is set on error tokens only, and
    the line is the line counter as the call found it. *)
Theorem token_kind_matches_lexeme :
  forall sz input pos ln,
    let tok := fst (fst (Lexer.get_next_token sz input pos ln)) in
    lexeme_fits_kind tok
    /\ error tok = match tok_type tok with
                   | TOKEN_ERROR => ERROR_INVALID_CHAR
                   | _ => ERROR_NONE
                   end
    /\ line tok = ln.
Proof.
  intros sz input pos ln.
  destruct (Lexer.get_next_token sz input pos ln) as [[tok pos'] ln'] eqn:H.
  destruct (TokenFacts.token_anatomy _ _ _ _ _ _ _ H)
    as (Hl & Hk & He & _).
  simpl. auto.
Qed.

(** A number or a word is cut only by the buffer: when the character after
    the token could have gone on with it (a digit after a number, an
    identifier character after an identifier or keyword), the lexeme has
    filled the buffer up to the byte kept for the NUL. *)
Theorem scanned_token_is_longest_that_fits :
  forall sz input pos ln tok pos' ln' p,
    Lexer.get_next_token sz input pos ln = (tok, pos', ln') ->
    (2 <= sz)%nat ->
    scan_class (tok_type tok) = Some p ->
    p (Lexer.char_at input pos') = true ->
    S (String.length (lexeme tok)) = sz.
Proof.
  intros sz input pos ln tok pos' ln' p H Hsz Hc Hp.
  destruct (TokenFacts.token_anatomy _ _ _ _ _ _ _ H)
    as (_ & _ & _ & _ & _ & _ & Hcut).
  destruct (Hcut p Hc Hp) as [H1 H2]. lia.
Qed.

Lemma scanned_token_is_longest_that_fits_witness :
  S (String.length "123") = 4%nat.
Proof.
  apply (scanned_token_is_longest_that_fits
           4 "12345" 0%nat 1 (mkToken TOKEN_NUMBER "123" 1 ERROR_NONE)
           3%nat 1 Lexer.isdigit).
  - vm_compute. reflexivity.
  - lia.
  - reflexivity.
  - vm_compute. reflexivity.
Defined.

(** Of the nine operators the lexer makes, the expression parser's four
    loops take seven: a greater-or-equal or less-or-equal token passes none
    of their tests.  And the only token that passes the test of
    [parse_equality] is the double equals sign: the lexer makes no
    not-equal operator. *)
Theorem operators_lexed_but_not_parsed :
  forall sz input pos ln tok pos' ln',
    Lexer.get_next_token sz input pos ln = (tok, pos', ln') ->
    tok_type tok = TOKEN_OPERATOR ->
    (accepted_operator tok = false
     <-> lexeme tok = ">=" \/ lexeme tok = "<=")
    /\ (Parser.is_equality_op tok = true -> lexeme tok = "==").
Proof.
  intros sz input pos ln tok pos' ln' H Hty.
  destruct (TokenFacts.token_anatomy _ _ _ _ _ _ _ H) as (_ & Hk & _).
  unfold lexeme_fits_kind in Hk. rewrite Hty in Hk.
  unfold operator_lexemes in Hk. simpl in Hk.
  destruct tok as [ty lx l e]. simpl in *.
  unfold accepted_operator, Parser.is_factor_op, Parser.is_term_op,
    Parser.is_comparison_op, Parser.is_equality_op, Parser.lexeme0.
  repeat (destruct Hk as [Hk|Hk]; [subst lx; simpl;
    (split; [split; [intros ?; try discriminate; auto
                    |intros [?|?]; try discriminate; reflexivity]
            |intros ?; try discriminate; reflexivity])|]).
  contradiction.
Qed.

Lemma operators_lexed_but_not_parsed_witness :
  accepted_operator (mkToken TOKEN_OPERATOR ">=" 1 ERROR_NONE) = false
  <-> lexeme (mkToken TOKEN_OPERATOR ">=" 1 ERROR_NONE) = ">="
      \/ lexeme (mkToken TOKEN_OPERATOR ">=" 1 ERROR_NONE) = "<=".
Proof.
  destruct (operators_lexed_but_not_parsed
              100 "a >= b" 1%nat 1
              (mkToken TOKEN_OPERATOR ">=" 1 ERROR_NONE) 4%nat 1) as [H _].
  - vm_compute. reflexivity.
  - reflexivity.
  - exact H.
Defined.

(** For a token other than end-of-file, the line counter after the call is
    the counter before it plus the number of newlines between the cursor
    and the start of the token, in blanks and in comments alike; the
    token itself carries the counter as it was before them. *)
Theorem line_counter_counts_skipped_newlines :
  forall sz input pos ln tok pos' ln',
    Lexer.get_next_token sz input pos ln = (tok, pos', ln') ->
    tok_type tok <> TOKEN_EOF ->
    line tok = ln
    /\ ln' = ln + newlines input pos (token_start tok pos' - pos).
Proof.
  intros sz input pos ln tok pos' ln' H Hne.
  destruct (TokenFacts.token_anatomy _ _ _ _ _ _ _ H)
    as (Hl & _ & _ & _ & _ & Hs & _).
  destruct (Hs Hne) as (Hb & _).
  pose proof (TokenFacts.skip_blanks_lines (String.length input - pos) input
                pos ln) as Hn.
  cbv zeta in Hn. rewrite Hb in Hn. simpl in Hn. auto.
Qed.

Lemma line_counter_counts_skipped_newlines_witness :
  line (mkToken TOKEN_IDENTIFIER "x" 1 ERROR_NONE) = 1
  /\ 3 = 1 + newlines
               (String Lexer.LF ("/* a" ++ String Lexer.LF " */ x")) 0
               (token_start (mkToken TOKEN_IDENTIFIER "x" 1 ERROR_NONE) 11
                - 0).
Proof.
  apply (line_counter_counts_skipped_newlines
           100 (String Lexer.LF ("/* a" ++ String Lexer.LF " */ x"))
           0%nat 1 (mkToken TOKEN_IDENTIFIER "x" 1 ERROR_NONE) 11%nat 3).
  - vm_compute. reflexivity.
  - simpl. discriminate.
Defined.

(** A comment that is opened and never closed swallows the rest of the
    input: the call returns the end-of-file token, without an error, and
    leaves the cursor on the terminating NUL. *)
Theorem unterminated_comment_is_end_of_input :
  forall sz input pos ln tok pos' ln',
    Lexer.char_at input pos = "/"%char ->
    Lexer.char_at input (pos + 1) = "*"%char ->
    (forall k, (pos + 2 <= k)%nat -> Lexer.char_at input k = "*"%char ->
               Lexer.char_at input (k + 1) <> "/"%char) ->
    Lexer.get_next_token sz input pos ln = (tok, pos', ln') ->
    tok = mkToken TOKEN_EOF "EOF" ln ERROR_NONE
    /\ Lexer.char_at input pos' = Lexer.NUL /\ (pos + 2 <= pos')%nat.
Proof.
  intros sz input pos ln tok pos' ln'.
  apply TokenFacts.unterminated_comment_eof.
Qed.

Lemma unterminated_comment_is_end_of_input_witness :
  mkToken TOKEN_EOF "EOF" 1 ERROR_NONE = mkToken TOKEN_EOF "EOF" 1 ERROR_NONE
  /\ Lexer.char_at "x /* y * /" 10 = Lexer.NUL /\ (2 + 2 <= 10)%nat.
Proof.
  apply (unterminated_comment_is_end_of_input
           100 "x /* y * /" 2%nat 1 (mkToken TOKEN_EOF "EOF" 1 ERROR_NONE)
           10%nat 0).
  - reflexivity.
  - reflexivity.
  - intros k Hk Hc.
    do 10 (destruct k as [|k]; [vm_compute in Hc; try discriminate; lia|]).
    vm_compute in Hc. destruct k; discriminate.
  - vm_compute. reflexivity.
Defined.

(** The lookahead of [parse_primary] calls the lexer and puts the cursor
    back, but not the line counter.  When newlines stand before the next
    token they are counted by the lookahead and again by the call that
    consumes the token: that token is stamped with a line that already
    includes them (without the lookahead it carries the line before them),
    and the counter ends up ahead by their number.  Kind, lexeme and cursor
    are the same either way. *)
Theorem lookahead_counts_newlines_twice :
  forall sz st,
    let direct := Parser.advance sz st in
    let after := Parser.advance sz (snd (Parser.peek sz st)) in
    let n := newlines (Parser.source st) (Parser.position st)
               (token_start (Parser.current_token direct)
                            (Parser.position direct)
                - Parser.position st) in
    tok_type (Parser.current_token direct) <> TOKEN_EOF ->
    Parser.position after = Parser.position direct
    /\ tok_type (Parser.current_token after)
       = tok_type (Parser.current_token direct)
    /\ lexeme (Parser.current_token after)
       = lexeme (Parser.current_token direct)
    /\ line (Parser.current_token direct) = Parser.current_line st
    /\ Parser.current_line direct = Parser.current_line st + n
    /\ line (Parser.current_token after) = Parser.current_line st + n
    /\ Parser.current_line after = Parser.current_line st + 2 * n.
Proof.
  intros sz [src pos cur l]. unfold Parser.advance, Parser.peek.
  cbn -[Z.mul Z.add newlines token_start].
  destruct (Lexer.get_next_token sz src pos l) as [[t p] k] eqn:E.
  cbn -[Z.mul Z.add newlines token_start].
  rewrite (LineFacts.get_next_token_shift _ _ _ _ k _ _ _ E).
  cbn -[Z.mul Z.add newlines token_start]. intros Hne.
  destruct (TokenFacts.token_anatomy _ _ _ _ _ _ _ E)
    as (Hl & _ & _ & _ & _ & Hs & _).
  destruct (Hs Hne) as (Hb & _).
  pose proof (TokenFacts.skip_blanks_lines (String.length src - pos) src
                pos l) as Hn.
  cbv zeta in Hn. rewrite Hb in Hn. simpl in Hn.
  repeat split; auto.
  destruct (tok_type t); try lia. congruence.
Qed.

Lemma lookahead_counts_newlines_twice_witness :
  line (Parser.current_token
          (Parser.advance 100
             (snd (Parser.peek 100
                     (Parser.mkPState ("x" ++ String Lexer.LF "+ 1") 1
                        (mkToken TOKEN_IDENTIFIER "x" 1 ERROR_NONE) 1)))))
  = 1 + newlines ("x" ++ String Lexer.LF "+ 1") 1 (2 - 1).
Proof.
  destruct (lookahead_counts_newlines_twice 100
              (Parser.mkPState ("x" ++ String Lexer.LF "+ 1") 1
                 (mkToken TOKEN_IDENTIFIER "x" 1 ERROR_NONE) 1))
    as (_ & _ & _ & _ & _ & H & _).
  - vm_compute. discriminate.
  - exact H.
Defined.

(* ================================================================= *)
(** * Properties of the parser, alone and with the analyzer *)

(** No level of the expression parser takes a greater-or-equal or a
    less-or-equal operator, and those are the only operators it leaves:
    when [parse_expression] returns in front of an operator token, that
    token is one of the two.  (The statement parsers then ask for a
    semicolon or a parenthesis and exit.) *)
Theorem expression_ends_before_ge_or_le :
  forall sz fuel input st node st',
    reading sz input st ->
    Parser.parse_expression sz fuel st = Ok (node, st') ->
    tok_type (Parser.current_token st') = TOKEN_OPERATOR ->
    lexeme (Parser.current_token st') = ">="
    \/ lexeme (Parser.current_token st') = "<=".
Proof.
  intros sz fuel input st node st' Hr H Hty.
  pose proof (StateFacts.parse_expression_keeps sz (reading sz input)
                (StateFacts.reading_advance sz input)
                (StateFacts.reading_peek sz input) fuel _ _ _ Hr H)
    as [_ (pos & ln & ln' & Hlex)].
  apply StopFacts.parse_expression_stops in H.
  assert (Hm : Parser.match_ TOKEN_OPERATOR st' = true)
    by (unfold Parser.match_; rewrite Hty; reflexivity).
  specialize (H Hm).
  destruct (TokenFacts.token_anatomy _ _ _ _ _ _ _ Hlex) as (_ & Hk & _).
  unfold lexeme_fits_kind in Hk. rewrite Hty in Hk.
  unfold operator_lexemes in Hk. simpl in Hk.
  destruct (Parser.current_token st') as [ty lx l e]. simpl in *.
  unfold accepted_operator, Parser.is_factor_op, Parser.is_term_op,
    Parser.is_comparison_op, Parser.is_equality_op, Parser.lexeme0 in H.
  repeat (destruct Hk as [Hk|Hk];
          [subst lx; simpl in H; try discriminate; auto|]).
  contradiction.
Qed.

Lemma expression_ends_before_ge_or_le_witness :
  lexeme (mkToken TOKEN_OPERATOR ">=" 1 ERROR_NONE) = ">="
  \/ lexeme (mkToken TOKEN_OPERATOR ">=" 1 ERROR_NONE) = "<=".
Proof.
  apply (expression_ends_before_ge_or_le 100 2 "1 >= 2"
           (Parser.parser_init 100 1 "1 >= 2")
           (Num "1")
           (Parser.mkPState "1 >= 2" 4
              (mkToken TOKEN_OPERATOR ">=" 1 ERROR_NONE) 1)).
  - split; [reflexivity|]. exists 0%nat, 1, 1. vm_compute. reflexivity.
  - vm_compute. reflexivity.
  - reflexivity.
Defined.

(** A parse that returns has read its input to the end: the source is the
    one handed to [parser_init], the current token is the end-of-file
    token, and the cursor is on the terminating NUL.  Text that is not part
    of a statement is never silently left over. *)
Theorem parse_reads_whole_input :
  forall sz fuel l input ast st',
    Parser.parse sz fuel (Parser.parser_init sz l input) = Ok (ast, st') ->
    Parser.source st' = input
    /\ at_eof st'
    /\ Lexer.char_at input (Parser.position st') = Lexer.NUL.
Proof.
  intros sz fuel l input ast st' H.
  pose proof (StateFacts.parse_keeps sz (reading sz input)
                (StateFacts.reading_advance sz input)
                (StateFacts.reading_peek sz input) fuel _ _ _
                (StateFacts.reading_init sz l input) H)
    as [Hs (pos & ln & ln' & Hlex)].
  assert (He : at_eof st').
  { unfold Parser.parse, Parser.parse_program in H.
    eapply TreeFacts.parse_program_loop_at_eof. exact H. }
  repeat split; auto.
  destruct (TokenFacts.token_anatomy _ _ _ _ _ _ _ Hlex)
    as (_ & _ & _ & _ & Heof & _).
  rewrite Hs in Heof. apply Heof. exact He.
Qed.

Lemma parse_reads_whole_input_witness :
  Lexer.char_at "x = 1; " 7 = Lexer.NUL.
Proof.
  destruct (parse_reads_whole_input 100 3 1 "x = 1; "
              (Node AST_PROGRAM (tok1 TOKEN_IDENTIFIER "x")
                 (Some (Node AST_ASSIGN (tok1 TOKEN_IDENTIFIER "x")
                          (Some (Ident "x")) (Some (Num "1")) None))
                 None None)
              (Parser.mkPState "x = 1; " 7 (tok1 TOKEN_EOF "EOF") 0))
    as (_ & _ & H).
  - vm_compute. reflexivity.
  - exact H.
Defined.

(** What [parse_expression] returns is an expression tree: leaves are
    Number and Identifier nodes with a token of that kind, inner nodes are
    BinOp nodes over an operator token with both operands, and calls of
    factorial with their argument.  No statement node and no node with a
    missing operand occurs in it. *)
Theorem parse_expression_builds_expression_tree :
  forall sz fuel st node st',
    Parser.parse_expression sz fuel st = Ok (node, st') -> expr_tree node.
Proof.
  intros sz fuel st node st'. apply TreeFacts.parse_expression_expr.
Qed.

Lemma parse_expression_builds_expression_tree_witness :
  expr_tree
    (Node AST_FUNCALL (tok1 TOKEN_IDENTIFIER "factorial")
       (Some (BinOp "+" (Ident "n") (Num "1"))) None None).
Proof.
  apply (parse_expression_builds_expression_tree 100 3
           (Parser.parser_init 100 1 "factorial(n + 1)") _
           (Parser.mkPState "factorial(n + 1)" 16 (tok1 TOKEN_EOF "EOF") 0)).
  vm_compute. reflexivity.
Defined.

(** Every Assign node of a tree that [parse] returns has both its
    children, also after [parse_block] has stored later statements through
    the second child of earlier ones. *)
Theorem parsed_assignments_have_both_sides :
  forall sz fuel st ast st',
    Parser.parse sz fuel st = Ok (ast, st') -> assigns_complete ast.
Proof.
  intros sz fuel st ast st'. apply TreeFacts.parse_complete.
Qed.

Lemma parsed_assignments_have_both_sides_witness :
  assigns_complete
    (Node AST_PROGRAM (tok1 TOKEN_LBRACE "{")
       (Some (Node AST_BLOCK (tok1 TOKEN_IDENTIFIER "x")
                (Some (Node AST_ASSIGN (tok1 TOKEN_IDENTIFIER "x")
                         (Some (Ident "x"))
                         (Some (Node AST_ASSIGN (tok1 TOKEN_IDENTIFIER "y")
                                  (Some (Ident "y")) (Some (Num "2")) None))
                         None))
                None None))
       None None).
Proof.
  apply (parsed_assignments_have_both_sides 100 3
           (Parser.parser_init 100 1 "{ x = 1; y = 2; }") _
           (Parser.mkPState "{ x = 1; y = 2; }" 17 (tok1 TOKEN_EOF "EOF") 0)).
  vm_compute. reflexivity.
Defined.

(** On a tree whose Assign nodes have both children (every tree the parser
    returns is one), the verdict of [analyze_semantics] and what it prints
    agree: the verdict is invalid exactly when an undeclared-variable or
    redeclared-variable error was reported. *)
Theorem invalid_verdict_iff_error_reported :
  forall ast,
    assigns_complete ast ->
    (fst (Semantic.analyze_semantics (Some ast)) = false
     <-> Exists is_error
           (Semantic.out (snd (Semantic.analyze_semantics (Some ast))))).
Proof.
  intros ast Hc. unfold Semantic.analyze_semantics, Semantic.on_node.
  fold initial_state.
  destruct (VerdictFacts.check_program_verdict_explained ast Hc initial_state)
    as [ds [E W]].
  destruct (SemanticFacts.check_program_verdict_sound ast initial_state)
    as [ds' [E' W']].
  rewrite E in E'. simpl in E'. subst ds'. rewrite E. simpl.
  split; [exact W|].
  intros Hex. destruct (fst (Semantic.check_program ast initial_state));
    [|reflexivity].
  specialize (W' eq_refl). exfalso.
  apply Exists_exists in Hex. destruct Hex as [d [Hin Hd]].
  rewrite Forall_forall in W'. specialize (W' d Hin).
  unfold Shape.is_warning in W'. unfold is_error in Hd.
  rewrite W' in Hd. destruct Hd; discriminate.
Qed.

Lemma invalid_verdict_iff_error_reported_witness :
  fst (Semantic.analyze_semantics
         (Some (Node AST_PROGRAM (tok1 TOKEN_IDENTIFIER "x")
                  (Some assign_x_y) None None))) = false
  <-> Exists is_error
        (Semantic.out
           (snd (Semantic.analyze_semantics
                   (Some (Node AST_PROGRAM (tok1 TOKEN_IDENTIFIER "x")
                            (Some assign_x_y) None None))))).
Proof.
  apply invalid_verdict_iff_error_reported.
  simpl. repeat split; discriminate.
Defined.

(** The first token decides the statement: [parse_statement] returns a
    node of the kind that belongs to the kind of its first token, and for
    a first token of any other kind (a number, an operator, a semicolon,
    a parenthesis, a closing brace, [until], an invalid character, the end
    of input) it exits with the unexpected-token message. *)
Theorem statement_kind_follows_first_token :
  forall sz fuel st,
    (forall node st',
        Parser.parse_statement sz fuel st = Ok (node, st') ->
        statement_kind (tok_type (Parser.current_token st))
        = Some (node_type node))
    /\ (statement_kind (tok_type (Parser.current_token st)) = None ->
        Parser.parse_statement sz (S fuel) st
        = Fatal (UnexpectedStatement (lexeme (Parser.current_token st)))).
Proof.
  intros sz fuel st. split.
  - intros node st' H. destruct fuel as [|f]; simpl in H; [discriminate|].
    unfold Parser.parse_statement_body in H.
    destruct (Parser.match_ TOKEN_INT st) eqn:M1.
    { apply TreeFacts.match_type in M1. rewrite M1.
      unfold Parser.parse_declaration in H.
      destruct (negb _); [discriminate|].
      destruct (negb _); [discriminate|].
      inversion H; subst. reflexivity. }
    destruct (Parser.match_ TOKEN_IDENTIFIER st) eqn:M2.
    { apply TreeFacts.match_type in M2. rewrite M2.
      unfold Parser.parse_assignment in H.
      destruct (negb _); [discriminate|]. TreeFacts.bind_step H.
      destruct (negb _); [discriminate|].
      inversion H; subst. reflexivity. }
    destruct (Parser.match_ TOKEN_IF st) eqn:M3.
    { apply TreeFacts.match_type in M3. rewrite M3.
      unfold Parser.parse_if_statement in H.
      do 4 TreeFacts.bind_step H. inversion H; subst. reflexivity. }
    destruct (Parser.match_ TOKEN_WHILE st) eqn:M4.
    { apply TreeFacts.match_type in M4. rewrite M4.
      unfold Parser.parse_while_statement in H.
      do 4 TreeFacts.bind_step H. inversion H; subst. reflexivity. }
    destruct (Parser.match_ TOKEN_REPEAT st) eqn:M5.
    { apply TreeFacts.match_type in M5. rewrite M5.
      unfold Parser.parse_repeat_statement in H.
      TreeFacts.bind_step H. destruct (negb _); [discriminate|].
      do 4 TreeFacts.bind_step H. inversion H; subst. reflexivity. }
    destruct (Parser.match_ TOKEN_PRINT st) eqn:M6.
    { apply TreeFacts.match_type in M6. rewrite M6.
      unfold Parser.parse_print_statement in H.
      TreeFacts.bind_step H. destruct (negb _); [discriminate|].
      inversion H; subst. reflexivity. }
    destruct (Parser.match_ TOKEN_LBRACE st) eqn:M7; [|discriminate].
    apply TreeFacts.match_type in M7. rewrite M7.
    unfold Parser.parse_block in H.
    do 2 TreeFacts.bind_step H.
    destruct (negb _); [discriminate|].
    TreeFacts.bind_step H. inversion H; subst. reflexivity.
  - intros Hk. simpl. unfold Parser.parse_statement_body, Parser.match_.
    destruct (tok_type (Parser.current_token st)); simpl in *;
      try discriminate; reflexivity.
Qed.



(** When [analyze_semantics] is done, the table it leaves (the one that
    [dump_symbol_table] prints) is back at scope level 0 and holds symbols
    of level 0 only, whatever the tree: every symbol declared in a block
    has been removed. *)
Theorem analysis_leaves_only_global_symbols :
  forall ast,
    Semantic.current_scope
      (Semantic.table (snd (Semantic.analyze_semantics (Some ast)))) = 0
    /\ Forall (fun s => Semantic.scope_level s = 0)
         (Semantic.head
            (Semantic.table (snd (Semantic.analyze_semantics (Some ast))))).
Proof.
  intros ast. unfold Semantic.analyze_semantics, Semantic.on_node.
  fold initial_state.
  destruct (TableFacts.pushes_every_check ast) as [_ [_ Hp]].
  destruct (Hp initial_state) as (fresh & kept & Hh & Hf & Hg & Hc).
  { constructor. }
  simpl in Hg. inversion Hg; subst.
  rewrite Hh, app_nil_r. split; [exact Hc|exact Hf].
Qed.

(* ================================================================= *)
(** * The levels of the expression parser *)

Module FoldFacts.
Import Parser.

Ltac bind_step H :=
  let a := fresh "a" in
  let E := fresh "E" in
  apply ParserFacts.bind_Ok in H; destruct H as [a [E H]];
  try (destruct a as [? ?]).

Section WithLexemeSize.
Variable sz : nat.

(** What the loop of a level returns is the left fold of what it took. *)
Lemma binop_loop_folds is_op operand :
  forall n node st node' st',
    binop_loop sz is_op operand n node st = Ok (node', st') ->
    exists steps,
      operands_of sz is_op operand st steps st'
      /\ node' = fold_left_binops node steps
      /\ (length steps <= n)%nat.
Proof.
  induction n as [|n IH]; intros node st node' st' H; simpl in H.
  - destruct (_ && _) eqn:Hc; [discriminate|]. inversion H; subst.
    exists []. repeat split; [constructor; exact Hc|simpl; lia].
  - destruct (match_ TOKEN_OPERATOR st && _) eqn:Hc.
    + bind_step H. apply IH in H. destruct H as (steps & Ho & Hn & Hl).
      exists ((current_token st, a) :: steps). repeat split.
      * econstructor; eauto.
      * exact Hn.
      * simpl. lia.
    + inversion H; subst.
      exists []. repeat split; [constructor; exact Hc|simpl; lia].
Qed.

(** And the loop returns that fold whenever its bound allows the steps. *)
Lemma operands_of_loop is_op operand :
  forall st steps st',
    operands_of sz is_op operand st steps st' ->
    forall n node,
      (length steps <= n)%nat ->
      binop_loop sz is_op operand n node st
      = Ok (fold_left_binops node steps, st').
Proof.
  induction 1 as [st Hc|st rhs st1 steps st' Hc Hop Hrest IH];
    intros n node Hn.
  - destruct n; simpl; rewrite Hc; reflexivity.
  - destruct n as [|n]; simpl in Hn; [lia|].
    simpl. rewrite Hc, Hop. simpl. apply IH. lia.
Qed.

Lemma level_folds is_op operand n :
  folds_left sz is_op operand
    (fun st => let* (node, st1) := operand st in
               binop_loop sz is_op operand n node st1).
Proof.
  intros st node st' H. bind_step H.
  apply binop_loop_folds in H. destruct H as (steps & Ho & Hn & _).
  exists a, p, steps. auto.
Qed.

Lemma level_returns is_op operand n :
  returns_fold sz is_op operand
    (fun st => let* (node, st2) := operand st in
               binop_loop sz is_op operand n node st2) n.
Proof.
  intros st first st1 steps st' Ho Hs Hn. rewrite Ho. simpl.
  apply operands_of_loop; assumption.
Qed.

End WithLexemeSize.
End FoldFacts.

Module GradedFacts.
Import Parser.

Ltac bind_step H :=
  let a := fresh "a" in
  let E := fresh "E" in
  apply ParserFacts.bind_Ok in H; destruct H as [a [E H]];
  try (destruct a as [? ?]).

(** *** States at the same place *)

Lemma same_place_refl st : same_place st st.
Proof. repeat split. Qed.

Lemma same_place_sym a b : same_place a b -> same_place b a.
Proof. intros (H1 & H2 & H3). repeat split; auto. Qed.

Lemma same_place_trans a b c :
  same_place a b -> same_place b c -> same_place a c.
Proof.
  intros (H1 & H2 & H3) (K1 & K2 & K3).
  repeat split; etransitivity; eauto.
Qed.

(** On an operator token that the lexer made, the test of a level holds
    exactly of the operators that the specification lists for it. *)
Lemma level_test_operators sz input tok k :
  lexed_token sz input tok ->
  tok_type tok = TOKEN_OPERATOR ->
  (k < 4)%nat ->
  (level_test k tok = true <-> In (lexeme tok) (level_operators k)).
Proof.
  intros (pos & ln & pos' & ln' & E) Hty Hk.
  destruct (TokenFacts.token_anatomy _ _ _ _ _ _ _ E) as (_ & Hf & _).
  unfold lexeme_fits_kind in Hf. rewrite Hty in Hf.
  unfold operator_lexemes in Hf. simpl in Hf.
  destruct tok as [ty lx l e]. simpl in *.
  destruct k as [|[|[|[|k]]]]; try lia;
    unfold level_test, is_equality_op, is_comparison_op, is_term_op,
      is_factor_op, lexeme0;
    repeat (destruct Hf as [Hf|Hf];
            [subst lx; simpl;
             (split; [intros ?; first [discriminate|auto]
                     |intros Hin;
                      repeat (destruct Hin as [Hin|Hin];
                              [first [discriminate Hin|reflexivity]|]);
                      first [contradiction|reflexivity]])|]);
    contradiction.
Qed.

Section WithLexemeSize.
Variable sz : nat.

Lemma same_place_advance a b :
  same_place a b -> same_place (advance sz a) (advance sz b).
Proof.
  intros (H1 & H2 & _). unfold advance. rewrite <- H1, <- H2.
  destruct (Lexer.get_next_token sz (source a) (position a) (current_line a))
    as [[t p] k] eqn:E.
  rewrite (LineFacts.get_next_token_shift _ _ _ _ (current_line b) _ _ _ E).
  repeat split.
Qed.

Lemma same_place_peek st : same_place st (snd (peek sz st)).
Proof.
  unfold peek. destruct (Lexer.get_next_token _ _ _ _) as [[t p] k].
  repeat split.
Qed.

Lemma consumed_from a b ws st' :
  same_place a b -> consumed sz b ws st' -> consumed sz a ws st'.
Proof.
  intros Hs Hc. revert a Hs.
  induction Hc as [st st' Hp|st ws st' Hc IH]; intros a Hs.
  - constructor. eapply same_place_trans; eauto.
  - destruct Hs as (H1 & H2 & H3). rewrite <- H3. constructor.
    apply IH. apply same_place_advance. repeat split; auto.
Qed.

Lemma consumed_app a u b v c :
  consumed sz a u b -> consumed sz b v c -> consumed sz a (u ++ v) c.
Proof.
  induction 1 as [st st' Hp|st ws st' Hc IH]; intros Hv; simpl.
  - eapply consumed_from; eauto.
  - constructor. apply IH. exact Hv.
Qed.

Lemma consumed_one st st' :
  same_place (advance sz st) st' ->
  consumed sz st [word (current_token st)] st'.
Proof. intros H. constructor. constructor. exact H. Qed.

(** *** Expressions without parentheses *)

Section NoParenthesis.
Variable input : string.
Variable lo : nat.
Hypothesis no_paren : no_parenthesis_from input lo.

Lemma lexed_not_lparen pos ln tok pos' ln' :
  (lo <= pos)%nat ->
  Lexer.get_next_token sz input pos ln = (tok, pos', ln') ->
  tok_type tok <> TOKEN_LPAREN.
Proof.
  intros Hlo E Hty.
  destruct (TokenFacts.token_anatomy _ _ _ _ _ _ _ E)
    as (_ & Hk & _ & _ & _ & Hs & _).
  unfold lexeme_fits_kind in Hk. rewrite Hty in Hk.
  destruct Hs as (_ & Hb & Hi & Hsum & Hsl).
  { rewrite Hty. discriminate. }
  rewrite Hk in Hsl, Hsum. simpl in Hsl, Hsum.
  rewrite TokenFacts.substring_cons in Hsl by lia.
  inversion Hsl as [Hc].
  apply (no_paren (token_start tok pos')); [lia|]. symmetry. exact Hc.
Qed.

Lemma reading_from_advance st :
  reading_from sz input lo st -> reading_from sz input lo (advance sz st).
Proof.
  intros [Hs (pos & ln & ln' & Hlo & E)]. unfold reading_from, advance.
  destruct (Lexer.get_next_token sz (source st) (position st)
              (current_line st)) as [[tok p] k] eqn:E1.
  simpl. split; [exact Hs|]. rewrite Hs in E1.
  exists (position st), (current_line st), k. split; [|exact E1].
  apply LexerFacts.get_next_token_cursor in E. lia.
Qed.

Lemma reading_from_peek st :
  reading_from sz input lo st -> reading_from sz input lo (snd (peek sz st)).
Proof.
  intros [Hs Hl]. unfold reading_from, peek in *.
  destruct (Lexer.get_next_token sz (source st) (position st)
              (current_line st)) as [[tok pos] ln].
  simpl. split; assumption.
Qed.

Lemma reading_from_not_lparen st :
  reading_from sz input lo st -> match_ TOKEN_LPAREN st = false.
Proof.
  intros [Hs (pos & ln & ln' & Hlo & E)].
  apply lexed_not_lparen in E; [|exact Hlo].
  unfold match_. destruct (tok_type (current_token st)); try reflexivity.
  congruence.
Qed.

Lemma peeked_not_lparen st :
  reading_from sz input lo st ->
  TokenType_eqb (tok_type (fst (peek sz st))) TOKEN_LPAREN = false.
Proof.
  intros [Hs (pos & ln & ln' & Hlo & E)]. unfold peek.
  destruct (Lexer.get_next_token sz (source st) (position st)
              (current_line st)) as [[tok p] k] eqn:E1.
  simpl. rewrite Hs in E1.
  apply lexed_not_lparen in E1.
  - destruct (tok_type tok); try reflexivity. congruence.
  - apply LexerFacts.get_next_token_cursor in E. lia.
Qed.

Lemma parse_primary_in_order rec : in_order sz input lo 4 (parse_primary sz rec).
Proof.
  intros st node st' HR H. unfold parse_primary in H.
  destruct (match_ TOKEN_NUMBER st) eqn:Hn.
  { inversion H; subst. split; [|split].
    - apply graded_number. apply TreeFacts.match_type. exact Hn.
    - apply consumed_one. apply same_place_refl.
    - apply reading_from_advance. exact HR. }
  destruct (match_ TOKEN_IDENTIFIER st) eqn:Hi.
  { pose proof (peeked_not_lparen st HR) as Hp.
    pose proof (reading_from_peek st HR) as HR1.
    pose proof (same_place_peek st) as Hs.
    pose proof (ParserFacts.peek_state sz st) as [_ Htok].
    destruct (peek sz st) as [next_token st1]; simpl in *.
    rewrite Hp in H. simpl in H. inversion H; subst. split; [|split].
    - unfold create_node. rewrite Htok. apply graded_identifier.
      apply TreeFacts.match_type. exact Hi.
    - unfold create_node. simpl. rewrite Htok. apply consumed_one.
      apply same_place_advance. exact Hs.
    - apply reading_from_advance. exact HR1. }
  rewrite (reading_from_not_lparen st HR) in H. discriminate.
Qed.

Lemma binop_loop_in_order k operand :
  (k < 4)%nat ->
  in_order sz input lo (S k) operand ->
  forall n node st0 st node' st',
    graded k node ->
    consumed sz st0 (map word (yield node)) st ->
    reading_from sz input lo st ->
    binop_loop sz (level_test k) operand n node st = Ok (node', st') ->
    graded k node'
    /\ consumed sz st0 (map word (yield node')) st'
    /\ reading_from sz input lo st'.
Proof.
  intros Hk Hop. induction n as [|n IH];
    intros node st0 st node' st' Hg Hc HR H; simpl in H.
  - destruct (_ && _); [discriminate|]. inversion H; subst. auto.
  - destruct (match_ TOKEN_OPERATOR st && _) eqn:Ht.
    + apply andb_prop in Ht. destruct Ht as [Hm Hl].
      bind_step H.
      destruct (Hop _ _ _ (reading_from_advance st HR) E)
        as (Hg1 & Hc1 & HR1).
      refine (IH _ st0 p node' st' _ _ HR1 H).
      * apply TreeFacts.match_type in Hm.
        apply graded_binop; auto.
        apply (level_test_operators sz input); auto.
        destruct HR as [Hs (pos & ln & ln' & _ & Hlex)].
        exists pos, ln, (position st), ln'. exact Hlex.
      * simpl. rewrite map_app. simpl.
        eapply consumed_app; [exact Hc|].
        constructor. exact Hc1.
    + inversion H; subst. auto.
Qed.

Lemma level_in_order k operand n :
  (k < 4)%nat ->
  in_order sz input lo (S k) operand ->
  in_order sz input lo k (fun st => let* (node, st1) := operand st in
                        binop_loop sz (level_test k) operand n node st1).
Proof.
  intros Hk Hop st node st' HR H. bind_step H.
  destruct (Hop _ _ _ HR E) as (Hg & Hc & HR1).
  refine (binop_loop_in_order k operand Hk Hop n a st p node st' _ Hc HR1 H).
  apply graded_tighter; assumption.
Qed.



Lemma parse_equality_in_order rec n : in_order sz input lo 0 (parse_equality sz rec n).
Proof.
  apply (level_in_order 0); [lia|].
  apply (level_in_order 1); [lia|].
  apply (level_in_order 2); [lia|].
  apply (level_in_order 3); [lia|].
  apply parse_primary_in_order.
Qed.

Lemma parse_expression_in_order fuel : in_order sz input lo 0 (parse_expression sz fuel).
Proof.
  destruct fuel as [|f]; intros st node st' HR H; simpl in H;
    [discriminate|].
  eapply parse_equality_in_order; eauto.
Qed.

End NoParenthesis.

Lemma reading_from_init l input :
  reading_from sz input 0 (parser_init sz l input).
Proof.
  unfold parser_init, reading_from, advance. simpl.
  destruct (Lexer.get_next_token sz input 0 l) as [[tok pos] ln] eqn:E.
  simpl. split; [reflexivity|]. exists 0%nat, l, ln. split; [lia|exact E].
Qed.

End WithLexemeSize.
End GradedFacts.

Module GradedShape.

(** A BinOp of a graded tree sits at the level of its operator. *)
Lemma graded_binop_inv k op l r e :
  graded k (Node AST_BINOP op (Some l) (Some r) e) ->
  exists j, (k <= j < 4)%nat /\ In (lexeme op) (level_operators j)
            /\ graded j l /\ graded (S j) r.
Proof.
  intros H. remember (Node AST_BINOP op (Some l) (Some r) e) as t eqn:E.
  induction H as [tok Ht|tok Ht|k t Hk H IH|k op0 l0 r0 Hk Hty Hl H1 _ H2 _];
    try discriminate.
  - destruct (IH E) as (j & Hj & Hrest). exists j. split; [lia|exact Hrest].
  - inversion E; subst. exists k. repeat split; auto; lia.
Qed.

End GradedShape.

(* ================================================================= *)
(** * Binding power and associativity *)

(** [parse] takes statements only: this bare expression is no program
    either, and the run exits on its first token. *)
Lemma bare_8_minus_3_minus_2_is_not_a_program :
  forall sz f : nat,
    Parser.parse_string sz (1 + f) "8 - 3 - 2"
    = Fatal (UnexpectedStatement "8").
Proof.
  intros sz f. unfold Parser.parse_string.
  rewrite (ParserFacts.parse_mono _ 1 (1 + f)); [|lia|];
    vm_compute; [reflexivity|discriminate].
Qed.




(** C6, as the code has it.  Left associativity, for each of the four
    levels ([*] [/] over primaries, [+] [-] over factors, [<] [>] over
    terms, [==] over comparisons): when the level returns, it has parsed
    one operand at the next tighter level, then, as long as the current
    token was an operator of its set, that operator and another operand at
    the next tighter level, and its tree is the left fold of these, each
    operator making a BinOp over the tree built so far and the new operand;
    it stops in front of the first token that is no operator of its set.
    Conversely an operand followed by operators of the set with their
    operands, no more of them than the loop bound, makes the level return
    that fold.  [parse_expression] is the equality level.  On the operator
    tokens that the lexer makes, the tests of the four levels hold exactly
    of [*] [/], of [+] [-], of [<] [>] and of [==].  Started on
    "8 - 3 - 2" the expression parser returns the tree of (8 - 3) - 2, which
    is also the right-hand side that [parse] returns for the statement
    "x = 8 - 3 - 2;"; and repeated [/], [<] and [==] fold to the left in the
    same way. *)
Theorem each_level_folds_left :
  (forall sz rec n,
      folds_left sz Parser.is_factor_op (Parser.parse_primary sz rec)
                 (Parser.parse_factor sz rec n)
      /\ folds_left sz Parser.is_term_op (Parser.parse_factor sz rec n)
                    (Parser.parse_term sz rec n)
      /\ folds_left sz Parser.is_comparison_op (Parser.parse_term sz rec n)
                    (Parser.parse_comparison sz rec n)
      /\ folds_left sz Parser.is_equality_op
                    (Parser.parse_comparison sz rec n)
                    (Parser.parse_equality sz rec n))
  /\ (forall sz rec n,
         returns_fold sz Parser.is_factor_op (Parser.parse_primary sz rec)
                      (Parser.parse_factor sz rec n) n
         /\ returns_fold sz Parser.is_term_op (Parser.parse_factor sz rec n)
                         (Parser.parse_term sz rec n) n
         /\ returns_fold sz Parser.is_comparison_op
                         (Parser.parse_term sz rec n)
                         (Parser.parse_comparison sz rec n) n
         /\ returns_fold sz Parser.is_equality_op
                         (Parser.parse_comparison sz rec n)
                         (Parser.parse_equality sz rec n) n)
  /\ (forall sz f st,
         Parser.parse_expression sz (S f) st
         = Parser.parse_equality sz (Parser.parse_expression sz f) f st)
  /\ (forall sz input tok,
         lexed_token sz input tok ->
         tok_type tok = TOKEN_OPERATOR ->
         (Parser.is_factor_op tok = true <-> In (lexeme tok) ["*"; "/"])
         /\ (Parser.is_term_op tok = true <-> In (lexeme tok) ["+"; "-"])
         /\ (Parser.is_comparison_op tok = true
             <-> In (lexeme tok) ["<"; ">"])
         /\ (Parser.is_equality_op tok = true <-> lexeme tok = "=="))
  /\ (forall sz f : nat,
         Parser.parse_expression_string sz (3 + f) "8 - 3 - 2"
         = Ok (BinOp "-" (BinOp "-" (Num "8") (Num "3")) (Num "2"))
         /\ Parser.parse_string sz (4 + f) "x = 8 - 3 - 2;"
            = Ok (Node AST_PROGRAM (tok1 TOKEN_IDENTIFIER "x")
                    (Some (Node AST_ASSIGN (tok1 TOKEN_IDENTIFIER "x")
                             (Some (Ident "x"))
                             (Some (BinOp "-" (BinOp "-" (Num "8") (Num "3"))
                                      (Num "2")))
                             None))
                    None None)
         /\ Parser.parse_expression_string sz (3 + f) "8 / 4 / 2"
            = Ok (BinOp "/" (BinOp "/" (Num "8") (Num "4")) (Num "2"))
         /\ Parser.parse_expression_string sz (3 + f) "1 < 2 < 3"
            = Ok (BinOp "<" (BinOp "<" (Num "1") (Num "2")) (Num "3"))
         /\ Parser.parse_expression_string sz (3 + f) "1 == 2 == 3"
            = Ok (BinOp "==" (BinOp "==" (Num "1") (Num "2")) (Num "3"))).
Proof.
  split; [|split; [|split; [|split]]].
  - intros sz rec n. repeat split; apply FoldFacts.level_folds.
  - intros sz rec n. repeat split; apply FoldFacts.level_returns.
  - reflexivity.
  - intros sz input tok Hlex Hty.
    pose proof (fun k => GradedFacts.level_test_operators sz input tok k
                           Hlex Hty) as Hl.
    split; [apply (Hl 3%nat); lia|].
    split; [apply (Hl 2%nat); lia|].
    split; [apply (Hl 1%nat); lia|].
    rewrite (Hl 0%nat) by lia. simpl.
    destruct Hlex as (pos & ln & pos' & ln' & E).
    destruct (TokenFacts.token_anatomy _ _ _ _ _ _ _ E) as (_ & Hf & _).
    unfold lexeme_fits_kind in Hf. rewrite Hty in Hf.
    unfold operator_lexemes in Hf. simpl in Hf.
    split.
    + intros [H|[H|[]]]; [auto|]. rewrite <- H in Hf. intuition discriminate.
    + intros H. left. auto.
  - intros sz f. repeat split.
    + apply ParserFacts.parse_expression_string_mono. vm_compute. reflexivity.
    + apply ParserFacts.parse_string_mono. vm_compute. reflexivity.
    + apply ParserFacts.parse_expression_string_mono. vm_compute. reflexivity.
    + apply ParserFacts.parse_expression_string_mono. vm_compute. reflexivity.
    + apply ParserFacts.parse_expression_string_mono. vm_compute. reflexivity.
Qed.

Lemma each_level_folds_left_witness :
  exists first st1 steps,
    Parser.parse_factor 100 (Parser.parse_expression 100 2) 2
      (Parser.parser_init 100 1 "8 - 3 - 2") = Ok (first, st1)
    /\ operands_of 100 Parser.is_term_op
         (Parser.parse_factor 100 (Parser.parse_expression 100 2) 2)
         st1 steps (Parser.mkPState "8 - 3 - 2" 9 (tok1 TOKEN_EOF "EOF") 0)
    /\ BinOp "-" (BinOp "-" (Num "8") (Num "3")) (Num "2")
       = fold_left_binops first steps.
Proof.
  destruct each_level_folds_left as [H _].
  destruct (H 100%nat (Parser.parse_expression 100 2) 2%nat)
    as (_ & Hterm & _).
  apply Hterm. vm_compute. reflexivity.
Defined.

(** C6, as stated, fails: on the bare expression "8 - 3 - 2" [parse] exits
    on the first token instead of returning a tree. *)
Lemma parse_exits_on_8_minus_3_minus_2 : ~ parse_returns "8 - 3 - 2".
Proof.
  intros (sz & fuel & tree & H). destruct fuel as [|f].
  - vm_compute in H. discriminate.
  - pose proof (bare_8_minus_3_minus_2_is_not_a_program sz f) as B.
    change (1 + f)%nat with (S f) in B. rewrite B in H. discriminate.
Qed.
